(** * Remote captioning workflow of video-animals-stories-maker

    A shallow embedding of [CaptionService] (caption.service.ts) and of
    [resampleAudioIfNeeded] (media.service.ts), and the properties of the
    retry loop, the status poll loop, the transcript correction merge and the
    audio normaliser that follow from the code. *)

From stdpp Require Import gmap strings list fin_maps pretty.
From Stdlib Require Import ZArith Lia.

Set Warnings "-register-all".
Local Open Scope Z_scope.
Local Open Scope string_scope.

(** ** JavaScript values that the service handles *)

(** A JSON value, as [JSON.parse] or axios hand it to the service. Numbers are
    never inspected by the code and are kept as integers. *)
Inductive json : Type :=
  | JNull
  | JBool (b : bool)
  | JNum (n : Z)
  | JStr (s : string)
  | JArr (items : list json)
  | JObj (fields : list (string * json)).

(** [interface TranscriptChunk { text?: string; [key: string]: unknown }]:
    an object, by value: its own properties and their values (the order of
    the properties, which no code here looks at, is not kept). *)
Abbreviation TranscriptChunk := (gmap string json).

(** [interface TranscriptionCorrectionChunk { text: string }] *)
Record TranscriptionCorrectionChunk : Type := { text : string }.

(** A thrown value: an [Error] (or a subclass such as [AxiosError]) with its
    [name] and [message]. *)
Record thrown : Type := Thrown { name : string; message : string }.

(** [new Error(message)] *)
Definition Error (msg : string) : thrown := Thrown "Error" msg.

(** [String(error)] for an error object ([Error.prototype.toString]). *)
Definition String_of_error (e : thrown) : string :=
  if decide (name e = "") then message e
  else if decide (message e = "") then name e
  else name e ++ ": " ++ message e.

(** [String(lastError)] where [lastError] is still [undefined] when no attempt
    has failed. *)
Definition String_of_lastError (lastError : option thrown) : string :=
  match lastError with
  | Some e => String_of_error e
  | None => "undefined"
  end.

(** ** The transcript correction merge, by value *)

(** [typeof chunk.text === "string" && chunk.text.length > 0], with the text
    when the test holds. *)
Definition chunkText (chunk : TranscriptChunk) : option string :=
  match chunk !! "text" with
  | Some (JStr s) => if decide (0 < String.length s)%nat then Some s else None
  | _ => None
  end.

(** [transcript.filter(chunk => typeof chunk.text === "string" && chunk.text.length > 0)] *)
Definition chunksWithText (transcript : list TranscriptChunk) : list TranscriptChunk :=
  filter (λ chunk, is_Some (chunkText chunk)) transcript.

(** [chunksWithText.map(chunk => ({ text: chunk.text }))] *)
Definition compactTranscript (chunksWithText : list TranscriptChunk) : list TranscriptionCorrectionChunk :=
  (λ chunk, {| text := default "" (chunkText chunk) |}) <$> chunksWithText.

(** The loop of lines 429-435 over the copies, [correctionIndex] being the
    loop's counter:
    [chunk.text = correctedChunks[correctionIndex]?.text ?? chunk.text]. *)
Fixpoint applyCorrections (correctedChunks : list TranscriptionCorrectionChunk)
    (correctionIndex : nat) (transcriptCopy : list TranscriptChunk) : list TranscriptChunk :=
  match transcriptCopy with
  | [] => []
  | chunk :: rest =>
      match chunkText chunk with
      | Some old =>
          <["text" := JStr (default old (text <$> correctedChunks !! correctionIndex))]> chunk
            :: applyCorrections correctedChunks (S correctionIndex) rest
      | None => chunk :: applyCorrections correctedChunks correctionIndex rest
      end
  end.

(** The number of chunks with text before position [i]: the value of
    [correctionIndex] when the loop reaches [transcript[i]]. *)
Definition textRank (transcript : list TranscriptChunk) (i : nat) : nat :=
  length (chunksWithText (take i transcript)).

(** ** The world the service runs in *)

(** [interface CaptionTaskStatus] *)
Record CaptionTaskStatus : Type := {
  status : string;
  error : option string;
  downloadUrl : option string;
  transcript : option string;
}.

(** A file on disk: its bytes. What [ffprobe] reads in them and what [ffmpeg]
    writes is the environment's answer, see [Remote]. *)
Record file : Type := File { bytes : string }.

(** What the program does to the outside, in order. *)
Inductive event : Type :=
  | UploadVideo (videoPath : string)                       (* POST /videos *)
  | CreateTask (videoId : string) (languageCode : json)    (* POST /videos/:id/task *)
  | GetTask (videoId taskId : string)                      (* GET /videos/:id/task/:taskId *)
  | GetTranscript (transcriptUrl : string)                 (* axios.get(transcriptUrl) *)
  | ReviewRequest (originalText : string) (chunks : list TranscriptionCorrectionChunk)
                                                           (* openAIClient.responses.create *)
  | PutTranscript (videoId taskId : string) (chunks : list TranscriptChunk)
  | ApproveTranscript (videoId taskId : string)
  | Download (url outputPath : string)
  | Ffprobe (filePath : string)
  | Ffmpeg (input : string) (rate : Z) (output : string)
  | Unlink (filePath : string)
  | Rename (oldPath newPath : string)
  | Sleep (milliseconds : Z)
  | ConsoleLog (msg : string)
  | ConsoleError (msg : string) (e : thrown).

(** The calls that leave the machine. *)
Definition is_remote (e : event) : bool :=
  match e with
  | UploadVideo _ | CreateTask _ _ | GetTask _ _ | GetTranscript _
  | ReviewRequest _ _ | PutTranscript _ _ _ | ApproveTranscript _ _
  | Download _ _ => true
  | _ => false
  end.

(** The kind of an event: which endpoint or tool it addresses. *)
Inductive kind : Type :=
  | KUpload | KTask | KStatus | KTranscript | KReview | KPut | KApprove
  | KDownload | KFfprobe | KFfmpeg | KUnlink | KRename | KSleep | KConsole.

#[global] Instance kind_eq_dec : EqDecision kind.
Proof. solve_decision. Defined.

Definition kind_of (e : event) : kind :=
  match e with
  | UploadVideo _ => KUpload
  | CreateTask _ _ => KTask
  | GetTask _ _ => KStatus
  | GetTranscript _ => KTranscript
  | ReviewRequest _ _ => KReview
  | PutTranscript _ _ _ => KPut
  | ApproveTranscript _ _ => KApprove
  | Download _ _ => KDownload
  | Ffprobe _ => KFfprobe
  | Ffmpeg _ _ _ => KFfmpeg
  | Unlink _ => KUnlink
  | Rename _ _ => KRename
  | Sleep _ => KSleep
  | ConsoleLog _ | ConsoleError _ _ => KConsole
  end.

Definition sleep_of (e : event) : option Z :=
  match e with Sleep ms => Some ms | _ => None end.

(** The remote calls of a trace, and the delays slept in it. *)
Definition remote_calls (tr : list event) : list event := filter (λ e, is_remote e = true) tr.
Definition sleeps (tr : list event) : list Z := omap sleep_of tr.

(** How many events of one kind a trace holds: the index of the next call of
    that kind. *)
Definition calls (k : kind) (tr : list event) : nat :=
  length (filter (λ e, kind_of e = k) tr).

Record World : Type := {
  fs : gmap string file;
  trace : list event;
}.

(** The world after some more events, the files as they were. *)
Definition log (w : World) (es : list event) : World :=
  {| fs := fs w; trace := trace w ++ es |}.

(** What a call to the outside comes back with. *)
Inductive reply (A : Type) : Type :=
  | Reply (a : A)
  | Fails (e : thrown).
Arguments Reply {A} a.
Arguments Fails {A} e.

(** The transcript payload after [JSON.parse] of a string body: the parse
    throws, or the value is an array of chunks, or it is something else. *)
Inductive transcript_payload : Type :=
  | TranscriptNotJson (e : thrown)
  | TranscriptArray (chunks : list TranscriptChunk)
  | TranscriptOther.

(** The review model's response: no [output_text], text that [JSON.parse]
    rejects, or an object whose [items] is an array or is not. *)
Inductive review_output : Type :=
  | NoOutputText
  | OutputNotJson (e : thrown)
  | OutputItems (items : list TranscriptionCorrectionChunk)
  | OutputNoItems.

Inductive download_reply : Type :=
  | DownloadOk (f : file)
  | DownloadBroken (e : thrown) (partial : file)   (* the stream broke: a part is on disk *)
  | DownloadFails (e : thrown).

(** What [ffprobe -print_format json -show_streams] printed, as
    [getAudioSampleRate] reads it: text that [JSON.parse] rejects, no first
    stream with a non-empty [sample_rate], or a [sample_rate] with the value
    of [Number.parseInt] on it ([None] when it is not a finite number). *)
Inductive ffprobe_output : Type :=
  | ProbeNotJson (e : thrown)
  | ProbeNoSampleRate
  | ProbeSampleRate (parsed : option Z).

(** How an [ffmpeg] run ends: exit code 0 with the output file written, or a
    failure that may leave a part of the output behind. *)
Inductive ffmpeg_exit : Type :=
  | FfmpegOk (output : file)
  | FfmpegFails (e : thrown) (partial : option file).

(** The environment of one run: the [k]-th call of each kind gets the [k]-th
    answer. The program is sequential and deterministic, so every behaviour of
    the provider, of the review model and of the local tools along a run is
    one such environment. *)
Record Remote : Type := {
  post_videos : nat → reply (option string);       (* response.data?.id *)
  post_task : nat → reply (option string);         (* response.data?.taskId *)
  get_task : nat → reply CaptionTaskStatus;
  get_transcript : nat → reply transcript_payload;
  responses_create : nat → reply review_output;
  put_transcript : nat → reply ();
  post_approve : nat → reply ();
  get_download : nat → download_reply;
  run_ffprobe : nat → reply ffprobe_output;      (* Fails: spawn error, exit code ≠ 0 *)
  run_ffmpeg : nat → ffmpeg_exit;
  fs_unlink : nat → reply ();                      (* Fails: EPERM, EBUSY, ... *)
  fs_rename : nat → reply ();
}.

(** ** The monad of the async functions: state, exceptions, and a poll loop
    that may still be running when the fuel is spent *)

Inductive result (A : Type) : Type :=
  | Ok (a : A)
  | Throw (e : thrown)
  | Pending.
Arguments Ok {A} a.
Arguments Throw {A} e.
Arguments Pending {A}.

Definition M (A : Type) : Type := World → result A * World.

Definition ret {A} (a : A) : M A := λ w, (Ok a, w).
Definition throw {A} (e : thrown) : M A := λ w, (Throw e, w).
Definition pending {A} : M A := λ w, (Pending, w).

Definition bind {A B} (m : M A) (k : A → M B) : M B :=
  λ w, match m w with
       | (Ok a, w') => k a w'
       | (Throw e, w') => (Throw e, w')
       | (Pending, w') => (Pending, w')
       end.

(** [try { body } catch (error) { handler }] *)
Definition try_catch {A} (body : M A) (handler : thrown → M A) : M A :=
  λ w, match body w with
       | (Throw e, w') => handler e w'
       | r => r
       end.

Declare Scope js_scope.
Delimit Scope js_scope with js.
Notation "x <- m ;; k" := (bind m (λ x, k))
  (at level 100, m at next level, right associativity) : js_scope.
Notation "m ;;; k" := (bind m (λ _, k))
  (at level 100, right associativity) : js_scope.
Local Open Scope js_scope.

Definition emit (e : event) : M () :=
  λ w, (Ok (), {| fs := fs w; trace := trace w ++ [e] |}).

Definition get_trace : M (list event) := λ w, (Ok (trace w), w).
Definition get_fs : M (gmap string file) := λ w, (Ok (fs w), w).
Definition set_fs (f : gmap string file) : M () :=
  λ w, (Ok (), {| fs := f; trace := trace w |}).

(** A call to the outside: it is recorded, and its index is the number of
    earlier calls of its kind. *)
Definition call (e : event) : M nat :=
  tr <- get_trace;; emit e;;; ret (calls (kind_of e) tr).

Definition of_reply {A} (r : reply A) : M A :=
  match r with
  | Reply a => ret a
  | Fails e => throw e
  end.

(** [sleep] of utils/http.ts *)
Definition sleep (milliseconds : Z) : M () := emit (Sleep milliseconds).

(** [fileExists] of utils/file-system.ts *)
Definition fileExists (filePath : string) : M bool :=
  f <- get_fs;; ret (bool_decide (is_Some (f !! filePath))).

(** ** caption.service.ts and media.service.ts *)

Definition languageToZapcapCode : gmap string string :=
  list_to_map
    [ ("ENGLISH", "en"); ("SPANISH", "es"); ("RUSSIAN", "ru"); ("FRENCH", "fr");
      ("GERMAN", "de"); ("ITALIAN", "it"); ("PORTUGUESE", "pt") ].

(** The members that an object literal inherits from [Object.prototype]: a
    property read on [languageToZapcapCode] finds them too. *)
Definition Object_prototype_members : list string :=
  [ "constructor"; "__proto__"; "hasOwnProperty"; "isPrototypeOf";
    "propertyIsEnumerable"; "toLocaleString"; "toString"; "valueOf";
    "__defineGetter__"; "__defineSetter__"; "__lookupGetter__"; "__lookupSetter__" ].

(** [languageToZapcapCode[key]]: an own entry, an inherited member (a function
    or an object, written [JObj []] here), or [undefined]. *)
Definition languageCodeOf (key : string) : option json :=
  match languageToZapcapCode !! key with
  | Some code => Some (JStr code)
  | None => if decide (key ∈ Object_prototype_members) then Some (JObj []) else None
  end.

(** [!value] for a value that is [undefined] ([None]) or a JSON value. *)
Definition falsy (value : option json) : bool :=
  match value with
  | None | Some JNull | Some (JBool false) | Some (JNum 0) | Some (JStr "") => true
  | Some _ => false
  end.

(** [!value] for an optional string. *)
Definition missing (value : option string) : bool :=
  match value with
  | None | Some "" => true
  | Some _ => false
  end.

Record CreateCaptionedVideoParams : Type := {
  sourceVideoPath : string;
  outputPath : string;
  language : string;
  originalText : string;
}.

(** [`[captions] Attempt ${attempt} failed for ${language}:`] *)
Definition attempt_failed_line (params : CreateCaptionedVideoParams) (attempt : Z) : string :=
  "[captions] Attempt " ++ pretty attempt ++ " failed for " ++ language params ++ ":".

Section Services.
(** The environment of the run. *)
Context (R : Remote).
(** The platform's [String.prototype.toUpperCase], [path.parse] (its [dir],
    [name] and [ext]) and [path.resolve]. *)
Context (toUpperCase : string → string).
Context (path_parse : string → string * string * string).
Context (path_resolve : string → string → string).
(** [this.maxRetryAttempts] *)
Context (maxRetryAttempts : Z).

(** *** media.service.ts *)

Definition getAudioSampleRate (filePath : string) : M Z :=
  k <- call (Ffprobe filePath);;
  stdout <- of_reply (run_ffprobe R k);;
  match stdout with
  | ProbeNotJson e => throw e
  | ProbeNoSampleRate => throw (Error ("Audio sample_rate was not found: " ++ filePath))
  | ProbeSampleRate None => throw (Error ("Audio sample_rate is invalid: " ++ filePath))
  | ProbeSampleRate (Some sampleRate) => ret sampleRate
  end.

(** [path.resolve(dir, `${name}_resampled_${targetRate}${ext}`)]; the rate is
    printed in decimal, as JavaScript prints an integer below 1e21. *)
Definition temporaryOutputPath (filePath : string) (targetRate : Z) : string :=
  let '(dir, name, ext) := path_parse filePath in
  path_resolve dir (name ++ "_resampled_" ++ pretty targetRate ++ ext).

(** [runProcess("ffmpeg", ["-i", input, ..., "-ar", rate, "-y", output])] *)
Definition ffmpeg (input : string) (rate : Z) (output : string) : M () :=
  k <- call (Ffmpeg input rate output);;
  f <- get_fs;;
  match run_ffmpeg R k with
  | FfmpegOk out => set_fs (<[output := out]> f)
  | FfmpegFails e (Some part) => set_fs (<[output := part]> f);;; throw e
  | FfmpegFails e None => throw e
  end.

(** [unlink] of node:fs/promises *)
Definition unlink (filePath : string) : M () :=
  k <- call (Unlink filePath);;
  of_reply (fs_unlink R k);;;
  f <- get_fs;;
  match f !! filePath with
  | Some _ => set_fs (delete filePath f)
  | None => throw (Error ("ENOENT: no such file or directory, unlink '" ++ filePath ++ "'"))
  end.

(** [rename] of node:fs/promises *)
Definition rename (oldPath newPath : string) : M () :=
  k <- call (Rename oldPath newPath);;
  of_reply (fs_rename R k);;;
  f <- get_fs;;
  match f !! oldPath with
  | Some content => set_fs (<[newPath := content]> (delete oldPath f))
  | None => throw (Error ("ENOENT: no such file or directory, rename '" ++ oldPath ++ "'"))
  end.

Definition resampleAudioIfNeeded (filePath : string) (targetRate : Z) : M string :=
  sampleRate <- getAudioSampleRate filePath;;
  if decide (sampleRate = targetRate) then ret filePath
  else
    ffmpeg filePath targetRate (temporaryOutputPath filePath targetRate);;;
    unlink filePath;;;
    rename (temporaryOutputPath filePath targetRate) filePath;;;
    ret filePath.

(** *** utils/http.ts *)

Definition downloadFile (url outputPath : string) : M string :=
  k <- call (Download url outputPath);;
  f <- get_fs;;
  match get_download R k with
  | DownloadOk content => set_fs (<[outputPath := content]> f);;; ret outputPath
  | DownloadBroken e part => set_fs (<[outputPath := part]> f);;; throw e
  | DownloadFails e => throw e
  end.

(** *** caption.service.ts *)

Definition uploadVideo (videoPath : string) : M string :=
  k <- call (UploadVideo videoPath);;
  id <- of_reply (post_videos R k);;
  if missing id then throw (Error "Zapcap upload response does not contain video id")
  else ret (default "" id).

Definition createCaptionTask (videoId language : string) : M string :=
  let languageCode := languageCodeOf (toUpperCase language) in
  if falsy languageCode then throw (Error ("Unsupported caption language: " ++ language))
  else
    k <- call (CreateTask videoId (default JNull languageCode));;
    taskId <- of_reply (post_task R k);;
    if missing taskId then throw (Error "Zapcap task response does not contain taskId")
    else ret (default "" taskId).

(** The [while (true)] loop, run for at most [fuel] probes; [Pending] when
    the loop is still polling after them. *)
Fixpoint waitForTaskStatus (fuel : nat) (videoId taskId : string)
    (targetStatuses : list string) (language : string) : M CaptionTaskStatus :=
  match fuel with
  | O => pending
  | S fuel' =>
      k <- call (GetTask videoId taskId);;
      st <- of_reply (get_task R k);;
      emit (ConsoleLog ("[captions] " ++ language ++ ": " ++ status st));;;
      if decide (status st ∈ targetStatuses) then ret st
      else if decide (status st = "failed") then
        throw (Error ("Zapcap task failed: " ++ default "unknown error" (error st)))
      else
        sleep 2000;;;
        waitForTaskStatus fuel' videoId taskId targetStatuses language
  end.

Definition waitForTranscription (fuel : nat) (videoId taskId language : string) : M string :=
  st <- waitForTaskStatus fuel videoId taskId ["transcriptionCompleted"] language;;
  if missing (transcript st) then throw (Error "Zapcap did not provide transcript URL")
  else ret (default "" (transcript st)).

Definition waitForCompletedVideo (fuel : nat) (videoId taskId language : string) : M string :=
  st <- waitForTaskStatus fuel videoId taskId ["completed"] language;;
  if missing (downloadUrl st) then throw (Error "Zapcap did not provide download URL")
  else ret (default "" (downloadUrl st)).

Definition loadTranscript (transcriptUrl : string) : M (list TranscriptChunk) :=
  k <- call (GetTranscript transcriptUrl);;
  payload <- of_reply (get_transcript R k);;
  match payload with
  | TranscriptNotJson e => throw e
  | TranscriptArray chunks => ret chunks
  | TranscriptOther => throw (Error "Zapcap transcript format is invalid")
  end.

Definition correctTranscriptChunks (originalText : string)
    (chunks : list TranscriptionCorrectionChunk) : M (list TranscriptionCorrectionChunk) :=
  k <- call (ReviewRequest originalText chunks);;
  response <- of_reply (responses_create R k);;
  match response with
  | NoOutputText => throw (Error "OpenAI did not return corrected transcript")
  | OutputNotJson e => throw e
  | OutputNoItems => throw (Error "Corrected transcript response format is invalid")
  | OutputItems items => ret items
  end.

(** The copies [{ ...chunk }] are the chunks themselves here, where objects
    are values; [Heap.correctTranscript] below has the objects in a store. *)
Definition correctTranscript (originalText : string)
    (transcript : list TranscriptChunk) : M (list TranscriptChunk) :=
  let compact := compactTranscript (chunksWithText transcript) in
  correctedChunks <- correctTranscriptChunks originalText compact;;
  if decide (length correctedChunks ≠ length compact) then
    throw (Error "Corrected transcript length does not match original transcript length")
  else
    let transcriptCopy := transcript in
    ret (applyCorrections correctedChunks 0 transcriptCopy).

Definition applyTranscript (videoId taskId : string) (transcript : list TranscriptChunk) : M () :=
  k <- call (PutTranscript videoId taskId transcript);;
  of_reply (put_transcript R k).

Definition approveTranscript (videoId taskId : string) : M () :=
  k <- call (ApproveTranscript videoId taskId);;
  of_reply (post_approve R k).

(** The body of the [try] block: one attempt. *)
Definition attempt_body (fuel : nat) (params : CreateCaptionedVideoParams) : M string :=
  videoId <- uploadVideo (sourceVideoPath params);;
  taskId <- createCaptionTask videoId (language params);;
  transcriptUrl <- waitForTranscription fuel videoId taskId (language params);;
  originalTranscript <- loadTranscript transcriptUrl;;
  correctedTranscript <- correctTranscript (originalText params) originalTranscript;;
  applyTranscript videoId taskId correctedTranscript;;;
  approveTranscript videoId taskId;;;
  downloadUrl <- waitForCompletedVideo fuel videoId taskId (language params);;
  downloadFile downloadUrl (outputPath params);;;
  resampleAudioIfNeeded (outputPath params) 44100;;;
  ret (outputPath params).

(** The [for] loop over the attempts that are left, and the [throw] after it. *)
Fixpoint attempt_loop (fuel : nat) (params : CreateCaptionedVideoParams)
    (attempts : list Z) (lastError : option thrown) : M string :=
  match attempts with
  | [] =>
      throw (Error ("Failed to create captioned video after retries: "
                    ++ String_of_lastError lastError))
  | attempt :: later =>
      try_catch (attempt_body fuel params)
        (λ error,
           emit (ConsoleError (attempt_failed_line params attempt) error);;;
           (if decide (attempt < maxRetryAttempts) then sleep (2000 * attempt) else ret ());;;
           attempt_loop fuel params later (Some error))
  end.

Definition createCaptionedVideo (fuel : nat) (params : CreateCaptionedVideoParams) : M string :=
  present <- fileExists (outputPath params);;
  if present then
    emit (ConsoleLog ("[captions] File already exists: " ++ outputPath params));;;
    ret (outputPath params)
  else attempt_loop fuel params (seqZ 1 maxRetryAttempts) None.

End Services.

(** The [k]-th status probe keeps the poll loop going: the request succeeds
    and the status is neither a target nor ["failed"]. *)
Definition keeps_polling (R : Remote) (targetStatuses : list string) (k : nat) : Prop :=
  ∃ st, get_task R k = Reply st ∧ (status st ∉ targetStatuses) ∧ status st ≠ "failed".

(** A remote captioning client that always fails: every request to the
    provider comes back as an error. *)
Definition always_fails (R : Remote) : Prop :=
  (∀ k, ∃ e, post_videos R k = Fails e) ∧
  (∀ k, ∃ e, post_task R k = Fails e) ∧
  (∀ k, ∃ e, get_task R k = Fails e) ∧
  (∀ k, ∃ e, put_transcript R k = Fails e) ∧
  (∀ k, ∃ e, post_approve R k = Fails e).

(** The error of the [k]-th upload, when it fails. *)
Definition upload_error (R : Remote) (k : nat) : option thrown :=
  match post_videos R k with
  | Fails e => Some e
  | Reply _ => None
  end.

(** ** [correctTranscript] over a store of objects

    The same function with the transcript array and its chunk objects in a
    heap, so that what the call allocates and what it writes can be told
    apart from what the caller holds. The arrays [chunksWithText] and
    [compactTranscript] are new arrays that only go into the review request;
    they stay values here. *)
Module Heap.

Abbreviation loc := positive.

Inductive cell : Type :=
  | Object (props : gmap string json)
  | Array (elems : list loc).

Abbreviation heap := (gmap loc cell).

(** A new object or array: a location that the heap does not hold yet. *)
Definition alloc (h : heap) (c : cell) : loc * heap :=
  let l := fresh (dom h) in (l, <[l := c]> h).

Definition chunkAt (h : heap) (l : loc) : option TranscriptChunk :=
  match h !! l with
  | Some (Object props) => Some props
  | _ => None
  end.

Definition elemsAt (h : heap) (l : loc) : option (list loc) :=
  match h !! l with
  | Some (Array elems) => Some elems
  | _ => None
  end.

(** The chunks of a [TranscriptChunk[]], read through the array. *)
Definition readTranscript (h : heap) (transcript : loc) : option (list TranscriptChunk) :=
  elems ← elemsAt h transcript; mapM (chunkAt h) elems.

(** The chunks that the locations of a list point to, one by one. *)
Definition reads (h : heap) (ls : list loc) (chunks : list TranscriptChunk) : Prop :=
  Forall2 (λ l chunk, chunkAt h l = Some chunk) ls chunks.

(** [transcript.map((chunk) => ({ ...chunk }))]: one new object per element,
    with the element's own properties. *)
Fixpoint copyChunks (h : heap) (elems : list loc) : option (list loc * heap) :=
  match elems with
  | [] => Some ([], h)
  | l :: rest =>
      props ← chunkAt h l;
      let '(l', h') := alloc h (Object props) in
      '(copies, h'') ← copyChunks h' rest;
      Some (l' :: copies, h'')
  end.

(** The [for (const chunk of transcriptCopy)] loop: it reads and writes the
    object that each element points to. *)
Fixpoint writeCorrections (correctedChunks : list TranscriptionCorrectionChunk)
    (correctionIndex : nat) (h : heap) (transcriptCopy : list loc) : option heap :=
  match transcriptCopy with
  | [] => Some h
  | l :: rest =>
      props ← chunkAt h l;
      match chunkText props with
      | Some old =>
          let new := default old (text <$> correctedChunks !! correctionIndex) in
          writeCorrections correctedChunks (S correctionIndex)
            (<[l := Object (<["text" := JStr new]> props)]> h) rest
      | None => writeCorrections correctedChunks correctionIndex h rest
      end
  end.

Inductive outcome : Type :=
  | Returned (transcriptCopy : loc)
  | Threw (e : thrown)
  | IllTyped.            (* the argument is not a [TranscriptChunk[]] *)

(** [review] is the awaited [this.correctTranscriptChunks]. *)
Definition correctTranscript
    (review : string → list TranscriptionCorrectionChunk → reply (list TranscriptionCorrectionChunk))
    (originalText : string) (transcript : loc) (h : heap) : outcome * heap :=
  match elemsAt h transcript, readTranscript h transcript with
  | Some elems, Some chunks =>
      let compact := compactTranscript (chunksWithText chunks) in
      match review originalText compact with
      | Fails e => (Threw e, h)
      | Reply correctedChunks =>
          if decide (length correctedChunks ≠ length compact) then
            (Threw (Error "Corrected transcript length does not match original transcript length"), h)
          else
            match copyChunks h elems with
            | Some (copies, h1) =>
                match writeCorrections correctedChunks 0 h1 copies with
                | Some h2 =>
                    let '(transcriptCopy, h3) := alloc h2 (Array copies) in
                    (Returned transcriptCopy, h3)
                | None => (IllTyped, h)
                end
            | None => (IllTyped, h)
            end
      end
  | _, _ => (IllTyped, h)
  end.

End Heap.

(** ** Concrete runs *)

Definition network_error : thrown := Thrown "AxiosError" "Network Error".

(** An environment in which every call fails. *)
Definition offline : Remote := {|
  post_videos := λ _, Fails network_error;
  post_task := λ _, Fails network_error;
  get_task := λ _, Fails network_error;
  get_transcript := λ _, Fails network_error;
  responses_create := λ _, Fails network_error;
  put_transcript := λ _, Fails network_error;
  post_approve := λ _, Fails network_error;
  get_download := λ _, DownloadFails network_error;
  run_ffprobe := λ _, Fails (Error "ffprobe exited with code 1: ");
  run_ffmpeg := λ _, FfmpegFails (Error "ffmpeg exited with code 1: ") None;
  fs_unlink := λ _, Fails (Error "EPERM: operation not permitted");
  fs_rename := λ _, Fails (Error "EPERM: operation not permitted");
|}.

(** The review model answers every request with [items]. *)
Definition review_model (items : list TranscriptionCorrectionChunk) : Remote := {|
  post_videos := post_videos offline;
  post_task := post_task offline;
  get_task := get_task offline;
  get_transcript := get_transcript offline;
  responses_create := λ _, Reply (OutputItems items);
  put_transcript := put_transcript offline;
  post_approve := post_approve offline;
  get_download := get_download offline;
  run_ffprobe := run_ffprobe offline;
  run_ffmpeg := run_ffmpeg offline;
  fs_unlink := fs_unlink offline;
  fs_rename := fs_rename offline;
|}.

(** The provider accepts uploads and tasks and then reports the statuses of
    [statuses], one per probe, and ["processing"] after them. *)
Definition provider (statuses : list CaptionTaskStatus) : Remote := {|
  post_videos := λ _, Reply (Some "video-1");
  post_task := λ _, Reply (Some "task-1");
  get_task := λ k, Reply (default {| status := "processing"; error := None;
                                      downloadUrl := None; transcript := None |}
                                   (statuses !! k));
  get_transcript := get_transcript offline;
  responses_create := responses_create offline;
  put_transcript := put_transcript offline;
  post_approve := post_approve offline;
  get_download := get_download offline;
  run_ffprobe := run_ffprobe offline;
  run_ffmpeg := run_ffmpeg offline;
  fs_unlink := fs_unlink offline;
  fs_rename := fs_rename offline;
|}.

(** A run in which everything succeeds: the job is ["processing"], then its
    transcript is ready, then it is ["rendering"], then ["completed"]; the
    download is at 48000 Hz and is resampled. *)
Definition cooperative (chunks : list TranscriptChunk)
    (items : list TranscriptionCorrectionChunk) (downloaded resampled : file) : Remote := {|
  post_videos := λ _, Reply (Some "video-1");
  post_task := λ _, Reply (Some "task-1");
  get_task := λ k,
    Reply (default {| status := "completed"; error := None;
                      downloadUrl := Some "https://cdn/captioned.mp4"; transcript := None |}
             ([ {| status := "processing"; error := None; downloadUrl := None; transcript := None |};
                {| status := "transcriptionCompleted"; error := None; downloadUrl := None;
                   transcript := Some "https://cdn/transcript.json" |};
                {| status := "rendering"; error := None; downloadUrl := None; transcript := None |} ]
                !! k));
  get_transcript := λ _, Reply (TranscriptArray chunks);
  responses_create := λ _, Reply (OutputItems items);
  put_transcript := λ _, Reply ();
  post_approve := λ _, Reply ();
  get_download := λ _, DownloadOk downloaded;
  run_ffprobe := λ _, Reply (ProbeSampleRate (Some 48000));
  run_ffmpeg := λ _, FfmpegOk resampled;
  fs_unlink := λ _, Reply ();
  fs_rename := λ _, Reply ();
|}.

(** The local tools: what [ffprobe] reads, how [ffmpeg] ends, and whether
    [unlink] and [rename] go through. *)
Definition tools (probe : reply ffprobe_output) (encode : ffmpeg_exit)
    (unlinked renamed : reply ()) : Remote := {|
  post_videos := post_videos offline;
  post_task := post_task offline;
  get_task := get_task offline;
  get_transcript := get_transcript offline;
  responses_create := responses_create offline;
  put_transcript := put_transcript offline;
  post_approve := post_approve offline;
  get_download := get_download offline;
  run_ffprobe := λ _, probe;
  run_ffmpeg := λ _, encode;
  fs_unlink := λ _, unlinked;
  fs_rename := λ _, renamed;
|}.

(** ASCII upper case, and a [path.parse]/[path.resolve] for file names
    without a directory, for the concrete runs. *)
Definition upper_ascii (c : Ascii.ascii) : Ascii.ascii :=
  let n := Ascii.nat_of_ascii c in
  if decide (97 ≤ n ≤ 122)%nat then Ascii.ascii_of_nat (n - 32) else c.

Fixpoint upper (s : string) : string :=
  match s with
  | EmptyString => EmptyString
  | String c rest => String (upper_ascii c) (upper rest)
  end.

Definition parse_mp4 (filePath : string) : string * string * string :=
  ("", String.substring 0 (String.length filePath - 4) filePath, ".mp4").

Definition resolve_flat (dir fileName : string) : string := dir ++ fileName.

Definition empty_world : World := {| fs := ∅; trace := [] |}.

Definition example_transcript : list TranscriptChunk :=
  [ {[ "text" := JStr "helo" ]}; ∅; {[ "text" := JStr "wrold" ]} ].

Definition example_corrections : list TranscriptionCorrectionChunk :=
  [ {| text := "hello" |}; {| text := "world" |} ].

Definition example_params : CreateCaptionedVideoParams := {|
  sourceVideoPath := "rendered_RUSSIAN.mp4";
  outputPath := "captioned_RUSSIAN.mp4";
  language := "RUSSIAN";
  originalText := "hello world";
|}.

Definition original_file : file := File "h264+aac@48000".
Definition resampled_file : file := File "h264+aac@44100".

Definition downloaded_world : World :=
  {| fs := {[ "captioned_RUSSIAN.mp4" := original_file ]}; trace := [] |}.

(** The file is at 48000 Hz, [ffmpeg] and [unlink] succeed, [rename] fails. *)
Definition rename_fails : Remote :=
  tools (Reply (ProbeSampleRate (Some 48000))) (FfmpegOk resampled_file) (Reply ())
        (Fails (Error "EPERM: operation not permitted, rename")).

(** The file is at the target rate already. *)
Definition at_target_rate : Remote :=
  tools (Reply (ProbeSampleRate (Some 44100))) (FfmpegOk resampled_file) (Reply ()) (Reply ()).

Definition ukrainian_params : CreateCaptionedVideoParams := {|
  sourceVideoPath := "rendered_UKRAINIAN.mp4";
  outputPath := "captioned_UKRAINIAN.mp4";
  language := "UKRAINIAN";
  originalText := "pryvit";
|}.

Definition failed_status : CaptionTaskStatus :=
  {| status := "failed"; error := Some "render crashed"; downloadUrl := None; transcript := None |}.

Definition processing_status : CaptionTaskStatus :=
  {| status := "processing"; error := None; downloadUrl := None; transcript := None |}.

(** A heap with the transcript [[{text:"helo"}, {}, {text:"wrold"}]] at
    location 4. *)
Definition example_heap : Heap.heap :=
  <[4%positive := Heap.Array [1; 2; 3]%positive]>
    (<[3%positive := Heap.Object {[ "text" := JStr "wrold" ]}]>
       (<[2%positive := Heap.Object ∅]>
          (<[1%positive := Heap.Object {[ "text" := JStr "helo" ]}]> ∅))).

(** ** The order of the calls of a run

    The identifier that [uploadVideo] and [createCaptionTask] read in a
    response: none when the request failed or the field is missing or
    empty. *)
Definition sent_id (response : reply (option string)) : option string :=
  match response with
  | Reply id => if missing id then None else id
  | Fails _ => None
  end.

(** The phases of an attempt, told from the calls made so far and from what
    the provider answered to them: after an upload, the video identifier of
    its response, if it held one; after the task request, that video
    identifier and the task identifier of the response, if it held one; from
    the first status probe on, the two identifiers. An upload starts a new
    attempt from any phase. *)
Inductive phase : Type :=
  | Idle
  | Uploaded (videoId : option string)
  | TaskCreated (videoId : string) (taskId : option string)
  | Transcribing (videoId taskId : string)
  | TranscriptLoaded (videoId taskId : string)
  | Reviewed (videoId taskId : string)
  | TranscriptApplied (videoId taskId : string)
  | Approved (videoId taskId : string)
  | Rendering (videoId taskId : string)
  | Downloaded (videoId taskId : string).

(** The phase after one more event, when the event may come in the phase, in
    the environment [R] and after the events [seen] (the response to a call is
    the one that [R] gives at the number of earlier calls of its kind): a task
    is created only right after an upload whose response held a video
    identifier, and for that identifier; the status is probed only after a
    task request whose response held a task identifier, and after the
    approval, for that video and that task; the transcript is fetched after a
    probe, reviewed after it was fetched, put after the review and approved
    after it was put, for that video and that task; the download follows a
    probe of the render; [ffprobe], [ffmpeg], [unlink] and [rename] run after
    the download only. Sleeps and console lines may come at any time. *)
Definition protocol_step (R : Remote) (seen : list event) (p : phase) (e : event)
    : option phase :=
  match e, p with
  | UploadVideo _, _ => Some (Uploaded (sent_id (post_videos R (calls KUpload seen))))
  | CreateTask v _, Uploaded (Some v') =>
      if decide (v = v')
      then Some (TaskCreated v (sent_id (post_task R (calls KTask seen)))) else None
  | GetTask v t, TaskCreated v' (Some t') =>
      if decide (v = v' ∧ t = t') then Some (Transcribing v t) else None
  | GetTask v t, Transcribing v' t' =>
      if decide (v = v' ∧ t = t') then Some (Transcribing v t) else None
  | GetTask v t, Approved v' t' =>
      if decide (v = v' ∧ t = t') then Some (Rendering v t) else None
  | GetTask v t, Rendering v' t' =>
      if decide (v = v' ∧ t = t') then Some (Rendering v t) else None
  | GetTranscript _, Transcribing v t => Some (TranscriptLoaded v t)
  | ReviewRequest _ _, TranscriptLoaded v t => Some (Reviewed v t)
  | PutTranscript v t _, Reviewed v' t' =>
      if decide (v = v' ∧ t = t') then Some (TranscriptApplied v t) else None
  | ApproveTranscript v t, TranscriptApplied v' t' =>
      if decide (v = v' ∧ t = t') then Some (Approved v t) else None
  | Download _ _, Rendering v t => Some (Downloaded v t)
  | (Ffprobe _ | Ffmpeg _ _ _ | Unlink _ | Rename _ _), Downloaded v t => Some (Downloaded v t)
  | (Sleep _ | ConsoleLog _ | ConsoleError _ _), _ => Some p
  | _, _ => None
  end.

(** One event seen by the observer: the phase moves, and an upload counts as
    one more attempt. *)
Definition observe_step (R : Remote) (seen : list event) (s : phase * nat) (e : event)
    : option (phase * nat) :=
  p' ← protocol_step R seen s.1 e;
  Some (p', if decide (kind_of e = KUpload) then S s.2 else s.2).

(** A list of events seen from a state, after the events [seen]: [None] when
    some event comes in a phase in which it may not. *)
Fixpoint observe (R : Remote) (seen : list event) (s : phase * nat) (es : list event)
    : option (phase * nat) :=
  match es with
  | [] => Some s
  | e :: rest => s' ← observe_step R seen s e; observe R (seen ++ [e])%list s' rest
  end.

(** A computation whose new events, from any world, are seen by the observer
    from the state [s] through to a state that fits its result. *)
Definition follows {A} (R : Remote) (s : phase * nat) (m : M A)
    (Q : result A → phase * nat → Prop) : Prop :=
  ∀ w, ∃ es s',
    trace (m w).2 = (trace w ++ es)%list ∧ observe R (trace w) s es = Some s' ∧ Q (m w).1 s'.

(** The result fits an operation that moves the attempt from phase [p] to
    phase [q] while [n] attempts were started: on success the phase is [q];
    otherwise it is [q] or still [p]. *)
Definition moved {A} (p q : phase) (n : nat) (r : result A) (s' : phase * nat) : Prop :=
  s'.2 = n ∧ (s'.1 = q ∨ (s'.1 = p ∧ ∀ a, r ≠ Ok a)).

(** The result fits an attempt started when [n] attempts had been: one more
    attempt was started, and a successful one is in the phase [Downloaded]. *)
Definition attempted {A} (n : nat) (r : result A) (s' : phase * nat) : Prop :=
  s'.2 = S n ∧ s'.1 ≠ Idle ∧ ∀ a, r = Ok a → ∃ v t, s'.1 = Downloaded v t.

(** The result fits the loop over [k] attempts that are left: at most [k]
    more attempts were started; all of them when the loop throws; at least
    one when it returns or is still polling (it returns from the phase
    [Downloaded]). *)
Definition looped {A} (n k : nat) (r : result A) (s' : phase * nat) : Prop :=
  (n ≤ s'.2 ≤ n + k)%nat ∧
  match r with
  | Throw _ => s'.2 = (n + k)%nat
  | Ok _ => (n < s'.2)%nat ∧ ∃ v t, s'.1 = Downloaded v t
  | Pending => (n < s'.2)%nat
  end.

(** The result fits [uploadVideo] when [n] attempts had been started: one
    more was, the phase holds the identifier of the response, and an
    identifier that is returned is that one. *)
Definition uploaded (n : nat) (r : result string) (s' : phase * nat) : Prop :=
  s'.2 = S n ∧ ∃ id, s'.1 = Uploaded id ∧ ∀ videoId, r = Ok videoId → id = Some videoId.

(** The result fits [createCaptionTask] for the uploaded video: the phase
    holds the task identifier of the response, and an identifier that is
    returned is that one; or the request was not made. *)
Definition task_created (videoId : string) (n : nat)
    (r : result string) (s' : phase * nat) : Prop :=
  s'.2 = n ∧
  ((∃ id, s'.1 = TaskCreated videoId id ∧ ∀ taskId, r = Ok taskId → id = Some taskId) ∨
   (s'.1 = Uploaded (Some videoId) ∧ ∀ taskId, r ≠ Ok taskId)).

(** ** utils/http.ts: waiting for a URL *)

Module Http.

(** What [waitForUrlAvailability] does to the outside. *)
Inductive action : Type :=
  | Head (url : string)             (* axios.head(url, ...) *)
  | Wait (milliseconds : Z).        (* sleep(intervalMs) *)

Definition is_head (a : action) : bool :=
  match a with Head _ => true | Wait _ => false end.

(** The number of requests made, and the delays slept. *)
Definition heads (sofar : list action) : nat :=
  length (filter (λ a, is_head a = true) sofar).

Definition waits (sofar : list action) : list Z :=
  omap (λ a, match a with Wait ms => Some ms | Head _ => None end) sofar.

(** The [for] loop over the attempts that are left; the [k]-th [HEAD] request
    of the run gets the answer [head k]. After the loop the function returns. *)
Fixpoint waitForUrlAvailability_loop (head : nat → reply ()) (url : string)
    (maxAttempts intervalMs : Z) (attempts : list Z) (sofar : list action)
    : result () * list action :=
  match attempts with
  | [] => (Ok (), sofar)
  | attempt :: later =>
      match head (heads sofar) with
      | Reply _ => (Ok (), (sofar ++ [Head url])%list)
      | Fails _ =>
          if decide (attempt = maxAttempts) then
            (Throw (Error ("URL is not available after " ++ pretty maxAttempts
                           ++ " attempts: " ++ url)),
             (sofar ++ [Head url])%list)
          else
            waitForUrlAvailability_loop head url maxAttempts intervalMs later
              (sofar ++ [Head url; Wait intervalMs])%list
      end
  end.

Definition waitForUrlAvailability (head : nat → reply ()) (url : string)
    (maxAttempts intervalMs : Z) (sofar : list action) : result () * list action :=
  waitForUrlAvailability_loop head url maxAttempts intervalMs (seqZ 1 maxAttempts) sofar.

(** [n] rounds of a request and the sleep after it. *)
Definition rounds (url : string) (intervalMs : Z) (n : nat) : list action :=
  concat (replicate n [Head url; Wait intervalMs]).

End Http.

(** ** index.ts and config/environment.ts: videos and languages of a run *)

From Stdlib Require Import Ascii.

(** [value.startsWith("--")] and [value.slice(2)] *)
Definition startsWith (prefix value : string) : bool := String.prefix prefix value.

Fixpoint slice (start : nat) (value : string) : string :=
  match start, value with
  | S start', String _ rest => slice start' rest
  | _, _ => value
  end.

(** [object[key] = value] on an object literal, for a string [value]: an
    own property, but for the key ["__proto__"], whose setter ignores a
    string. *)
Definition assign_string (key value : string) (object : gmap string string) : gmap string string :=
  if decide (key = "__proto__") then object else <[key := value]> object.

(** [parseCliArguments]: the loop from [rawArguments[index]] on. A flag whose
    next argument is missing, empty or a flag itself is skipped, and that next
    argument is looked at again as a flag. *)
Fixpoint parseCliArguments_from (rawArguments : list string)
    (argumentsMap : gmap string string) : gmap string string :=
  match rawArguments with
  | [] => argumentsMap
  | value :: rest =>
      if decide (value = "") then parseCliArguments_from rest argumentsMap
      else if negb (startsWith "--" value) then parseCliArguments_from rest argumentsMap
      else
        match rest with
        | [] => argumentsMap
        | nextValue :: after =>
            if decide (nextValue = "") then parseCliArguments_from rest argumentsMap
            else if startsWith "--" nextValue then parseCliArguments_from rest argumentsMap
            else parseCliArguments_from after (assign_string (slice 2 value) nextValue argumentsMap)
        end
  end.

Definition parseCliArguments (rawArguments : list string) : gmap string string :=
  parseCliArguments_from rawArguments ∅.

(** The flag [--key] is among the arguments and [value] comes right after it. *)
Definition given (rawArguments : list string) (key value : string) : Prop :=
  ∃ i : nat, rawArguments !! i = Some ("--" ++ key) ∧ rawArguments !! S i = Some value.

(** [value.split(separator)] for a separator of one character: the first
    piece and the pieces after it. *)
Fixpoint split_pieces (separator : Ascii.ascii) (value : string) : string * list string :=
  match value with
  | EmptyString => (EmptyString, [])
  | String c rest =>
      let '(first, others) := split_pieces separator rest in
      if decide (c = separator) then (EmptyString, first :: others)
      else (String c first, others)
  end.

Definition split (separator : Ascii.ascii) (value : string) : list string :=
  let '(first, others) := split_pieces separator value in first :: others.

(** [pieces.join(",")] *)
Definition join_comma (pieces : list string) : string := String.concat "," pieces.

(** [value.includes(c)] for one character. *)
Fixpoint includes (c : Ascii.ascii) (value : string) : bool :=
  match value with
  | EmptyString => false
  | String c' rest => if decide (c' = c) then true else includes c rest
  end.

Record PipelineOptions : Type := {
  videoIds : list string;
  languages : list string;
}.

Section Options.
(** The platform's [String.prototype.trim] and [toUpperCase]. *)
Context (trim : string → string).
Context (toUpperCase : string → string).
(** [process.env] *)
Context (env : gmap string string).

(** [value.split(",").map((item) => item.trim()).filter(Boolean)] *)
Definition csvEntries (value : string) : list string :=
  filter (λ item, item ≠ "") (trim <$> split ","%char value).

(** An entry that comes back from a comma-separated value as it went in: not
    empty, without a comma, and with nothing for [trim] to remove. *)
Definition plain (item : string) : Prop :=
  item ≠ "" ∧ trim item = item ∧ includes ","%char item = false.

(** [parseCsvList] of index.ts; [None] is [undefined]. *)
Definition parseCsvList (value : option string) : list string :=
  match value with
  | None | Some "" => []
  | Some value => csvEntries value
  end.

(** [readRequiredEnv] of config/environment.ts *)
Definition readRequiredEnv (variableName : string) : result string :=
  match env !! variableName with
  | None => Throw (Error ("Missing required environment variable: " ++ variableName))
  | Some value =>
      if decide (value = "" ∨ trim value = "") then
        Throw (Error ("Missing required environment variable: " ++ variableName))
      else Ok (trim value)
  end.

(** [readOptionalEnv] *)
Definition readOptionalEnv (variableName fallback : string) : string :=
  match env !! variableName with
  | None => fallback
  | Some value => if decide (value = "" ∨ trim value = "") then fallback else trim value
  end.

(** [readCsvEnv] *)
Definition readCsvEnv (variableName : string) : list string :=
  let value := readOptionalEnv variableName "" in
  if decide (value = "") then [] else csvEntries value.

(** [pipelineDefaults] *)
Definition pipelineDefaults : PipelineOptions := {|
  videoIds := readCsvEnv "DEFAULT_VIDEOS";
  languages := toUpperCase <$> readCsvEnv "DEFAULT_LANGUAGES";
|}.

(** [buildPipelineOptions] of index.ts, on the object that
    [parseCliArguments] built. *)
Definition buildPipelineOptions (cliArguments : gmap string string) : result PipelineOptions :=
  let videos := parseCsvList (cliArguments !! "videos") in
  let cliLanguages := toUpperCase <$> parseCsvList (cliArguments !! "languages") in
  let resolvedVideos :=
    if decide (0 < length videos)%nat then videos else videoIds pipelineDefaults in
  let resolvedLanguages :=
    if decide (0 < length cliLanguages)%nat then cliLanguages
    else if decide (0 < length (languages pipelineDefaults))%nat then languages pipelineDefaults
    else ["RUSSIAN"] in
  if decide (length resolvedVideos = 0%nat) then
    Throw (Error "No videos specified. Pass --videos video_1,video_2 or set DEFAULT_VIDEOS in .env")
  else Ok {| videoIds := resolvedVideos; languages := resolvedLanguages |}.

End Options.

(** ** services/text-generation.service.ts: the schema of the generated texts *)

Record schema_property : Type := { type_ : string; description : string }.

(** [object[key] = value] on an object literal, for an object [value]: an own
    property, but for the key ["__proto__"], whose setter makes [value] the
    prototype instead. *)
Definition assign_object {V} (key : string) (value : V) (object : gmap string V) : gmap string V :=
  if decide (key = "__proto__") then object else <[key := value]> object.

(** [`${language}_VideoTitle`] and [`${language}_VideoDescription`] *)
Definition titleProperty (language : string) : string := language ++ "_VideoTitle".
Definition descriptionProperty (language : string) : string := language ++ "_VideoDescription".

(** The body of the loop that fills [schemaProperties]. *)
Definition addLanguageProperties (schemaProperties : gmap string schema_property)
    (language : string) : gmap string schema_property :=
  assign_object (descriptionProperty language)
    {| type_ := "string"; description := "Description in " ++ language ++ " with hashtags" |}
    (assign_object (titleProperty language)
       {| type_ := "string"; description := "Short title in " ++ language ++ " (2-5 words)" |}
       (assign_object language
          {| type_ := "string"; description := "Voiceover text in " ++ language |}
          schemaProperties)).

Definition schemaProperties (languages : list string) : gmap string schema_property :=
  foldl addLanguageProperties ∅ languages.

(** The [required] list of the schema. *)
Definition requiredProperties (languages : list string) : list string :=
  (languages ++ (titleProperty <$> languages) ++ (descriptionProperty <$> languages))%list.

(** ** workflows/video-pipeline.ts: rendering and captioning the languages *)

Section Pipeline.
Context (R : Remote).
Context (toUpperCase : string → string).
Context (path_parse : string → string * string * string).
Context (path_resolve : string → string → string).
Context (maxRetryAttempts : Z).
(** [this.renderService.renderLanguageVideo] for the workspace, the setup and
    the storage URL at hand, and the workspace's paths. *)
Context (renderLanguageVideo : string → M string).
Context (renderedVideoPath captionedVideoPath : string → string).
(** [generatedTexts[language]] *)
Context (generatedTexts : string → option string).

(** The loop at the end of [processVideo]. *)
Fixpoint captionLanguages (fuel : nat) (languages : list string) : M () :=
  match languages with
  | [] => ret ()
  | language :: later =>
      renderLanguageVideo language;;;
      if missing (generatedTexts language) then
        throw (Error ("Missing generated text for language: " ++ language))
      else
        createCaptionedVideo R toUpperCase path_parse path_resolve maxRetryAttempts fuel
          {| sourceVideoPath := renderedVideoPath language;
             outputPath := captionedVideoPath language;
             language := language;
             originalText := default "" (generatedTexts language) |};;;
        captionLanguages fuel later
  end.

End Pipeline.

(** [processVideo] from the call of [generateVoiceovers] to the end of the
    loop over the languages: what comes before it gives [generatedTexts],
    which nothing changes afterwards, and the summary follows it. *)
Section ProcessVideo.
Context (R : Remote).
Context (toUpperCase : string → string).
Context (path_parse : string → string * string * string).
Context (path_resolve : string → string → string).
Context (maxRetryAttempts : Z).
(** [this.voiceoverService.generateVoiceover] for a text, a language and an
    output path, and [workspace.voiceoverPath]. *)
Context (generateVoiceover : string → string → string → M string).
Context (voiceoverPath : string → string).
(** [this.storageService.uploadVideoAssets] for the workspace, the languages
    and the music at hand; it returns the storage URL. *)
Context (uploadVideoAssets : list string → M string).
(** [this.renderService.renderLanguageVideo] for the workspace and the setup
    at hand, a storage URL and a language. *)
Context (renderLanguageVideo : string → string → M string).
Context (renderedVideoPath captionedVideoPath : string → string).
(** [generatedTexts[language]] *)
Context (generatedTexts : string → option string).

(** [generateVoiceovers] *)
Fixpoint generateVoiceovers (languages : list string) : M () :=
  match languages with
  | [] => ret ()
  | language :: later =>
      if missing (generatedTexts language) then
        throw (Error ("No generated text found for language: " ++ language))
      else
        generateVoiceover (default "" (generatedTexts language)) language
          (voiceoverPath language);;;
        generateVoiceovers later
  end.

Definition processVideo_outputs (fuel : nat) (languages : list string) : M () :=
  generateVoiceovers languages;;;
  storageBaseUrl <- uploadVideoAssets languages;;
  captionLanguages R toUpperCase path_parse path_resolve maxRetryAttempts
    (renderLanguageVideo storageBaseUrl) renderedVideoPath captionedVideoPath
    generatedTexts fuel languages.

End ProcessVideo.

(** ** More concrete runs *)

Definition completed_status : CaptionTaskStatus :=
  {| status := "completed"; error := None;
     downloadUrl := Some "https://cdn/captioned.mp4"; transcript := None |}.

(** The world that the cooperative run leaves. *)
Definition captioned_world : World :=
  (createCaptionedVideo
     (cooperative example_transcript example_corrections original_file resampled_file)
     upper parse_mp4 resolve_flat 3 10 example_params empty_world).2.

(** A URL that answers from the [n]-th request on. *)
Definition available_after (n : nat) (k : nat) : reply () :=
  if decide (k < n)%nat then Fails network_error else Reply ().

(** [trim] for spaces. *)
Fixpoint trim_start (value : list Ascii.ascii) : list Ascii.ascii :=
  match value with
  | c :: rest => if decide (c = " "%char) then trim_start rest else value
  | [] => []
  end.

Definition trim_spaces (value : string) : string :=
  String.string_of_list_ascii
    (reverse (trim_start (reverse (trim_start (String.list_ascii_of_string value))))).

(** A workspace with the files side by side, a render step that leaves no
    trace, and generated texts for RUSSIAN only. *)
Definition rendered_path (language : string) : string := "rendered_" ++ language ++ ".mp4".
Definition captioned_path (language : string) : string := "captioned_" ++ language ++ ".mp4".
Definition render_quietly (language : string) : M string := ret (rendered_path language).
Definition russian_text (language : string) : option string :=
  if decide (language = "RUSSIAN") then Some "hello world" else None.

(** Stages that leave one console line each and succeed. *)
Definition voiceover_path (language : string) : string := "voiceover_" ++ language ++ ".mp3".
Definition voiceover_logged (text language outputPath : string) : M string :=
  emit (ConsoleLog ("[voiceover] " ++ outputPath));;; ret outputPath.
Definition assets_logged (languages : list string) : M string :=
  emit (ConsoleLog "[storage] assets uploaded");;; ret "https://cdn/video-1".
Definition render_logged (storageBaseUrl language : string) : M string :=
  emit (ConsoleLog ("[render] " ++ language));;; ret (rendered_path language).

(** * Properties *)

Ltac unfold_M :=
  unfold bind, try_catch, call, of_reply, sleep, fileExists, emit, get_trace, get_fs, set_fs,
    ret, throw, pending in *.

(** ** The correction merge *)

Lemma compactTranscript_length chunks :
  length (compactTranscript chunks) = length chunks.
Proof. unfold compactTranscript. by rewrite length_fmap. Qed.

Lemma applyCorrections_length cs k transcript :
  length (applyCorrections cs k transcript) = length transcript.
Proof.
  revert k. induction transcript as [|c rest IH]; intros k; [done|].
  simpl. destruct (chunkText c); simpl; by rewrite IH.
Qed.

Lemma chunksWithText_cons chunk rest :
  chunksWithText (chunk :: rest) =
    match chunkText chunk with
    | Some _ => chunk :: chunksWithText rest
    | None => chunksWithText rest
    end.
Proof.
  unfold chunksWithText. destruct (chunkText chunk) eqn:E.
  - rewrite filter_cons_True; [done | rewrite E; eauto].
  - rewrite filter_cons_False; [done | rewrite E; by intros [? ?]].
Qed.

Lemma textRank_0 transcript : textRank transcript 0 = 0%nat.
Proof. done. Qed.

Lemma textRank_S chunk rest i :
  textRank (chunk :: rest) (S i) =
    match chunkText chunk with
    | Some _ => S (textRank rest i)
    | None => textRank rest i
    end.
Proof.
  unfold textRank. simpl. rewrite chunksWithText_cons. by destruct (chunkText chunk).
Qed.

(** The rank of a chunk with text is an index into the chunks with text. *)
Lemma textRank_lt transcript i chunk :
  transcript !! i = Some chunk → is_Some (chunkText chunk) →
  (textRank transcript i < length (chunksWithText transcript))%nat.
Proof.
  revert i. induction transcript as [|c rest IH]; intros [|i] Hi Ht; simplify_eq/=.
  - rewrite textRank_0, chunksWithText_cons. destruct Ht as [s ->]. simpl. lia.
  - rewrite textRank_S, chunksWithText_cons. specialize (IH _ Hi Ht).
    destruct (chunkText c); simpl; lia.
Qed.

(** What the loop leaves at position [i], whatever the corrected list is. *)
Lemma applyCorrections_lookup cs k transcript i chunk :
  transcript !! i = Some chunk →
  applyCorrections cs k transcript !! i =
    Some (match chunkText chunk with
          | Some old =>
              <["text" := JStr (default old (text <$> cs !! (k + textRank transcript i)%nat))]> chunk
          | None => chunk
          end).
Proof.
  revert k i. induction transcript as [|c rest IH]; intros k [|i] Hi; simplify_eq/=.
  - rewrite textRank_0, Nat.add_0_r. by destruct (chunkText chunk).
  - rewrite textRank_S. destruct (chunkText c) eqn:E; simpl.
    + rewrite (IH _ _ Hi).
      by replace (S k + textRank rest i)%nat with (k + S (textRank rest i))%nat by lia.
    + by rewrite (IH _ _ Hi).
Qed.

(** C1. When the review model answers with as many items as there are chunks
    with non-empty text, [correctTranscript] returns a list of the length of
    the transcript in which position [i] holds the chunk of position [i]: as it
    was when its text is absent, empty or not a string, and with its [text]
    set to the text of the next corrected item (the one whose index is the
    number of chunks with text before [i]) otherwise; every other property of
    every chunk is as it was. The only call made is the review request, with
    the texts of the chunks with text. *)
Theorem correctTranscript_merges R originalText transcript correctedChunks w :
  responses_create R (calls KReview (trace w)) = Reply (OutputItems correctedChunks) →
  length correctedChunks = length (chunksWithText transcript) →
  ∃ merged,
    correctTranscript R originalText transcript w =
      (Ok merged,
       log w [ReviewRequest originalText (compactTranscript (chunksWithText transcript))]) ∧
    length merged = length transcript ∧
    ∀ i chunk, transcript !! i = Some chunk →
      (∃ chunk', merged !! i = Some chunk' ∧
                 ∀ key, key ≠ "text" → chunk' !! key = chunk !! key) ∧
      match chunkText chunk with
      | Some _ =>
          ∃ c, correctedChunks !! textRank transcript i = Some c ∧
               merged !! i = Some (<["text" := JStr (text c)]> chunk)
      | None => merged !! i = Some chunk
      end.
Proof.
  intros Hreply Hlen.
  exists (applyCorrections correctedChunks 0 transcript).
  split; [|split].
  - unfold correctTranscript, correctTranscriptChunks. unfold_M. simpl.
    rewrite Hreply. simpl. rewrite compactTranscript_length.
    destruct (decide _) as [Hne|_]; [done | reflexivity].
  - apply applyCorrections_length.
  - intros i chunk Hi.
    rewrite (applyCorrections_lookup _ _ _ _ _ Hi). simpl.
    destruct (chunkText chunk) as [old|] eqn:Et.
    + assert (Hlt : (textRank transcript i < length correctedChunks)%nat).
      { rewrite Hlen. eapply textRank_lt; eauto. }
      apply lookup_lt_is_Some_2 in Hlt as [c Hc]. rewrite Hc. simpl.
      split; [|eauto].
      eexists. split; [done|]. intros key Hk. by rewrite lookup_insert_ne.
    + split; [|done]. eauto.
Qed.

(** The transcript [[{text:"helo"}, {}, {text:"wrold"}]] with the answer
    [[{text:"hello"}, {text:"world"}]] gives
    [[{text:"hello"}, {}, {text:"world"}]]. *)
Lemma correctTranscript_merges_witness :
  length example_corrections = length (chunksWithText example_transcript) ∧
  ∃ merged w',
    correctTranscript (review_model example_corrections) "hello world" example_transcript empty_world
      = (Ok merged, w') ∧
    merged = [ {[ "text" := JStr "hello" ]}; ∅; {[ "text" := JStr "world" ]} ].
Proof.
  split; [reflexivity|].
  destruct (correctTranscript_merges (review_model example_corrections) "hello world"
              example_transcript example_corrections empty_world eq_refl eq_refl)
    as (merged & Hrun & _ & _).
  exists merged. eexists. split; [exact Hrun|].
  vm_compute in Hrun. injection Hrun as <-. vm_compute. reflexivity.
Defined.



(** ** Traces *)

Lemma calls_app k tr es : calls k (tr ++ es) = (calls k tr + calls k es)%nat.
Proof. unfold calls. by rewrite filter_app, length_app. Qed.

Lemma remote_calls_app tr es :
  remote_calls (tr ++ es) = (remote_calls tr ++ remote_calls es)%list.
Proof. unfold remote_calls. by rewrite filter_app. Qed.

Lemma sleeps_app tr es : sleeps (tr ++ es) = (sleeps tr ++ sleeps es)%list.
Proof. unfold sleeps. by rewrite omap_app. Qed.

Section ServiceProperties.
Context (R : Remote).
Context (toUpperCase : string → string).
Context (path_parse : string → string * string * string).
Context (path_resolve : string → string → string).
Context (maxRetryAttempts : Z).

Abbreviation createCaptionedVideo :=
  (createCaptionedVideo R toUpperCase path_parse path_resolve maxRetryAttempts).
Abbreviation attempt_loop :=
  (attempt_loop R toUpperCase path_parse path_resolve maxRetryAttempts).
Abbreviation attempt_body := (attempt_body R toUpperCase path_parse path_resolve).
Abbreviation resampleAudioIfNeeded := (resampleAudioIfNeeded R path_parse path_resolve).
Abbreviation temporaryOutputPath := (temporaryOutputPath path_parse path_resolve).
Abbreviation waitForTaskStatus := (waitForTaskStatus R).

(** ** The idempotency check *)

(** C3. When a file exists at [outputPath], [createCaptionedVideo] returns
    [outputPath] after one console line: the files are as they were and the
    trace has no new remote call (no upload, task, status probe, transcript
    or review request, approval or download) and no new sleep, whatever the
    environment and the number of attempts allowed. *)
Theorem createCaptionedVideo_existing_output fuel params w :
  is_Some (fs w !! outputPath params) →
  ∃ w',
    createCaptionedVideo fuel params w = (Ok (outputPath params), w') ∧
    w' = log w [ConsoleLog ("[captions] File already exists: " ++ outputPath params)] ∧
    fs w' = fs w ∧
    remote_calls (trace w') = remote_calls (trace w) ∧
    sleeps (trace w') = sleeps (trace w).
Proof.
  intros Hex. eexists. split; [|split; [reflexivity|]].
  - unfold createCaptionedVideo. unfold_M. simpl.
    rewrite bool_decide_eq_true_2 by done. reflexivity.
  - simpl. rewrite remote_calls_app, sleeps_app. simpl.
    by rewrite !app_nil_r.
Qed.

(** ** The audio normaliser *)

(** C8. When [ffprobe] reports the target rate, [resampleAudioIfNeeded]
    returns the path it was given after that one probe: no [ffmpeg] run, no
    [unlink], no [rename], and the file system (the file's bytes, and the
    absence of a temporary file) is as it was. *)
Theorem resampleAudioIfNeeded_same_rate filePath targetRate w :
  run_ffprobe R (calls KFfprobe (trace w)) = Reply (ProbeSampleRate (Some targetRate)) →
  resampleAudioIfNeeded filePath targetRate w = (Ok filePath, log w [Ffprobe filePath]) ∧
  fs (log w [Ffprobe filePath]) = fs w.
Proof.
  intros Hprobe. split; [|reflexivity].
  unfold resampleAudioIfNeeded, getAudioSampleRate. unfold_M. simpl.
  rewrite Hprobe. simpl. rewrite decide_True by done. reflexivity.
Qed.


(** ** The status poll loop *)

(** One turn of the loop on such a status: the probe, the console line, the
    sleep of 2000 ms, and the loop again. *)
Lemma waitForTaskStatus_step fuel videoId taskId targetStatuses language w st :
  get_task R (calls KStatus (trace w)) = Reply st →
  status st ∉ targetStatuses → status st ≠ "failed" →
  waitForTaskStatus (S fuel) videoId taskId targetStatuses language w =
    waitForTaskStatus fuel videoId taskId targetStatuses language
      (log w [GetTask videoId taskId;
              ConsoleLog ("[captions] " ++ language ++ ": " ++ status st);
              Sleep 2000]).
Proof.
  intros Hget Hnt Hnf. simpl. unfold_M. simpl. rewrite Hget. simpl.
  rewrite decide_False by done. rewrite decide_False by done.
  unfold log. simpl. rewrite <- !app_assoc. simpl.
  destruct (waitForTaskStatus _ _ _ _ _ _) as [[]]; reflexivity.
Qed.

(** After [n] probes that keep the loop going, the loop is where it was
    with [n] probes less to go: it has probed [n] times and slept 2000 ms
    after each probe. *)
Lemma waitForTaskStatus_skip n videoId taskId targetStatuses language w :
  (∀ j, (j < n)%nat → keeps_polling R targetStatuses (calls KStatus (trace w) + j)) →
  ∃ w',
    (∀ fuel, waitForTaskStatus (n + fuel) videoId taskId targetStatuses language w =
             waitForTaskStatus fuel videoId taskId targetStatuses language w') ∧
    fs w' = fs w ∧
    calls KStatus (trace w') = (calls KStatus (trace w) + n)%nat ∧
    remote_calls (trace w') =
      (remote_calls (trace w) ++ replicate n (GetTask videoId taskId))%list ∧
    sleeps (trace w') = (sleeps (trace w) ++ replicate n 2000)%list.
Proof.
  revert w. induction n as [|n IH]; intros w Hkeep.
  - exists w. rewrite !app_nil_r, Nat.add_0_r. done.
  - destruct (Hkeep 0%nat ltac:(lia)) as (st & Hget & Hnt & Hnf).
    rewrite Nat.add_0_r in Hget.
    set (w1 := log w [GetTask videoId taskId;
                      ConsoleLog ("[captions] " ++ language ++ ": " ++ status st);
                      Sleep 2000]).
    assert (Hc1 : calls KStatus (trace w1) = S (calls KStatus (trace w))).
    { unfold w1. simpl. rewrite calls_app. unfold calls at 2. simpl. lia. }
    destruct (IH w1) as (w' & Hrun & Hfs & Hcalls & Hrem & Hsl).
    { intros j Hj. rewrite Hc1.
      replace (S (calls KStatus (trace w)) + j)%nat
        with (calls KStatus (trace w) + S j)%nat by lia.
      apply Hkeep. lia. }
    exists w'. split; [|split; [|split; [|split]]].
    + intros fuel. simpl. rewrite <- Hrun.
      by apply waitForTaskStatus_step.
    + by rewrite Hfs.
    + rewrite Hcalls, Hc1. lia.
    + rewrite Hrem. unfold w1. simpl. rewrite remote_calls_app. simpl.
      by rewrite <- app_assoc.
    + rewrite Hsl. unfold w1. simpl. rewrite sleeps_app. simpl.
      by rewrite <- app_assoc.
Qed.

(** A result of the loop does not depend on the probes that were left. *)
Lemma waitForTaskStatus_fuel_mono fuel videoId taskId targetStatuses language :
  ∀ w r w', waitForTaskStatus fuel videoId taskId targetStatuses language w = (r, w') →
    r ≠ Pending →
    ∀ fuel', (fuel ≤ fuel')%nat →
      waitForTaskStatus fuel' videoId taskId targetStatuses language w = (r, w').
Proof.
  induction fuel as [|fuel IH]; intros w r w' Hrun Hr fuel' Hle.
  - simpl in Hrun. unfold pending in Hrun. by simplify_eq.
  - destruct fuel' as [|fuel']; [lia|].
    simpl in Hrun |- *. unfold_M. simpl in Hrun |- *.
    destruct (get_task R _) as [st|e]; simpl in Hrun |- *; [|done].
    destruct (decide (status st ∈ targetStatuses)); [done|].
    destruct (decide (status st = "failed")); [done|].
    destruct (waitForTaskStatus fuel _ _ _ _ _) as [r1 w1] eqn:E1.
    assert (Hr1 : r1 ≠ Pending).
    { intros ->. destruct r; simplify_eq; done. }
    rewrite (IH _ r1 w1 E1 Hr1 fuel') by lia. done.
Qed.

(** When the probes before the [n]-th keep the loop going and the [n]-th
    reports a target status, the loop returns that status after [n + 1]
    probes. *)
Lemma waitForTaskStatus_target n fuel videoId taskId targetStatuses language w st :
  (∀ j, (j < n)%nat → keeps_polling R targetStatuses (calls KStatus (trace w) + j)) →
  get_task R (calls KStatus (trace w) + n) = Reply st →
  status st ∈ targetStatuses →
  (n < fuel)%nat →
  ∃ w',
    waitForTaskStatus fuel videoId taskId targetStatuses language w = (Ok st, w') ∧
    fs w' = fs w ∧
    calls KStatus (trace w') = (calls KStatus (trace w) + n + 1)%nat.
Proof.
  intros Hkeep Hget Htarget Hfuel.
  destruct (waitForTaskStatus_skip n videoId taskId targetStatuses language w Hkeep)
    as (w1 & Hrun & Hfs & Hcalls & _).
  replace fuel with (n + S (fuel - S n))%nat by lia.
  rewrite Hrun. rewrite <- Hcalls in Hget.
  exists (log w1 [GetTask videoId taskId;
                  ConsoleLog ("[captions] " ++ language ++ ": " ++ status st)]).
  split; [|split; [done|]].
  - simpl. unfold_M. simpl. rewrite Hget. simpl.
    rewrite decide_True by done. unfold log. simpl. by rewrite <- !app_assoc.
  - simpl. rewrite calls_app, Hcalls. unfold calls at 2. simpl. lia.
Qed.

(** C6. When the probes before the [n]-th keep the loop going and the
    [n]-th reports ["failed"], the loop throws
    ["Zapcap task failed: <error>"] with the provider's [error] (or
    ["unknown error"] when it gave none) right after that probe's console
    line: however many more probes the loop was allowed, it has made [n + 1]
    of them and slept only after the first [n]. The status ["failed"] is not
    one of the targets, as in both callers. *)
Theorem waitForTaskStatus_failed n fuel videoId taskId targetStatuses language w st :
  "failed" ∉ targetStatuses →
  (∀ j, (j < n)%nat → keeps_polling R targetStatuses (calls KStatus (trace w) + j)) →
  get_task R (calls KStatus (trace w) + n) = Reply st →
  status st = "failed" →
  (n < fuel)%nat →
  ∃ w',
    waitForTaskStatus fuel videoId taskId targetStatuses language w =
      (Throw (Error ("Zapcap task failed: " ++ default "unknown error" (error st))), w') ∧
    fs w' = fs w ∧
    calls KStatus (trace w') = (calls KStatus (trace w) + n + 1)%nat ∧
    remote_calls (trace w') =
      (remote_calls (trace w) ++ replicate (S n) (GetTask videoId taskId))%list ∧
    sleeps (trace w') = (sleeps (trace w) ++ replicate n 2000)%list ∧
    last (trace w') = Some (ConsoleLog ("[captions] " ++ language ++ ": failed")).
Proof.
  intros Htarget Hkeep Hget Hfailed Hfuel.
  destruct (waitForTaskStatus_skip n videoId taskId targetStatuses language w Hkeep)
    as (w1 & Hrun & Hfs & Hcalls & Hrem & Hsl).
  replace fuel with (n + S (fuel - S n))%nat by lia.
  rewrite Hrun. rewrite <- Hcalls in Hget.
  exists (log w1 [GetTask videoId taskId;
                  ConsoleLog ("[captions] " ++ language ++ ": " ++ status st)]).
  split; [|split; [|split; [|split; [|split]]]].
  - simpl. unfold_M. simpl. rewrite Hget. simpl.
    rewrite decide_False by (rewrite Hfailed; done).
    rewrite decide_True by done.
    unfold log. simpl. by rewrite <- !app_assoc.
  - done.
  - simpl. rewrite calls_app, Hcalls. unfold calls at 2. simpl. lia.
  - rewrite replicate_S_end. simpl. rewrite remote_calls_app, Hrem.
    by rewrite <- app_assoc.
  - simpl. rewrite sleeps_app, Hsl. simpl. by rewrite app_nil_r.
  - simpl. rewrite Hfailed. rewrite last_app. done.
Qed.

(** C7. When every probe keeps the loop going (no target status, no
    ["failed"], no error of the request), the loop has not returned after
    any number of probes: with [fuel] probes allowed it is still polling,
    has made all [fuel] of them, and has slept exactly 2000 ms after each
    one. There is no ceiling and no timeout. *)
Theorem waitForTaskStatus_polls_forever fuel videoId taskId targetStatuses language w :
  (∀ k, keeps_polling R targetStatuses k) →
  ∃ w',
    waitForTaskStatus fuel videoId taskId targetStatuses language w = (Pending, w') ∧
    fs w' = fs w ∧
    calls KStatus (trace w') = (calls KStatus (trace w) + fuel)%nat ∧
    remote_calls (trace w') =
      (remote_calls (trace w) ++ replicate fuel (GetTask videoId taskId))%list ∧
    sleeps (trace w') = (sleeps (trace w) ++ replicate fuel 2000)%list.
Proof.
  intros Hkeep.
  destruct (waitForTaskStatus_skip fuel videoId taskId targetStatuses language w)
    as (w' & Hrun & Hrest); [by intros; apply Hkeep|].
  exists w'. split; [|done].
  specialize (Hrun 0%nat). rewrite Nat.add_0_r in Hrun. by rewrite Hrun.
Qed.


(** ** The retry loop *)

(** An attempt whose upload fails ends there. *)
Lemma attempt_body_upload_fails fuel params w e :
  post_videos R (calls KUpload (trace w)) = Fails e →
  attempt_body fuel params w = (Throw e, log w [UploadVideo (sourceVideoPath params)]).
Proof.
  intros Hup. unfold attempt_body, uploadVideo. unfold_M. simpl.
  by rewrite Hup.
Qed.

(** The loop over the attempts that are left, when every upload fails. *)
Lemma attempt_loop_uploads_fail fuel params attempts lastError w :
  (∀ k, ∃ e, post_videos R k = Fails e) →
  ∃ w',
    attempt_loop fuel params attempts lastError w =
      (Throw (Error ("Failed to create captioned video after retries: " ++
                     String_of_lastError
                       (match attempts with
                        | [] => lastError
                        | _ => upload_error R (calls KUpload (trace w) + length attempts - 1)
                        end))), w') ∧
    fs w' = fs w ∧
    remote_calls (trace w') =
      (remote_calls (trace w) ++ replicate (length attempts) (UploadVideo (sourceVideoPath params)))%list ∧
    sleeps (trace w') =
      (sleeps (trace w) ++
       ((λ attempt, 2000 * attempt) <$> filter (λ attempt, attempt < maxRetryAttempts) attempts))%list ∧
    (∀ attempt, last attempts = Some attempt → ¬ attempt < maxRetryAttempts →
       last (trace w') =
         Some (ConsoleError (attempt_failed_line params attempt)
                 (default (Error "") (upload_error R (calls KUpload (trace w) + length attempts - 1))))).
Proof.
  intros Hfail. revert lastError w.
  induction attempts as [|attempt later IH]; intros lastError w.
  - exists w. simpl. rewrite !app_nil_r. done.
  - destruct (Hfail (calls KUpload (trace w))) as [e He].
    set (w1 := log w [UploadVideo (sourceVideoPath params);
                      ConsoleError (attempt_failed_line params attempt) e]).
    set (w2 := if decide (attempt < maxRetryAttempts)
               then log w1 [Sleep (2000 * attempt)] else w1).
    assert (Hstep : attempt_loop fuel params (attempt :: later) lastError w =
                    attempt_loop fuel params later (Some e) w2).
    { simpl. unfold try_catch.
      rewrite (attempt_body_upload_fails _ _ _ _ He).
      unfold w2, w1. unfold_M. unfold log. simpl.
      destruct (decide (attempt < maxRetryAttempts)); simpl;
        rewrite <- ?app_assoc; simpl;
        destruct (attempt_loop _ _ _ _ _) as [[]]; reflexivity. }
    assert (Hfs2 : fs w2 = fs w) by (unfold w2; by destruct (decide _)).
    assert (Hup2 : calls KUpload (trace w2) = S (calls KUpload (trace w))).
    { unfold w2. destruct (decide _); simpl; rewrite ?calls_app; unfold calls; simpl; lia. }
    assert (Hrem2 : remote_calls (trace w2) =
                    (remote_calls (trace w) ++ [UploadVideo (sourceVideoPath params)])%list).
    { unfold w2. destruct (decide _); simpl; rewrite ?remote_calls_app; simpl;
        by rewrite ?app_nil_r. }
    assert (Hsl2 : sleeps (trace w2) =
                   (sleeps (trace w) ++
                    if decide (attempt < maxRetryAttempts) then [2000 * attempt] else [])%list).
    { unfold w2. destruct (decide _); simpl; rewrite ?sleeps_app; simpl;
        by rewrite ?app_nil_r. }
    destruct (IH (Some e) w2) as (w' & Hrun & Hfs & Hrem & Hsl & Hlast).
    exists w'. rewrite Hstep, Hrun. split; [|split; [|split; [|split]]].
    + do 3 f_equal. destruct later as [|a l]; simpl.
      * unfold upload_error. replace (_ + 1 - 1)%nat with (calls KUpload (trace w)) by lia.
        by rewrite He.
      * rewrite Hup2. do 3 f_equal. lia.
    + by rewrite Hfs.
    + rewrite Hrem, Hrem2. simpl. by rewrite <- app_assoc.
    + rewrite Hsl, Hsl2. rewrite <- app_assoc. f_equal.
      rewrite filter_cons. by destruct (decide _).
    + intros a Hla Hnot. destruct later as [|a' l].
      * simpl in Hrun. unfold throw in Hrun.
        assert (w' = w2) as -> by congruence.
        simpl in Hla. injection Hla as ->.
        unfold w2. rewrite decide_False by done. unfold w1. simpl.
        unfold upload_error.
        replace (_ + 1 - 1)%nat with (calls KUpload (trace w)) by lia.
        rewrite He. simpl. rewrite last_app. done.
      * rewrite (Hlast a); [|done|done]. rewrite Hup2. do 4 f_equal.
        simpl. lia.
Qed.

(** The events of the attempts that are left, one after the other, when every
    upload fails: for each attempt the upload, the console line with the
    error of that upload and, when another attempt is allowed, the sleep. *)
Lemma attempt_loop_uploads_fail_trace fuel params fallback (n : nat) : ∀ first lastError w,
  (∀ k, ∃ e, post_videos R k = Fails e) →
  trace (attempt_loop fuel params (seqZ first (Z.of_nat n)) lastError w).2 =
    (trace w ++
     concat ((λ attempt,
                [UploadVideo (sourceVideoPath params);
                 ConsoleError (attempt_failed_line params attempt)
                   (default fallback
                      (upload_error R (calls KUpload (trace w) + Z.to_nat (attempt - first))))]
                ++ (if decide (attempt < maxRetryAttempts)
                    then [Sleep (2000 * attempt)] else []))
             <$> seqZ first (Z.of_nat n)))%list.
Proof.
  induction n as [|n IH]; intros first lastError w Hfail.
  { simpl. by rewrite app_nil_r. }
  replace (Z.of_nat (S n)) with (1 + Z.of_nat n) by lia.
  rewrite seqZ_cons by lia.
  replace (Z.pred (1 + Z.of_nat n)) with (Z.of_nat n) by lia.
  destruct (Hfail (calls KUpload (trace w))) as [e He].
  set (w1 := log w [UploadVideo (sourceVideoPath params);
                    ConsoleError (attempt_failed_line params first) e]).
  set (w2 := if decide (first < maxRetryAttempts)
             then log w1 [Sleep (2000 * first)] else w1).
  assert (Hstep : ∀ later, attempt_loop fuel params (first :: later) lastError w =
                  attempt_loop fuel params later (Some e) w2).
  { intros later. simpl. unfold try_catch.
    rewrite (attempt_body_upload_fails _ _ _ _ He).
    unfold w2, w1. unfold_M. unfold log. simpl.
    destruct (decide (first < maxRetryAttempts)); simpl;
      rewrite <- ?app_assoc; simpl;
      destruct (attempt_loop _ _ _ _ _) as [[]]; reflexivity. }
  assert (Hup2 : calls KUpload (trace w2) = S (calls KUpload (trace w))).
  { unfold w2. destruct (decide _); simpl; rewrite ?calls_app; unfold calls; simpl; lia. }
  assert (Htr2 : trace w2 =
    (trace w ++ [UploadVideo (sourceVideoPath params);
                 ConsoleError (attempt_failed_line params first) e]
             ++ (if decide (first < maxRetryAttempts) then [Sleep (2000 * first)] else []))%list).
  { unfold w2. destruct (decide _); simpl; by rewrite <- ?app_assoc, ?app_nil_r. }
  rewrite Hstep, (IH (Z.succ first) (Some e) w2 Hfail). rewrite Hup2, Htr2.
  rewrite fmap_cons. cbn [concat]. rewrite <- !app_assoc.
  replace (first - first) with 0 by lia. rewrite Nat.add_0_r.
  unfold upload_error at 2. rewrite He. cbn [default].
  do 4 f_equal.
  apply list_fmap_ext. intros i attempt Hi.
  apply lookup_seqZ in Hi as [Ha Hi].
  assert (E : (S (calls KUpload (trace w)) + Z.to_nat (attempt - Z.succ first))%nat =
              (calls KUpload (trace w) + Z.to_nat (attempt - first))%nat) by lia.
  by rewrite E.
Qed.


Lemma seqZ_snoc (n : Z) : (1 ≤ n)%Z → seqZ 1 n = (seqZ 1 (n - 1) ++ [n])%list.
Proof.
  intros Hn. replace (seqZ 1 n) with (seqZ 1 ((n - 1) + 1)) by (f_equal; lia).
  rewrite seqZ_app by lia. f_equal.
  unfold seqZ. simpl. f_equal. lia.
Qed.

Lemma filter_Forall {A} (P : A → Prop) `{!∀ x, Decision (P x)} (l : list A) :
  Forall P l → filter P l = l.
Proof.
  induction 1 as [|x l Hx _ IH]; [done|].
  by rewrite filter_cons_True, IH.
Qed.

Lemma filter_lt_seqZ (n : Z) : (1 ≤ n)%Z → filter (λ a, a < n) (seqZ 1 n) = seqZ 1 (n - 1).
Proof.
  intros Hn. rewrite seqZ_snoc by done. rewrite filter_app.
  rewrite filter_cons_False by lia. rewrite filter_nil, app_nil_r.
  apply filter_Forall. apply Forall_forall. intros a Ha.
  apply elem_of_seqZ in Ha. lia.
Qed.

Lemma last_seqZ (n : Z) : (1 ≤ n)%Z → last (seqZ 1 n) = Some n.
Proof. intros Hn. rewrite seqZ_snoc by done. apply last_snoc. Qed.

(** C4. With a provider whose every request fails, no file at [outputPath]
    and at least one attempt allowed, [createCaptionedVideo] makes exactly
    [maxRetryAttempts] attempts, each of them the upload that fails; it sleeps
    2000 ms times the attempt number after every attempt but the last (2000,
    4000, ... , 2000 * (maxRetryAttempts - 1)), the last event being the
    console line of the last attempt; and it throws one error whose message
    is ["Failed to create captioned video after retries: "] followed by the
    error of the last upload. The events it adds are, attempt after attempt
    and nothing else: the upload, the console line with the error of that
    upload and, for every attempt but the last, the sleep of 2000 ms times
    its number; so each sleep lies between two consecutive attempts and
    nothing follows the console line of the last one. *)
Theorem createCaptionedVideo_exhausts_attempts fuel params w :
  always_fails R →
  fs w !! outputPath params = None →
  (1 ≤ maxRetryAttempts)%Z →
  ∃ cause w',
    upload_error R (calls KUpload (trace w) + Z.to_nat maxRetryAttempts - 1) = Some cause ∧
    createCaptionedVideo fuel params w =
      (Throw (Error ("Failed to create captioned video after retries: " ++
                     String_of_error cause)), w') ∧
    fs w' = fs w ∧
    remote_calls (trace w') =
      (remote_calls (trace w) ++
       replicate (Z.to_nat maxRetryAttempts) (UploadVideo (sourceVideoPath params)))%list ∧
    sleeps (trace w') =
      (sleeps (trace w) ++ ((λ attempt, 2000 * attempt) <$> seqZ 1 (maxRetryAttempts - 1)))%list ∧
    last (trace w') = Some (ConsoleError (attempt_failed_line params maxRetryAttempts) cause) ∧
    trace w' =
      (trace w ++
       concat ((λ attempt,
                  [UploadVideo (sourceVideoPath params);
                   ConsoleError (attempt_failed_line params attempt)
                     (default cause
                        (upload_error R (calls KUpload (trace w) + Z.to_nat (attempt - 1))))]
                  ++ (if decide (attempt < maxRetryAttempts)
                      then [Sleep (2000 * attempt)] else []))
               <$> seqZ 1 maxRetryAttempts))%list.
Proof.
  intros (Hup & _) Hnone Hmax.
  pose proof (attempt_loop_uploads_fail_trace fuel params) as Htrace.
  destruct (attempt_loop_uploads_fail fuel params (seqZ 1 maxRetryAttempts) None w Hup)
    as (w' & Hrun & Hfs & Hrem & Hsl & Hlast).
  rewrite length_seqZ in *.
  destruct (Hup (calls KUpload (trace w) + Z.to_nat maxRetryAttempts - 1)%nat) as [cause Hcause].
  assert (Hue : upload_error R (calls KUpload (trace w) + Z.to_nat maxRetryAttempts - 1)
                = Some cause) by (unfold upload_error; by rewrite Hcause).
  exists cause, w'. split; [done|]. split; [|split; [done|split; [done|split; [|split]]]].
  - unfold createCaptionedVideo. unfold_M. simpl.
    rewrite bool_decide_eq_false_2 by (rewrite Hnone; by intros [? ?]).
    rewrite Hrun. rewrite Hue.
    destruct (seqZ 1 maxRetryAttempts) eqn:Hseq; [|done].
    apply (f_equal length) in Hseq. rewrite length_seqZ in Hseq. simpl in Hseq. lia.
  - by rewrite Hsl, filter_lt_seqZ.
  - rewrite (Hlast maxRetryAttempts); [|by apply last_seqZ|lia]. by rewrite Hue.
  - specialize (Htrace cause (Z.to_nat maxRetryAttempts) 1 None w Hup).
    rewrite Z2Nat.id in Htrace by lia. rewrite Hrun in Htrace. exact Htrace.
Qed.

(** ** Languages without a provider code *)

Lemma languageCodeOf_None key :
  languageCodeOf key = None ↔
  languageToZapcapCode !! key = None ∧ key ∉ Object_prototype_members.
Proof.
  unfold languageCodeOf. destruct (languageToZapcapCode !! key) eqn:E.
  - split; [done | by intros [? _]].
  - destruct (decide _) as [Hin|Hnin].
    + split; [done | by intros [_ ?]].
    + done.
Qed.

(** An attempt for a language without a code ends at the upload or right
    after it: no task is created. *)
Lemma attempt_body_unsupported_language fuel params w :
  languageCodeOf (toUpperCase (language params)) = None →
  ∃ e, attempt_body fuel params w = (Throw e, log w [UploadVideo (sourceVideoPath params)]).
Proof.
  intros Hcode. unfold attempt_body, uploadVideo, createCaptionTask.
  unfold_M. simpl. rewrite Hcode. simpl.
  destruct (post_videos R _) as [id|e]; simpl; [|eauto].
  destruct (missing id); simpl; eauto.
Qed.

(** When every attempt ends in an error at its upload, so does the loop. *)
Lemma attempt_loop_never_succeeds fuel params attempts lastError w :
  (∀ w0, ∃ e, attempt_body fuel params w0 =
              (Throw e, log w0 [UploadVideo (sourceVideoPath params)])) →
  ∃ cause w',
    attempt_loop fuel params attempts lastError w =
      (Throw (Error ("Failed to create captioned video after retries: " ++
                     String_of_lastError cause)), w') ∧
    fs w' = fs w ∧
    calls KTask (trace w') = calls KTask (trace w).
Proof.
  intros Hbody. revert lastError w.
  induction attempts as [|attempt later IH]; intros lastError w.
  - exists lastError, w. done.
  - destruct (Hbody w) as [e He].
    set (w1 := log w [UploadVideo (sourceVideoPath params)]).
    set (w2 := log w1 (ConsoleError (attempt_failed_line params attempt) e ::
                       if decide (attempt < maxRetryAttempts) then [Sleep (2000 * attempt)] else [])).
    destruct (IH (Some e) w2) as (cause & w' & Hrun & Hfs & Hcalls).
    exists cause, w'. split; [|split].
    + simpl. unfold try_catch. rewrite He. fold w1.
      rewrite <- Hrun. unfold w2, log. unfold_M. simpl.
      destruct (decide (attempt < maxRetryAttempts)); simpl;
        rewrite <- ?app_assoc; simpl;
        destruct (attempt_loop _ _ _ _ _) as [[]]; reflexivity.
    + by rewrite Hfs.
    + rewrite Hcalls. unfold w2, w1. simpl. rewrite !calls_app.
      unfold calls at 2 3. simpl. destruct (decide _); simpl; lia.
Qed.

(** C9. For a language whose upper-cased name has no entry in
    [languageToZapcapCode], [createCaptionTask] throws
    ["Unsupported caption language: <language>"] before any request: the
    world is as it was. The error ends every attempt, so that, without a file
    at [outputPath], [createCaptionedVideo] ends in its aggregated error for
    that language in every environment, and no task is ever created. *)
Theorem createCaptionTask_unsupported_language fuel videoId params w :
  languageCodeOf (toUpperCase (language params)) = None →
  createCaptionTask R toUpperCase videoId (language params) w =
    (Throw (Error ("Unsupported caption language: " ++ language params)), w) ∧
  (fs w !! outputPath params = None →
   ∃ cause w',
     createCaptionedVideo fuel params w =
       (Throw (Error ("Failed to create captioned video after retries: " ++
                      String_of_lastError cause)), w') ∧
     calls KTask (trace w') = calls KTask (trace w)).
Proof.
  intros Hcode. split.
  - unfold createCaptionTask. by rewrite Hcode.
  - intros Hnone.
    destruct (attempt_loop_never_succeeds fuel params (seqZ 1 maxRetryAttempts) None w)
      as (cause & w' & Hrun & _ & Hcalls).
    { intros w0. by apply attempt_body_unsupported_language. }
    exists cause, w'. split; [|done].
    unfold createCaptionedVideo. unfold_M. simpl.
    rewrite bool_decide_eq_false_2 by (rewrite Hnone; by intros [? ?]).
    by rewrite Hrun.
Qed.

(** ** Replacing the file by its resampled version *)

Lemma calls_log_other k w e :
  kind_of e ≠ k → calls k (trace (log w [e])) = calls k (trace w).
Proof.
  intros Hk. simpl. rewrite calls_app. unfold calls at 2.
  rewrite filter_cons_False by done. simpl. lia.
Qed.

Lemma getAudioSampleRate_ok filePath sampleRate w :
  run_ffprobe R (calls KFfprobe (trace w)) = Reply (ProbeSampleRate (Some sampleRate)) →
  getAudioSampleRate R filePath w = (Ok sampleRate, log w [Ffprobe filePath]).
Proof. intros Hprobe. unfold getAudioSampleRate. unfold_M. simpl. by rewrite Hprobe. Qed.

Lemma ffmpeg_run input rate output w :
  ffmpeg R input rate output w =
    match run_ffmpeg R (calls KFfmpeg (trace w)) with
    | FfmpegOk out =>
        (Ok (), {| fs := <[output := out]> (fs w); trace := trace w ++ [Ffmpeg input rate output] |})
    | FfmpegFails e (Some part) =>
        (Throw e, {| fs := <[output := part]> (fs w); trace := trace w ++ [Ffmpeg input rate output] |})
    | FfmpegFails e None => (Throw e, log w [Ffmpeg input rate output])
    end.
Proof.
  unfold ffmpeg. unfold_M. simpl.
  destruct (run_ffmpeg R _) as [out|e [part|]]; reflexivity.
Qed.

Lemma unlink_run filePath w :
  unlink R filePath w =
    match fs_unlink R (calls KUnlink (trace w)), fs w !! filePath with
    | Fails e, _ => (Throw e, log w [Unlink filePath])
    | Reply _, Some _ =>
        (Ok (), {| fs := delete filePath (fs w); trace := trace w ++ [Unlink filePath] |})
    | Reply _, None =>
        (Throw (Error ("ENOENT: no such file or directory, unlink '" ++ filePath ++ "'")),
         log w [Unlink filePath])
    end.
Proof.
  unfold unlink. unfold_M. simpl.
  destruct (fs_unlink R _) as [[]|e]; simpl; [|reflexivity].
  destruct (fs w !! filePath); reflexivity.
Qed.

Lemma rename_run oldPath newPath w :
  rename R oldPath newPath w =
    match fs_rename R (calls KRename (trace w)), fs w !! oldPath with
    | Fails e, _ => (Throw e, log w [Rename oldPath newPath])
    | Reply _, Some content =>
        (Ok (), {| fs := <[newPath := content]> (delete oldPath (fs w));
                   trace := trace w ++ [Rename oldPath newPath] |})
    | Reply _, None =>
        (Throw (Error ("ENOENT: no such file or directory, rename '" ++ oldPath ++ "'")),
         log w [Rename oldPath newPath])
    end.
Proof.
  unfold rename. unfold_M. simpl.
  destruct (fs_rename R _) as [[]|e]; simpl; [|reflexivity].
  destruct (fs w !! oldPath); reflexivity.
Qed.

(** C5, as the code has it. When [ffprobe] reports a rate other than the
    target, [resampleAudioIfNeeded] has [ffmpeg] write to the temporary
    sibling path and touches no other path than the two. While [ffmpeg] fails
    (whatever part of its output it leaves at the temporary path) or [unlink]
    fails, the file at [filePath] is the original one. The original is removed
    only once [ffmpeg] has ended with exit code 0. When [rename] then fails,
    no file is left at [filePath], and the re-encoded file is at the temporary
    path. When all three succeed, [filePath] holds the re-encoded file and the
    temporary path is free again. At no point does [filePath] hold a part of
    [ffmpeg]'s output. *)
Theorem resampleAudioIfNeeded_replaces_file filePath targetRate sampleRate original w :
  run_ffprobe R (calls KFfprobe (trace w)) = Reply (ProbeSampleRate (Some sampleRate)) →
  sampleRate ≠ targetRate →
  fs w !! filePath = Some original →
  temporaryOutputPath filePath targetRate ≠ filePath →
  let temp := temporaryOutputPath filePath targetRate in
  let run := resampleAudioIfNeeded filePath targetRate w in
  (∀ p, p ≠ filePath → p ≠ temp → fs run.2 !! p = fs w !! p) ∧
  match run_ffmpeg R (calls KFfmpeg (trace w)) with
  | FfmpegFails e part =>
      run.1 = Throw e ∧
      fs run.2 !! filePath = Some original ∧
      fs run.2 !! temp = from_option Some (fs w !! temp) part ∧
      calls KUnlink (trace run.2) = calls KUnlink (trace w)
  | FfmpegOk encoded =>
      match fs_unlink R (calls KUnlink (trace w)) with
      | Fails e =>
          run.1 = Throw e ∧
          fs run.2 !! filePath = Some original ∧
          fs run.2 !! temp = Some encoded
      | Reply _ =>
          match fs_rename R (calls KRename (trace w)) with
          | Fails e =>
              run.1 = Throw e ∧
              fs run.2 !! filePath = None ∧
              fs run.2 !! temp = Some encoded
          | Reply _ =>
              run.1 = Ok filePath ∧
              fs run.2 !! filePath = Some encoded ∧
              fs run.2 !! temp = None
          end
      end
  end.
Proof.
  intros Hprobe Hrate Hfile Htemp temp run.
  assert (Hrun : run = resampleAudioIfNeeded filePath targetRate w) by done.
  clearbody run. unfold resampleAudioIfNeeded in Hrun. fold temp in Hrun.
  unfold bind at 1 in Hrun. rewrite (getAudioSampleRate_ok _ _ _ Hprobe) in Hrun.
  rewrite decide_False in Hrun by done.
  unfold bind at 1 in Hrun. rewrite ffmpeg_run in Hrun.
  rewrite calls_log_other in Hrun by done.
  destruct (run_ffmpeg R _) as [encoded|e [part|]]; simpl in Hrun.
  2:{ subst run. simpl. split; [intros p Hp Hpt; by rewrite lookup_insert_ne|].
      split; [done|]. rewrite lookup_insert_ne by done. rewrite lookup_insert_eq.
      split; [done|]. split; [done|].
      rewrite <- app_assoc, calls_app. unfold calls at 2. simpl. lia. }
  2:{ subst run. simpl. split; [done|]. split; [done|]. split; [done|]. split; [done|].
      rewrite <- app_assoc, calls_app. unfold calls at 2. simpl. lia. }
  unfold bind at 1 in Hrun. rewrite unlink_run in Hrun. simpl in Hrun.
  rewrite <- app_assoc, calls_app in Hrun. unfold calls at 2 in Hrun. simpl in Hrun.
  rewrite Nat.add_0_r in Hrun.
  rewrite lookup_insert_ne, Hfile in Hrun by done.
  destruct (fs_unlink R _) as [[]|e]; simpl in Hrun.
  2:{ subst run. simpl. split; [intros p Hp Hpt; by rewrite lookup_insert_ne|].
      split; [done|]. rewrite lookup_insert_ne by done. by rewrite lookup_insert_eq. }
  unfold bind at 1 in Hrun. rewrite rename_run in Hrun. simpl in Hrun.
  rewrite <- !app_assoc, calls_app in Hrun. unfold calls at 2 in Hrun. simpl in Hrun.
  rewrite Nat.add_0_r in Hrun.
  rewrite lookup_delete_ne, lookup_insert_eq in Hrun by done.
  destruct (fs_rename R _) as [[]|e]; simpl in Hrun; subst run; simpl.
  - split; [|split; [done|split]].
    + intros p Hp Hpt. rewrite lookup_insert_ne by done.
      rewrite !lookup_delete_ne by done. by rewrite lookup_insert_ne.
    + by rewrite lookup_insert_eq.
    + rewrite lookup_insert_ne by done. by rewrite lookup_delete_eq.
  - split; [|split; [done|split]].
    + intros p Hp Hpt. rewrite lookup_delete_ne by done. by rewrite lookup_insert_ne.
    + by rewrite lookup_delete_eq.
    + rewrite lookup_delete_ne by done. by rewrite lookup_insert_eq.
Qed.

End ServiceProperties.

(** ** [correctTranscript] over the store: what it allocates and writes *)
Module HeapProperties.
Import Heap.

Lemma mapM_chunkAt h ls chunks : mapM (chunkAt h) ls = Some chunks ↔ reads h ls chunks.
Proof. apply mapM_Some. Qed.

Lemma chunkAt_weaken (h h' : heap) l chunk :
  h ⊆ h' → chunkAt h l = Some chunk → chunkAt h' l = Some chunk.
Proof.
  unfold chunkAt. intros Hsub Hl.
  destruct (h !! l) as [c|] eqn:E; [|done].
  by rewrite (lookup_weaken _ _ _ _ E Hsub).
Qed.

Lemma reads_weaken (h h' : heap) ls chunks : h ⊆ h' → reads h ls chunks → reads h' ls chunks.
Proof.
  intros Hsub Hr. eapply Forall2_impl; [exact Hr|].
  intros l c. by apply chunkAt_weaken.
Qed.

Lemma reads_agree (h h' : heap) ls chunks :
  (∀ l, l ∈ ls → h' !! l = h !! l) → reads h ls chunks → reads h' ls chunks.
Proof.
  intros Hsame Hr. induction Hr as [|l c ls cs Hl Hr IH]; constructor.
  - unfold chunkAt in *. rewrite Hsame; [done | by left].
  - apply IH. intros l' Hl'. apply Hsame. by right.
Qed.

Lemma fresh_loc_None (h : heap) : h !! fresh (dom h) = None.
Proof. apply not_elem_of_dom. apply is_fresh. Qed.

Lemma copyChunks_fresh elems : ∀ (h : heap) copies h1,
  copyChunks h elems = Some (copies, h1) →
  h ⊆ h1 ∧ (∀ l, l ∈ copies → h !! l = None ∧ is_Some (h1 !! l)) ∧ NoDup copies.
Proof.
  induction elems as [|l rest IH]; intros h copies h1 Hcopy; simpl in Hcopy.
  - simplify_eq. split; [done|]. split; [|constructor]. intros l Hl. inversion Hl.
  - destruct (chunkAt h l) as [props|] eqn:El; [|done].
    unfold alloc in Hcopy. simpl in Hcopy.
    pose proof (fresh_loc_None h) as Hfresh.
    set (l' := fresh (dom h)) in *.
    destruct (copyChunks (<[l' := Object props]> h) rest) as [[copies' h'']|] eqn:Er;
      simpl in Hcopy; [|done].
    simplify_eq.
    destruct (IH _ _ _ Er) as (Hsub & Hnew & Hnd).
    assert (Hsub0 : h ⊆ <[l' := Object props]> h) by by apply insert_subseteq.
    split; [by etrans|]. split.
    + intros x Hx. apply elem_of_cons in Hx as [->|Hx].
      * split; [done|]. exists (Object props). eapply lookup_weaken; [|done]. apply lookup_insert_eq.
      * destruct (Hnew x Hx) as [Hn Hs]. split; [|done].
        destruct (h !! x) eqn:E; [|done].
        by rewrite (lookup_weaken _ _ _ _ E Hsub0) in Hn.
    + constructor; [|done]. intros Hin. destruct (Hnew l' Hin) as [Hn _].
      by rewrite lookup_insert_eq in Hn.
Qed.

Lemma copyChunks_reads elems : ∀ (h : heap) chunks,
  reads h elems chunks →
  ∃ copies h1, copyChunks h elems = Some (copies, h1) ∧ reads h1 copies chunks.
Proof.
  induction elems as [|l rest IH]; intros h chunks Hr.
  - inversion Hr; subst. exists [], h. split; [done | constructor].
  - inversion Hr as [|? props ? chunks' Hl Hrest]; subst. simpl. rewrite Hl. simpl.
    unfold alloc. simpl.
    pose proof (fresh_loc_None h) as Hfresh.
    set (l' := fresh (dom h)) in *.
    assert (Hsub0 : h ⊆ <[l' := Object props]> h) by by apply insert_subseteq.
    destruct (IH (<[l' := Object props]> h) chunks') as (copies & h1 & Hcopy & Hr1).
    { by eapply reads_weaken. }
    rewrite Hcopy. simpl. exists (l' :: copies), h1. split; [done|].
    constructor; [|done].
    destruct (copyChunks_fresh _ _ _ _ Hcopy) as (Hsub & _).
    eapply chunkAt_weaken; [done|]. unfold chunkAt. by rewrite lookup_insert_eq.
Qed.

Lemma writeCorrections_frame cs copies : ∀ k (h1 h2 : heap),
  writeCorrections cs k h1 copies = Some h2 →
  ∀ l, l ∉ copies → h2 !! l = h1 !! l.
Proof.
  induction copies as [|c rest IH]; intros k h1 h2 Hw l Hl; simpl in Hw.
  - by simplify_eq.
  - apply not_elem_of_cons in Hl as [Hne Hl].
    destruct (chunkAt h1 c) as [props|]; [|done]. simpl in Hw.
    destruct (chunkText props).
    + rewrite (IH _ _ _ Hw l Hl). by rewrite lookup_insert_ne.
    + by rewrite (IH _ _ _ Hw l Hl).
Qed.

Lemma writeCorrections_reads cs copies : ∀ k (h1 : heap) chunks,
  NoDup copies → reads h1 copies chunks →
  ∃ h2, writeCorrections cs k h1 copies = Some h2 ∧
        reads h2 copies (applyCorrections cs k chunks).
Proof.
  induction copies as [|c rest IH]; intros k h1 chunks Hnd Hr.
  - inversion Hr; subst. exists h1. split; [done | constructor].
  - inversion Hr as [|? props ? chunks' Hc Hrest]; subst.
    apply NoDup_cons in Hnd as [Hnotin Hnd].
    simpl. rewrite Hc. simpl. destruct (chunkText props) as [old|] eqn:Et.
    + set (props' := <["text" := JStr (default old (text <$> cs !! k))]> props).
      destruct (IH (S k) (<[c := Object props']> h1) chunks' Hnd) as (h2 & Hw & Hr2).
      { eapply reads_agree; [|done]. intros l Hl. rewrite lookup_insert_ne; [done|].
        intros ->. done. }
      exists h2. split; [done|]. constructor; [|done].
      unfold chunkAt. rewrite (writeCorrections_frame _ _ _ _ _ Hw c Hnotin).
      by rewrite lookup_insert_eq.
    + destruct (IH k h1 chunks' Hnd Hrest) as (h2 & Hw & Hr2).
      exists h2. split; [done|]. constructor; [|done].
      unfold chunkAt. by rewrite (writeCorrections_frame _ _ _ _ _ Hw c Hnotin).
Qed.

(** What a successful run of the copy, the loop and the final array give. *)
Lemma correctTranscript_success cs (h : heap) elems chunks :
  reads h elems chunks →
  ∃ copies h1 h2,
    copyChunks h elems = Some (copies, h1) ∧
    writeCorrections cs 0 h1 copies = Some h2 ∧
    reads (<[fresh (dom h2) := Array copies]> h2) copies (applyCorrections cs 0 chunks).
Proof.
  intros Hr.
  destruct (copyChunks_reads _ _ _ Hr) as (copies & h1 & Hcopy & Hr1).
  destruct (copyChunks_fresh _ _ _ _ Hcopy) as (_ & _ & Hnd).
  destruct (writeCorrections_reads cs _ 0%nat _ _ Hnd Hr1) as (h2 & Hw & Hr2).
  exists copies, h1, h2. split; [done|]. split; [done|].
  eapply reads_weaken; [|done]. apply insert_subseteq, fresh_loc_None.
Qed.

Lemma correctTranscript_frame cs (h : heap) elems copies h1 h2 :
  copyChunks h elems = Some (copies, h1) →
  writeCorrections cs 0 h1 copies = Some h2 →
  ∀ l, is_Some (h !! l) → (<[fresh (dom h2) := Array copies]> h2) !! l = h !! l.
Proof.
  intros Hcopy Hw l [c Hl].
  destruct (copyChunks_fresh _ _ _ _ Hcopy) as (Hsub & Hnew & _).
  assert (Hnotin : l ∉ copies).
  { intros Hin. destruct (Hnew l Hin) as [Hn _]. congruence. }
  assert (Hl2 : h2 !! l = Some c).
  { rewrite (writeCorrections_frame _ _ _ _ _ Hw l Hnotin). by eapply lookup_weaken. }
  rewrite lookup_insert_ne; [congruence|].
  intros Heq. pose proof (fresh_loc_None h2) as Hf. rewrite Heq in Hf. congruence.
Qed.


(** The cases of [Heap.correctTranscript]: it leaves the heap as it was, or
    it has copied, written and allocated the array. *)
Lemma correctTranscript_cases review originalText transcript (h : heap) :
  (∃ out, correctTranscript review originalText transcript h = (out, h) ∧
          ∀ l, out ≠ Returned l) ∨
  (∃ elems chunks cs copies h1 h2,
     elemsAt h transcript = Some elems ∧
     reads h elems chunks ∧
     review originalText (compactTranscript (chunksWithText chunks)) = Reply cs ∧
     length cs = length (chunksWithText chunks) ∧
     copyChunks h elems = Some (copies, h1) ∧
     writeCorrections cs 0 h1 copies = Some h2 ∧
     correctTranscript review originalText transcript h =
       (Returned (fresh (dom h2)), <[fresh (dom h2) := Array copies]> h2)).
Proof.
  unfold correctTranscript, readTranscript.
  destruct (elemsAt h transcript) as [elems|] eqn:Ee; simpl; [|left; eauto].
  destruct (mapM (chunkAt h) elems) as [chunks|] eqn:Em; simpl; [|left; eauto].
  apply mapM_chunkAt in Em.
  destruct (review originalText _) as [cs|e] eqn:Hrev; simpl; [|left; eauto].
  destruct (decide (length cs ≠ _)) as [Hne|Heq]; simpl; [left; eauto|].
  apply dec_stable in Heq. rewrite compactTranscript_length in Heq.
  destruct (correctTranscript_success cs h elems chunks Em) as (copies & h1 & h2 & Hcopy & Hw & Hr).
  rewrite Hcopy, Hw. unfold alloc. simpl.
  right. by exists elems, chunks, cs, copies, h1, h2.
Qed.

(** C10. [Heap.correctTranscript] leaves every object and array that the
    heap held before the call as it was, whatever the call's outcome. When it
    returns, the returned array is a new one and its elements are new,
    pairwise distinct objects: none of them is the caller's array or one of
    the caller's chunks. For a well-typed transcript and an answer of the
    right length it does return; the new array then reads as the merged
    transcript, and the caller's array still reads as the chunks it held. *)
Theorem correctTranscript_leaves_input review originalText transcript (h : heap) :
  (∀ l, is_Some (h !! l) →
     (correctTranscript review originalText transcript h).2 !! l = h !! l) ∧
  (∀ transcriptCopy,
     (correctTranscript review originalText transcript h).1 = Returned transcriptCopy →
     h !! transcriptCopy = None ∧
     ∃ copies,
       elemsAt (correctTranscript review originalText transcript h).2 transcriptCopy = Some copies ∧
       NoDup copies ∧ ∀ l, l ∈ copies → h !! l = None) ∧
  (∀ chunks correctedChunks,
     readTranscript h transcript = Some chunks →
     review originalText (compactTranscript (chunksWithText chunks)) = Reply correctedChunks →
     length correctedChunks = length (chunksWithText chunks) →
     ∃ transcriptCopy,
       (correctTranscript review originalText transcript h).1 = Returned transcriptCopy ∧
       readTranscript (correctTranscript review originalText transcript h).2 transcriptCopy =
         Some (applyCorrections correctedChunks 0 chunks) ∧
       readTranscript (correctTranscript review originalText transcript h).2 transcript =
         Some chunks).
Proof.
  destruct (correctTranscript_cases review originalText transcript h)
    as [(out & Hrun & Hout) | (elems & chunks & cs & copies & h1 & h2 &
                               Hel & Hr & Hrev & Hlen & Hcopy & Hw & Hrun)].
  - (* thrown or ill-typed: nothing was allocated or written *)
    rewrite Hrun. simpl. split; [done|]. split; [intros l ->; by destruct (Hout l)|].
    intros chunks cs Hread Hrev Hlen. exfalso.
    unfold correctTranscript in Hrun. rewrite Hread in Hrun.
    unfold readTranscript in Hread.
    destruct (elemsAt h transcript) as [elems|] eqn:Ee; [|done]. simpl in Hread.
    rewrite Hrev in Hrun.
    rewrite decide_False in Hrun by (rewrite compactTranscript_length; intros Hne; done).
    destruct (correctTranscript_success cs h elems chunks) as (copies & h1 & h2 & Hcopy & Hw & _).
    { by apply mapM_chunkAt. }
    rewrite Hcopy, Hw in Hrun. unfold alloc in Hrun. simpl in Hrun.
    injection Hrun as <- _. by destruct (Hout (fresh (dom h2))).
  - rewrite Hrun. simpl.
    pose proof (correctTranscript_frame cs h elems copies h1 h2 Hcopy Hw) as Hframe.
    pose proof (fresh_loc_None h2) as Hfresh2.
    pose proof (correctTranscript_success cs h elems chunks Hr)
      as (copies' & h1' & h2' & Hcopy' & Hw' & Hmerged).
    rewrite Hcopy in Hcopy'. injection Hcopy' as <- <-.
    rewrite Hw in Hw'. injection Hw' as <-.
    destruct (copyChunks_fresh _ _ _ _ Hcopy) as (Hsub & Hnew & Hnd).
    set (a := fresh (dom h2)) in *.
    split; [done|]. split.
    + intros ? [= <-]. split.
      * destruct (h !! a) as [c|] eqn:Ea; [|done].
        specialize (Hframe a (mk_is_Some _ _ Ea)).
        rewrite lookup_insert_eq, Ea in Hframe.
        assert (a ∉ copies) as Hn by (intros Hin; destruct (Hnew a Hin); congruence).
        rewrite (writeCorrections_frame _ _ _ _ _ Hw a Hn) in Hfresh2.
        by rewrite (lookup_weaken _ _ _ _ Ea Hsub) in Hfresh2.
      * exists copies. unfold elemsAt. rewrite lookup_insert_eq.
        split; [done|]. split; [done|]. intros l Hl. by destruct (Hnew l Hl).
    + intros chunks0 cs0 Hread Hrev0 _.
      assert (chunks0 = chunks) as ->.
      { unfold readTranscript in Hread. rewrite Hel in Hread. simpl in Hread.
        apply mapM_chunkAt in Hr. congruence. }
      assert (cs0 = cs) as -> by congruence.
      exists a. split; [done|]. split.
      * unfold readTranscript, elemsAt. rewrite lookup_insert_eq. simpl.
        by apply mapM_chunkAt.
      * unfold readTranscript.
        assert (Hel' : elemsAt (<[a := Array copies]> h2) transcript = Some elems).
        { unfold elemsAt in *. rewrite Hframe; [done|].
          destruct (h !! transcript); [eauto | done]. }
        rewrite Hel'. simpl. apply mapM_chunkAt.
        eapply reads_agree; [|done]. intros l Hl. apply Hframe.
        apply list_elem_of_lookup in Hl as [i Hi].
        destruct (Forall2_lookup_l _ _ _ _ _ Hr Hi) as (c & _ & Hc).
        unfold chunkAt in Hc. destruct (h !! l); [eauto | done].
Qed.

End HeapProperties.

(** * The properties on concrete runs *)

(** A run in which everything succeeds, as a check of the embedding: one
    upload, one task, two probes until the transcript is ready, the review
    request, the corrected transcript put back and approved, two probes until
    the render is complete, the download, and the resampled file in place. *)
Example createCaptionedVideo_cooperative :
  let run := createCaptionedVideo
               (cooperative example_transcript example_corrections original_file resampled_file)
               upper parse_mp4 resolve_flat 3 10 example_params empty_world in
  run.1 = Ok "captioned_RUSSIAN.mp4" ∧
  fs run.2 = {[ "captioned_RUSSIAN.mp4" := resampled_file ]} ∧
  remote_calls (trace run.2) =
    [ UploadVideo "rendered_RUSSIAN.mp4";
      CreateTask "video-1" (JStr "ru");
      GetTask "video-1" "task-1";
      GetTask "video-1" "task-1";
      GetTranscript "https://cdn/transcript.json";
      ReviewRequest "hello world" [ {| text := "helo" |}; {| text := "wrold" |} ];
      PutTranscript "video-1" "task-1"
        [ {[ "text" := JStr "hello" ]}; ∅; {[ "text" := JStr "world" ]} ];
      ApproveTranscript "video-1" "task-1";
      GetTask "video-1" "task-1";
      GetTask "video-1" "task-1";
      Download "https://cdn/captioned.mp4" "captioned_RUSSIAN.mp4" ] ∧
  sleeps (trace run.2) = [2000; 2000].
Proof. vm_compute. repeat split; reflexivity. Qed.

(** The observer on that run: it ends in the phase [Downloaded] with the
    identifiers that the provider sent, after one attempt; and it does not
    let a task for another video pass. *)
Example createCaptionedVideo_cooperative_order :
  observe (cooperative example_transcript example_corrections original_file resampled_file)
    [] (Idle, 0%nat) (trace captioned_world) =
    Some (Downloaded "video-1" "task-1", 1%nat) ∧
  observe (cooperative example_transcript example_corrections original_file resampled_file)
    [] (Idle, 0%nat)
    [UploadVideo "rendered_RUSSIAN.mp4"; CreateTask "video-2" (JStr "ru")] = None.
Proof. split; vm_compute; reflexivity. Qed.

(** A file is at [outputPath]: the call returns it and the trace has no
    remote call. *)
Lemma createCaptionedVideo_existing_output_witness :
  is_Some (fs downloaded_world !! outputPath example_params) ∧
  ∃ w',
    createCaptionedVideo offline upper parse_mp4 resolve_flat 3 0 example_params downloaded_world =
      (Ok "captioned_RUSSIAN.mp4", w') ∧
    remote_calls (trace w') = [].
Proof.
  assert (Hex : is_Some (fs downloaded_world !! outputPath example_params)).
  { exists original_file. vm_compute. reflexivity. }
  split; [exact Hex|].
  destruct (createCaptionedVideo_existing_output offline upper parse_mp4 resolve_flat 3 0
              example_params downloaded_world Hex) as (w' & Hrun & _ & _ & Hrem & _).
  exists w'. split; [exact Hrun | exact Hrem].
Defined.

(** Three attempts against a provider that is offline: three uploads, sleeps
    of 2000 and 4000 ms between them, none after the third, and the
    aggregated error. *)
Lemma createCaptionedVideo_exhausts_attempts_witness :
  always_fails offline ∧
  ∃ w',
    createCaptionedVideo offline upper parse_mp4 resolve_flat 3 0 example_params empty_world =
      (Throw (Error "Failed to create captioned video after retries: AxiosError: Network Error"),
       w') ∧
    remote_calls (trace w') =
      [UploadVideo "rendered_RUSSIAN.mp4"; UploadVideo "rendered_RUSSIAN.mp4";
       UploadVideo "rendered_RUSSIAN.mp4"] ∧
    sleeps (trace w') = [2000; 4000] ∧
    last (trace w') =
      Some (ConsoleError "[captions] Attempt 3 failed for RUSSIAN:" network_error) ∧
    trace w' =
      [UploadVideo "rendered_RUSSIAN.mp4";
       ConsoleError "[captions] Attempt 1 failed for RUSSIAN:" network_error;
       Sleep 2000;
       UploadVideo "rendered_RUSSIAN.mp4";
       ConsoleError "[captions] Attempt 2 failed for RUSSIAN:" network_error;
       Sleep 4000;
       UploadVideo "rendered_RUSSIAN.mp4";
       ConsoleError "[captions] Attempt 3 failed for RUSSIAN:" network_error].
Proof.
  assert (Hoff : always_fails offline).
  { repeat split; intros k; exists network_error; reflexivity. }
  split; [exact Hoff|].
  destruct (createCaptionedVideo_exhausts_attempts offline upper parse_mp4 resolve_flat 3 0
              example_params empty_world Hoff eq_refl ltac:(lia))
    as (cause & w' & Hcause & Hrun & _ & Hrem & Hsl & Hlast & Htrace).
  vm_compute in Hcause. injection Hcause as <-.
  exists w'. split; [exact Hrun|]. split; [exact Hrem|]. split; [exact Hsl|].
  split; [exact Hlast | exact Htrace].
Defined.

(** The claim of C5 fails when [rename] fails: the original file was at its
    path before the call and no file is at that path after it. *)
Lemma resampleAudioIfNeeded_rename_failure_loses_original :
  fs downloaded_world !! "captioned_RUSSIAN.mp4" = Some original_file ∧
  (resampleAudioIfNeeded rename_fails parse_mp4 resolve_flat
     "captioned_RUSSIAN.mp4" 44100 downloaded_world).1 =
    Throw (Error "EPERM: operation not permitted, rename") ∧
  ¬ (fs (resampleAudioIfNeeded rename_fails parse_mp4 resolve_flat
           "captioned_RUSSIAN.mp4" 44100 downloaded_world).2 !! "captioned_RUSSIAN.mp4" =
     Some original_file).
Proof.
  split; [vm_compute; reflexivity|]. split; [vm_compute; reflexivity|].
  vm_compute. discriminate.
Qed.

(** The same run through the theorem: the original path is empty and the
    re-encoded file is at the temporary path. *)
Lemma resampleAudioIfNeeded_replaces_file_witness :
  temporaryOutputPath parse_mp4 resolve_flat "captioned_RUSSIAN.mp4" 44100 =
    "captioned_RUSSIAN_resampled_44100.mp4" ∧
  fs (resampleAudioIfNeeded rename_fails parse_mp4 resolve_flat
        "captioned_RUSSIAN.mp4" 44100 downloaded_world).2 !! "captioned_RUSSIAN.mp4" = None ∧
  fs (resampleAudioIfNeeded rename_fails parse_mp4 resolve_flat
        "captioned_RUSSIAN.mp4" 44100 downloaded_world).2
    !! "captioned_RUSSIAN_resampled_44100.mp4" = Some resampled_file.
Proof.
  split; [vm_compute; reflexivity|].
  pose proof (resampleAudioIfNeeded_replaces_file rename_fails parse_mp4 resolve_flat
                "captioned_RUSSIAN.mp4" 44100 48000 original_file downloaded_world
                eq_refl ltac:(lia) ltac:(vm_compute; reflexivity)
                ltac:(vm_compute; discriminate)) as H.
  cbv zeta in H. destruct H as [_ H].
  change (run_ffmpeg rename_fails (calls KFfmpeg (trace downloaded_world)))
    with (FfmpegOk resampled_file) in H.
  change (fs_unlink rename_fails (calls KUnlink (trace downloaded_world)))
    with (Reply ()) in H.
  change (fs_rename rename_fails (calls KRename (trace downloaded_world)))
    with (@Fails () (Error "EPERM: operation not permitted, rename")) in H.
  cbv iota beta in H. destruct H as (_ & Hgone & Htemp).
  split; [exact Hgone | exact Htemp].
Defined.

(** The second probe reports ["failed"]: the loop throws after two probes and
    one sleep, although five probes were allowed. *)
Lemma waitForTaskStatus_failed_witness :
  ("failed" ∉ ["completed"]) ∧
  ∃ w',
    waitForTaskStatus (provider [processing_status; failed_status]) 5
        "video-1" "task-1" ["completed"] "RUSSIAN" empty_world =
      (Throw (Error "Zapcap task failed: render crashed"), w') ∧
    remote_calls (trace w') = [GetTask "video-1" "task-1"; GetTask "video-1" "task-1"] ∧
    sleeps (trace w') = [2000].
Proof.
  assert (Hnot : "failed" ∉ ["completed"]).
  { intros Hin. apply list_elem_of_singleton in Hin. discriminate. }
  split; [exact Hnot|].
  destruct (waitForTaskStatus_failed (provider [processing_status; failed_status]) 1 5
              "video-1" "task-1" ["completed"] "RUSSIAN" empty_world failed_status Hnot)
    as (w' & Hrun & _ & _ & Hrem & Hsl & _).
  - intros j Hj. assert (j = 0%nat) as -> by lia.
    exists processing_status. split; [reflexivity|]. split; [|discriminate].
    intros Hin. apply list_elem_of_singleton in Hin. discriminate.
  - reflexivity.
  - reflexivity.
  - lia.
  - exists w'. split; [exact Hrun|]. split; [exact Hrem | exact Hsl].
Defined.

(** A job that stays in ["processing"]: after seven probes the loop is still
    polling, and has slept 2000 ms seven times. *)
Lemma waitForTaskStatus_polls_forever_witness :
  (∀ k, keeps_polling (provider []) ["completed"] k) ∧
  ∃ w',
    waitForTaskStatus (provider []) 7 "video-1" "task-1" ["completed"] "RUSSIAN" empty_world =
      (Pending, w') ∧
    calls KStatus (trace w') = 7%nat ∧
    sleeps (trace w') = replicate 7 2000.
Proof.
  assert (Hkeep : ∀ k, keeps_polling (provider []) ["completed"] k).
  { intros k. exists processing_status. split; [reflexivity|]. split; [|discriminate].
    intros Hin. apply list_elem_of_singleton in Hin. discriminate. }
  split; [exact Hkeep|].
  destruct (waitForTaskStatus_polls_forever (provider []) 7 "video-1" "task-1" ["completed"]
              "RUSSIAN" empty_world Hkeep) as (w' & Hrun & _ & Hcalls & _ & Hsl).
  exists w'. split; [exact Hrun|]. split; [exact Hcalls | exact Hsl].
Defined.

(** A file at 44100 Hz: one probe, and the files are as they were. *)
Lemma resampleAudioIfNeeded_same_rate_witness :
  resampleAudioIfNeeded at_target_rate parse_mp4 resolve_flat
    "captioned_RUSSIAN.mp4" 44100 downloaded_world =
    (Ok "captioned_RUSSIAN.mp4", log downloaded_world [Ffprobe "captioned_RUSSIAN.mp4"]) ∧
  fs (log downloaded_world [Ffprobe "captioned_RUSSIAN.mp4"]) = fs downloaded_world.
Proof.
  exact (resampleAudioIfNeeded_same_rate at_target_rate parse_mp4 resolve_flat
           "captioned_RUSSIAN.mp4" 44100 downloaded_world eq_refl).
Defined.

(** UKRAINIAN is a known language without a provider code. *)
Lemma createCaptionTask_unsupported_language_witness :
  languageCodeOf (upper (language ukrainian_params)) = None ∧
  createCaptionTask (provider []) upper "video-1" "UKRAINIAN" empty_world =
    (Throw (Error "Unsupported caption language: UKRAINIAN"), empty_world) ∧
  ∃ cause w',
    createCaptionedVideo (provider []) upper parse_mp4 resolve_flat 3 0 ukrainian_params empty_world =
      (Throw (Error ("Failed to create captioned video after retries: " ++
                     String_of_lastError cause)), w') ∧
    calls KTask (trace w') = 0%nat.
Proof.
  assert (Hcode : languageCodeOf (upper (language ukrainian_params)) = None).
  { vm_compute. reflexivity. }
  split; [exact Hcode|].
  destruct (createCaptionTask_unsupported_language (provider []) upper parse_mp4 resolve_flat 3 0
              "video-1" ukrainian_params empty_world Hcode) as [Htask Hall].
  split; [exact Htask|]. exact (Hall eq_refl).
Defined.

(** The transcript of [example_heap] and the answer
    [[{text:"hello"}, {text:"world"}]]: the call returns a new array that
    reads as the merged transcript, and the caller's array at location 4
    still reads [[{text:"helo"}, {}, {text:"wrold"}]]. *)
Lemma correctTranscript_leaves_input_witness :
  Heap.readTranscript example_heap 4%positive = Some example_transcript ∧
  ∃ transcriptCopy,
    (Heap.correctTranscript (λ _ _, Reply example_corrections) "hello world" 4%positive
       example_heap).1 = Heap.Returned transcriptCopy ∧
    Heap.readTranscript
      (Heap.correctTranscript (λ _ _, Reply example_corrections) "hello world" 4%positive
         example_heap).2 transcriptCopy =
      Some (applyCorrections example_corrections 0 example_transcript) ∧
    Heap.readTranscript
      (Heap.correctTranscript (λ _ _, Reply example_corrections) "hello world" 4%positive
         example_heap).2 4%positive =
      Some example_transcript.
Proof.
  assert (Hread : Heap.readTranscript example_heap 4%positive = Some example_transcript).
  { vm_compute. reflexivity. }
  split; [exact Hread|].
  exact (proj2 (proj2 (HeapProperties.correctTranscript_leaves_input
                         (λ _ _, Reply example_corrections) "hello world" 4%positive example_heap))
           example_transcript example_corrections Hread eq_refl eq_refl).
Defined.

(** * More of the service: the poll loop, the two waits and the merge *)

Section PollProperties.
Context (R : Remote).

Abbreviation waitForTaskStatus' := (waitForTaskStatus R).

(** What a run of the poll loop leaves behind, whatever the provider answers:
    [n] probes and [m] sleeps of 2000 ms, and nothing else but console lines. *)
Lemma waitForTaskStatus_outcome fuel videoId taskId targetStatuses language :
  ∀ w, ∃ n m,
    let run := waitForTaskStatus' fuel videoId taskId targetStatuses language w in
    fs run.2 = fs w ∧
    (n ≤ fuel)%nat ∧
    calls KStatus (trace run.2) = (calls KStatus (trace w) + n)%nat ∧
    remote_calls (trace run.2) =
      (remote_calls (trace w) ++ replicate n (GetTask videoId taskId))%list ∧
    sleeps (trace run.2) = (sleeps (trace w) ++ replicate m 2000)%list ∧
    match run.1 with
    | Pending => n = fuel ∧ m = fuel
    | Ok st =>
        n = S m ∧ (status st ∈ targetStatuses) ∧
        get_task R (calls KStatus (trace w) + m) = Reply st
    | Throw e => n = S m
    end.
Proof.
  induction fuel as [|fuel IH]; intros w.
  - exists 0%nat, 0%nat. simpl. rewrite !app_nil_r, Nat.add_0_r. done.
  - simpl. unfold_M. simpl.
    destruct (get_task R (calls KStatus (trace w))) as [st|e] eqn:Hget; simpl.
    2:{ exists 1%nat, 0%nat. simpl. rewrite calls_app, remote_calls_app, sleeps_app.
        unfold calls at 2. simpl. rewrite app_nil_r. repeat split; lia || done. }
    destruct (decide (status st ∈ targetStatuses)) as [Hin|Hnin]; simpl.
    { exists 1%nat, 0%nat. simpl. rewrite <- app_assoc.
      rewrite calls_app, remote_calls_app, sleeps_app.
      unfold calls at 2. simpl. rewrite app_nil_r, Nat.add_0_r.
      repeat split; lia || done. }
    destruct (decide (status st = "failed")) as [Hf|Hnf]; simpl.
    { exists 1%nat, 0%nat. simpl. rewrite <- app_assoc.
      rewrite calls_app, remote_calls_app, sleeps_app.
      unfold calls at 2. simpl. rewrite app_nil_r.
      repeat split; lia || done. }
    set (w1 := {| fs := fs w;
                  trace := ((trace w ++ [GetTask videoId taskId]) ++
                            [ConsoleLog ("[captions] " ++ language ++ ": " ++ status st)]) ++
                           [Sleep 2000] |}).
    destruct (IH w1) as (n & m & Hfs & Hn & Hcalls & Hrem & Hsl & Hres).
    cbv zeta in *.
    assert (Hc1 : calls KStatus (trace w1) = S (calls KStatus (trace w))).
    { unfold w1. simpl. rewrite !calls_app. unfold calls at 2 3 4. simpl. lia. }
    assert (Hr1 : remote_calls (trace w1) =
                  (remote_calls (trace w) ++ [GetTask videoId taskId])%list).
    { unfold w1. simpl. rewrite !remote_calls_app. simpl. by rewrite !app_nil_r. }
    assert (Hs1 : sleeps (trace w1) = (sleeps (trace w) ++ [2000])%list).
    { unfold w1. simpl. rewrite !sleeps_app. simpl. by rewrite !app_nil_r. }
    exists (S n), (S m).
    destruct (waitForTaskStatus' fuel videoId taskId targetStatuses language w1)
      as [r w'] eqn:Hrun.
    simpl in *.
    destruct r as [st'|e'|]; simpl;
      (split; [done|]; split; [lia|]; split; [rewrite Hcalls, Hc1; lia|];
       split; [rewrite Hrem, Hr1, <- app_assoc; done|];
       split; [rewrite Hsl, Hs1, <- app_assoc; done|]).
    + destruct Hres as (-> & Hin' & Hget'). split; [done|]. split; [done|].
      rewrite Hc1 in Hget'. by replace (calls KStatus (trace w) + S m)%nat
        with (S (calls KStatus (trace w)) + m)%nat by lia.
    + lia.
    + lia.
Qed.

(** X1. When the probes before the [n]-th keep the loop going and the [n]-th
    reports one of the target statuses, [waitForTaskStatus] returns that status
    payload after [n + 1] probes and [n] sleeps of 2000 ms; the last thing it
    does is the console line of that probe. The target test comes first: this
    holds also when the target status is ["failed"]. *)
Theorem waitForTaskStatus_returns_target n fuel videoId taskId targetStatuses language w st :
  (∀ j, (j < n)%nat → keeps_polling R targetStatuses (calls KStatus (trace w) + j)) →
  get_task R (calls KStatus (trace w) + n) = Reply st →
  status st ∈ targetStatuses →
  (n < fuel)%nat →
  ∃ w',
    waitForTaskStatus' fuel videoId taskId targetStatuses language w = (Ok st, w') ∧
    fs w' = fs w ∧
    remote_calls (trace w') =
      (remote_calls (trace w) ++ replicate (S n) (GetTask videoId taskId))%list ∧
    sleeps (trace w') = (sleeps (trace w) ++ replicate n 2000)%list ∧
    last (trace w') = Some (ConsoleLog ("[captions] " ++ language ++ ": " ++ status st)).
Proof.
  intros Hkeep Hget Htarget Hfuel.
  destruct (waitForTaskStatus_skip R n videoId taskId targetStatuses language w Hkeep)
    as (w1 & Hrun & Hfs & Hcalls & Hrem & Hsl).
  replace fuel with (n + S (fuel - S n))%nat by lia.
  rewrite Hrun. rewrite <- Hcalls in Hget.
  exists (log w1 [GetTask videoId taskId;
                  ConsoleLog ("[captions] " ++ language ++ ": " ++ status st)]).
  split; [|split; [done|split; [|split]]].
  - simpl. unfold_M. simpl. rewrite Hget. simpl.
    rewrite decide_True by done. unfold log. simpl. by rewrite <- !app_assoc.
  - rewrite replicate_S_end. simpl. rewrite remote_calls_app, Hrem.
    by rewrite <- app_assoc.
  - simpl. rewrite sleeps_app, Hsl. simpl. by rewrite app_nil_r.
  - simpl. by rewrite last_app.
Qed.

(** X2. The loop does not retry a probe whose request fails: when the probes
    before the [n]-th keep the loop going and the request of the [n]-th fails,
    [waitForTaskStatus] throws that very error after [n + 1] probes and [n]
    sleeps, the failed request being the last thing it did. *)
Theorem waitForTaskStatus_request_error n fuel videoId taskId targetStatuses language w e :
  (∀ j, (j < n)%nat → keeps_polling R targetStatuses (calls KStatus (trace w) + j)) →
  get_task R (calls KStatus (trace w) + n) = Fails e →
  (n < fuel)%nat →
  ∃ w',
    waitForTaskStatus' fuel videoId taskId targetStatuses language w = (Throw e, w') ∧
    fs w' = fs w ∧
    remote_calls (trace w') =
      (remote_calls (trace w) ++ replicate (S n) (GetTask videoId taskId))%list ∧
    sleeps (trace w') = (sleeps (trace w) ++ replicate n 2000)%list ∧
    last (trace w') = Some (GetTask videoId taskId).
Proof.
  intros Hkeep Hget Hfuel.
  destruct (waitForTaskStatus_skip R n videoId taskId targetStatuses language w Hkeep)
    as (w1 & Hrun & Hfs & Hcalls & Hrem & Hsl).
  replace fuel with (n + S (fuel - S n))%nat by lia.
  rewrite Hrun. rewrite <- Hcalls in Hget.
  exists (log w1 [GetTask videoId taskId]).
  split; [|split; [done|split; [|split]]].
  - simpl. unfold_M. simpl. by rewrite Hget.
  - rewrite replicate_S_end. simpl. rewrite remote_calls_app, Hrem.
    by rewrite <- app_assoc.
  - simpl. rewrite sleeps_app, Hsl. simpl. by rewrite app_nil_r.
  - simpl. by rewrite last_app.
Qed.

(** X3. Whatever the provider answers and however long the loop runs,
    [waitForTaskStatus] leaves the files alone and calls nothing but the status
    endpoint of its own video and task: after [n] probes it has slept [m]
    times, 2000 ms each; it is still polling only when all the probes it was
    allowed are spent ([n = m]), and it ends right after a probe otherwise
    ([n = m + 1]). A payload it returns is the answer of its last probe and
    carries a target status. *)
Theorem waitForTaskStatus_footprint fuel videoId taskId targetStatuses language w :
  ∃ n m,
    let run := waitForTaskStatus' fuel videoId taskId targetStatuses language w in
    fs run.2 = fs w ∧
    (n ≤ fuel)%nat ∧
    calls KStatus (trace run.2) = (calls KStatus (trace w) + n)%nat ∧
    remote_calls (trace run.2) =
      (remote_calls (trace w) ++ replicate n (GetTask videoId taskId))%list ∧
    sleeps (trace run.2) = (sleeps (trace w) ++ replicate m 2000)%list ∧
    match run.1 with
    | Pending => n = fuel ∧ m = fuel
    | Ok st =>
        n = S m ∧ (status st ∈ targetStatuses) ∧
        get_task R (calls KStatus (trace w) + m) = Reply st
    | Throw e => n = S m
    end.
Proof. apply waitForTaskStatus_outcome. Qed.

(** X4. A URL that [waitForTranscription] returns is not empty, and it is the
    [transcript] field of a status payload that the provider sent with the
    status ["transcriptionCompleted"]. *)
Theorem waitForTranscription_sound fuel videoId taskId language w w' url :
  waitForTranscription R fuel videoId taskId language w = (Ok url, w') →
  url ≠ "" ∧
  ∃ k st, get_task R k = Reply st ∧
          status st = "transcriptionCompleted" ∧ transcript st = Some url.
Proof.
  unfold waitForTranscription, bind. intros Hrun.
  destruct (waitForTaskStatus_outcome fuel videoId taskId ["transcriptionCompleted"] language w)
    as (n & m & _ & _ & _ & _ & _ & Hres). cbv zeta in Hres.
  destruct (waitForTaskStatus' fuel videoId taskId ["transcriptionCompleted"] language w)
    as [[st| |] w1]; simpl in *; [|done|done].
  destruct Hres as (_ & Hin & Hget). apply list_elem_of_singleton in Hin.
  destruct (transcript st) as [u|] eqn:Hu; simpl in Hrun; [|done].
  destruct u as [|c u]; simpl in Hrun; [done|].
  unfold ret in Hrun. simplify_eq. split; [done|]. eauto.
Qed.

(** X5. A URL that [waitForCompletedVideo] returns is not empty, and it is the
    [downloadUrl] field of a status payload that the provider sent with the
    status ["completed"]. *)
Theorem waitForCompletedVideo_sound fuel videoId taskId language w w' url :
  waitForCompletedVideo R fuel videoId taskId language w = (Ok url, w') →
  url ≠ "" ∧
  ∃ k st, get_task R k = Reply st ∧
          status st = "completed" ∧ downloadUrl st = Some url.
Proof.
  unfold waitForCompletedVideo, bind. intros Hrun.
  destruct (waitForTaskStatus_outcome fuel videoId taskId ["completed"] language w)
    as (n & m & _ & _ & _ & _ & _ & Hres). cbv zeta in Hres.
  destruct (waitForTaskStatus' fuel videoId taskId ["completed"] language w)
    as [[st| |] w1]; simpl in *; [|done|done].
  destruct Hres as (_ & Hin & Hget). apply list_elem_of_singleton in Hin.
  destruct (downloadUrl st) as [u|] eqn:Hu; simpl in Hrun; [|done].
  destruct u as [|c u]; simpl in Hrun; [done|].
  unfold ret in Hrun. simplify_eq. split; [done|]. eauto.
Qed.

End PollProperties.

(** ** The merge, read back *)

Lemma chunkText_Some chunk s :
  chunkText chunk = Some s → chunk !! "text" = Some (JStr s) ∧ s ≠ "".
Proof.
  unfold chunkText. destruct (chunk !! "text") as [[| | |s'| |]|]; try done.
  destruct (decide _) as [Hlen|]; [|done]. intros [= ->].
  split; [done|]. intros ->. simpl in Hlen. lia.
Qed.

Lemma chunkText_insert chunk s :
  s ≠ "" → chunkText (<["text" := JStr s]> chunk) = Some s.
Proof.
  intros Hs. unfold chunkText. rewrite lookup_insert_eq.
  rewrite decide_True; [done|]. destruct s; [done | simpl; lia].
Qed.

(** Corrected texts that are the chunks' own texts change nothing. *)
Lemma applyCorrections_echo transcript : ∀ before,
  applyCorrections (before ++ compactTranscript (chunksWithText transcript))
    (length before) transcript = transcript.
Proof.
  induction transcript as [|chunk rest IH]; intros before; [done|].
  simpl. rewrite chunksWithText_cons.
  destruct (chunkText chunk) as [s|] eqn:Ht.
  - unfold compactTranscript at 1. rewrite fmap_cons. rewrite Ht. simpl.
    rewrite lookup_app_r by done. rewrite Nat.sub_diag. simpl.
    destruct (chunkText_Some _ _ Ht) as [Hl _]. rewrite insert_id by done.
    f_equal. specialize (IH (before ++ [{| text := s |}])%list).
    rewrite length_app in IH. simpl in IH. rewrite Nat.add_1_r in IH.
    rewrite <- app_assoc in IH. simpl in IH. rewrite Ht. exact IH.
  - f_equal. apply IH.
Qed.

(** Reading the texts back from the merged transcript. *)
Lemma compactTranscript_applyCorrections cs transcript : ∀ k,
  Forall (λ c, text c ≠ "") cs →
  (k + length (chunksWithText transcript) ≤ length cs)%nat →
  compactTranscript (chunksWithText (applyCorrections cs k transcript)) =
    take (length (chunksWithText transcript)) (drop k cs).
Proof.
  intros k Hne. revert k.
  induction transcript as [|chunk rest IH]; intros k Hk; [done|].
  simpl. rewrite chunksWithText_cons in *.
  destruct (chunkText chunk) as [s|] eqn:Ht; simpl in *.
  - assert (Hlt : (k < length cs)%nat) by lia.
    apply lookup_lt_is_Some_2 in Hlt as [c Hc]. rewrite Hc. simpl.
    assert (Hc' : text c ≠ "").
    { eapply Forall_forall in Hne; [done|]. by eapply list_elem_of_lookup_2. }
    rewrite chunksWithText_cons, chunkText_insert by done.
    unfold compactTranscript. rewrite fmap_cons. fold (compactTranscript).
    rewrite chunkText_insert by done. simpl.
    rewrite (drop_S _ _ _ Hc). simpl. destruct c as [t]. simpl. f_equal.
    apply IH. lia.
  - rewrite chunksWithText_cons, Ht. by apply IH.
Qed.

Section MergeProperties.
Context (R : Remote).

(** X6. When the review model sends the texts back as they were,
    [correctTranscript] returns the transcript it was given: the merge with
    the chunks' own texts is the identity. *)
Theorem correctTranscript_echo originalText transcript w :
  responses_create R (calls KReview (trace w)) =
    Reply (OutputItems (compactTranscript (chunksWithText transcript))) →
  correctTranscript R originalText transcript w =
    (Ok transcript,
     log w [ReviewRequest originalText (compactTranscript (chunksWithText transcript))]).
Proof.
  intros Hreply. unfold correctTranscript, correctTranscriptChunks. unfold_M. simpl.
  rewrite Hreply. simpl. rewrite decide_False by (intros Hne; by apply Hne).
  pose proof (applyCorrections_echo transcript []) as Hecho. simpl in Hecho.
  by rewrite Hecho.
Qed.

(** X7. When the review model answers with the right number of items and none
    of their texts is empty, the texts of the chunks with text of the merged
    transcript, in order, are the corrected texts: a second pass would send
    the review model exactly what the first one answered. *)
Theorem correctTranscript_texts_read_back originalText transcript correctedChunks w :
  responses_create R (calls KReview (trace w)) = Reply (OutputItems correctedChunks) →
  length correctedChunks = length (chunksWithText transcript) →
  Forall (λ c, text c ≠ "") correctedChunks →
  ∃ merged w',
    correctTranscript R originalText transcript w = (Ok merged, w') ∧
    compactTranscript (chunksWithText merged) = correctedChunks.
Proof.
  intros Hreply Hlen Hne.
  exists (applyCorrections correctedChunks 0 transcript). eexists. split.
  - unfold correctTranscript, correctTranscriptChunks. unfold_M. simpl.
    rewrite Hreply. simpl. rewrite compactTranscript_length.
    rewrite decide_False by (intros Hx; by apply Hx). reflexivity.
  - rewrite compactTranscript_applyCorrections by (done || lia).
    rewrite drop_0, <- Hlen. apply firstn_all.
Qed.

End MergeProperties.

(** An empty corrected text is written like any other, and the chunk then
    counts as one without text. *)
Example applyCorrections_empty_text :
  chunksWithText (applyCorrections [ {| text := "" |}; {| text := "world" |} ] 0 example_transcript)
    = [ {[ "text" := JStr "world" ]} ].
Proof. vm_compute. reflexivity. Qed.

(** * The order of the calls, the attempts, and what a success leaves *)

Lemma sent_id_Reply id :
  missing id = false → sent_id (Reply id) = Some (default "" id).
Proof. by destruct id as [[|c s]|]. Qed.

Section FollowsRules.
Context (R : Remote).

Lemma observe_app seen s es1 es2 :
  observe R seen s (es1 ++ es2) =
    s' ← observe R seen s es1; observe R (seen ++ es1)%list s' es2.
Proof.
  revert seen s. induction es1 as [|e es1 IH]; intros seen s.
  { simpl. by rewrite app_nil_r. }
  simpl. destruct (observe_step R seen s e) as [s1|]; [|done]. simpl.
  rewrite IH. by rewrite <- app_assoc.
Qed.

Lemma follows_ret {A} s (a : A) (Q : result A → phase * nat → Prop) :
  Q (Ok a) s → follows R s (ret a) Q.
Proof. intros HQ w. exists [], s. simpl. by rewrite app_nil_r. Qed.

Lemma follows_throw {A} s e (Q : result A → phase * nat → Prop) :
  Q (Throw e) s → follows R s (throw e) Q.
Proof. intros HQ w. exists [], s. simpl. by rewrite app_nil_r. Qed.

Lemma follows_pending {A} s (Q : result A → phase * nat → Prop) :
  Q Pending s → follows R s pending Q.
Proof. intros HQ w. exists [], s. simpl. by rewrite app_nil_r. Qed.

Lemma follows_bind {A B} s (m : M A) (k : A → M B) Q1 (Q : result B → phase * nat → Prop) :
  follows R s m Q1 →
  (∀ a s1, Q1 (Ok a) s1 → follows R s1 (k a) Q) →
  (∀ e s1, Q1 (Throw e) s1 → Q (Throw e) s1) →
  (∀ s1, Q1 Pending s1 → Q Pending s1) →
  follows R s (bind m k) Q.
Proof.
  intros Hm Hk Hthrow Hpend w. unfold bind.
  destruct (Hm w) as (es1 & s1 & Htr1 & Hobs1 & HQ1).
  destruct (m w) as [[a|e|] w1]; simpl in *.
  - destruct (Hk a s1 HQ1 w1) as (es2 & s2 & Htr2 & Hobs2 & HQ2).
    exists (es1 ++ es2)%list, s2. split; [by rewrite Htr2, Htr1, app_assoc|].
    split; [|done]. rewrite observe_app, Hobs1. simpl. by rewrite <- Htr1.
  - exists es1, s1. eauto.
  - exists es1, s1. eauto.
Qed.

Lemma follows_try_catch {A} s (body : M A) (handler : thrown → M A) Q1
    (Q : result A → phase * nat → Prop) :
  follows R s body Q1 →
  (∀ e s1, Q1 (Throw e) s1 → follows R s1 (handler e) Q) →
  (∀ a s1, Q1 (Ok a) s1 → Q (Ok a) s1) →
  (∀ s1, Q1 Pending s1 → Q Pending s1) →
  follows R s (try_catch body handler) Q.
Proof.
  intros Hm Hh Hok Hpend w. unfold try_catch.
  destruct (Hm w) as (es1 & s1 & Htr1 & Hobs1 & HQ1).
  destruct (body w) as [[a|e|] w1]; simpl in *.
  - exists es1, s1. eauto.
  - destruct (Hh e s1 HQ1 w1) as (es2 & s2 & Htr2 & Hobs2 & HQ2).
    exists (es1 ++ es2)%list, s2. split; [by rewrite Htr2, Htr1, app_assoc|].
    split; [|done]. rewrite observe_app, Hobs1. simpl. by rewrite <- Htr1.
  - exists es1, s1. eauto.
Qed.

Lemma follows_conseq {A} s (m : M A) (Q1 Q : result A → phase * nat → Prop) :
  follows R s m Q1 → (∀ r s1, Q1 r s1 → Q r s1) → follows R s m Q.
Proof.
  intros Hm HQ w. destruct (Hm w) as (es & s1 & ? & ? & ?). exists es, s1. eauto.
Qed.

Lemma follows_emit s e s' (Q : result () → phase * nat → Prop) :
  (∀ seen, observe_step R seen s e = Some s') → Q (Ok ()) s' → follows R s (emit e) Q.
Proof.
  intros Hstep HQ w. exists [e], s'. simpl. rewrite Hstep. done.
Qed.

Lemma follows_call s e s' (Q : result nat → phase * nat → Prop) :
  (∀ seen, observe_step R seen s e = Some s') → (∀ k, Q (Ok k) s') →
  follows R s (call e) Q.
Proof.
  intros Hstep HQ w. exists [e], s'. unfold call. unfold_M. simpl. rewrite Hstep. done.
Qed.

Lemma follows_get_fs s (Q : result (gmap string file) → phase * nat → Prop) :
  (∀ f, Q (Ok f) s) → follows R s get_fs Q.
Proof. intros HQ w. exists [], s. simpl. by rewrite app_nil_r. Qed.

Lemma follows_set_fs s f (Q : result () → phase * nat → Prop) :
  Q (Ok ()) s → follows R s (set_fs f) Q.
Proof. intros HQ w. exists [], s. simpl. by rewrite app_nil_r. Qed.

Lemma follows_of_reply {A} s (r : reply A) (Q : result A → phase * nat → Prop) :
  (∀ a, r = Reply a → Q (Ok a) s) → (∀ e, r = Fails e → Q (Throw e) s) →
  follows R s (of_reply r) Q.
Proof.
  intros Hok Hfail. destruct r as [a|e]; simpl.
  - apply follows_ret; eauto.
  - apply follows_throw; eauto.
Qed.

Lemma follows_emit_then {B} s e s' (k : M B) (Q : result B → phase * nat → Prop) :
  (∀ seen, observe_step R seen s e = Some s') → follows R s' k Q →
  follows R s (bind (emit e) (λ _, k)) Q.
Proof.
  intros Hstep Hk w. unfold bind, emit. simpl.
  destruct (Hk {| fs := fs w; trace := trace w ++ [e] |}) as (es & s2 & Htr & Hobs & HQ).
  exists (e :: es), s2. simpl in *. rewrite Hstep. simpl.
  split; [by rewrite Htr, <- app_assoc|]. done.
Qed.

(** A call whose place in the protocol depends on the response that the
    environment gives at its index. *)
Lemma follows_call_at {B} s e (k : nat → M B) (Q : result B → phase * nat → Prop) :
  (∀ i, ∃ s',
     (∀ seen, calls (kind_of e) seen = i → observe_step R seen s e = Some s') ∧
     follows R s' (k i) Q) →
  follows R s (bind (call e) k) Q.
Proof.
  intros Hk w. unfold bind, call. unfold_M. simpl.
  destruct (Hk (calls (kind_of e) (trace w))) as (s' & Hstep & Hfollows).
  destruct (Hfollows {| fs := fs w; trace := trace w ++ [e] |})
    as (es & s2 & Htr & Hobs & HQ).
  exists (e :: es), s2. simpl in *. rewrite (Hstep (trace w) eq_refl). simpl.
  split; [by rewrite Htr, <- app_assoc|]. done.
Qed.

Lemma follows_call_then {B} s e s' (k : nat → M B) (Q : result B → phase * nat → Prop) :
  (∀ seen, observe_step R seen s e = Some s') → (∀ i, follows R s' (k i) Q) →
  follows R s (bind (call e) k) Q.
Proof.
  intros Hstep Hk. apply follows_call_at. intros i. exists s'. split; [|apply Hk].
  intros seen _. apply Hstep.
Qed.

Lemma follows_get_fs_then {B} s (k : gmap string file → M B) (Q : result B → phase * nat → Prop) :
  (∀ f, follows R s (k f) Q) → follows R s (bind get_fs k) Q.
Proof. intros Hk w. unfold bind, get_fs. simpl. apply Hk. Qed.

Lemma follows_set_fs_then {B} s f (k : M B) (Q : result B → phase * nat → Prop) :
  follows R s k Q → follows R s (bind (set_fs f) (λ _, k)) Q.
Proof.
  intros Hk w. unfold bind, set_fs. simpl.
  apply (Hk {| fs := f; trace := trace w |}).
Qed.

Lemma follows_of_reply_at {A B} s (r : reply A) (k : A → M B)
    (Q : result B → phase * nat → Prop) :
  (∀ a, r = Reply a → follows R s (k a) Q) → (∀ e, Q (Throw e) s) →
  follows R s (bind (of_reply r) k) Q.
Proof.
  intros Hk Hfail w. destruct r as [a|e]; unfold bind; simpl.
  - by apply Hk.
  - exists [], s. simpl. rewrite app_nil_r. eauto.
Qed.

Lemma follows_of_reply_then {A B} s (r : reply A) (k : A → M B)
    (Q : result B → phase * nat → Prop) :
  (∀ a, follows R s (k a) Q) → (∀ e, Q (Throw e) s) →
  follows R s (bind (of_reply r) k) Q.
Proof. intros Hk Hfail. apply follows_of_reply_at; [|done]. intros a _. apply Hk. Qed.

End FollowsRules.

Section Follows.
Context (R : Remote).
Context (toUpperCase : string → string).
Context (path_parse : string → string * string * string).
Context (path_resolve : string → string → string).
Context (maxRetryAttempts : Z).

Lemma uploadVideo_follows p n videoPath :
  follows R (p, n) (uploadVideo R videoPath) (uploaded n).
Proof.
  unfold uploadVideo. apply follows_call_at. intros i.
  exists (Uploaded (sent_id (post_videos R i)), S n). split.
  { intros seen Hi. unfold observe_step. simpl in *. by rewrite Hi. }
  apply follows_of_reply_at.
  - intros response Hresponse. destruct (missing response) eqn:Hid.
    + apply follows_throw. split; [done|]. eexists. split; [done|]. done.
    + apply follows_ret. split; [done|]. eexists. split; [done|].
      intros a [= <-]. rewrite Hresponse. by apply sent_id_Reply.
  - intros e. split; [done|]. eexists. split; [done|]. done.
Qed.

Lemma createCaptionTask_follows n videoId language :
  follows R (Uploaded (Some videoId), n) (createCaptionTask R toUpperCase videoId language)
    (task_created videoId n).
Proof.
  unfold createCaptionTask.
  destruct (falsy _).
  { apply follows_throw. split; [done|]. right. done. }
  apply follows_call_at. intros i.
  exists (TaskCreated videoId (sent_id (post_task R i)), n). split.
  { intros seen Hi. unfold observe_step. simpl in *.
    rewrite decide_True by done. simpl. by rewrite Hi. }
  apply follows_of_reply_at.
  - intros response Hresponse. destruct (missing response) eqn:Hid.
    + apply follows_throw. split; [done|]. left. eexists. split; [done|]. done.
    + apply follows_ret. split; [done|]. left. eexists. split; [done|].
      intros a [= <-]. rewrite Hresponse. by apply sent_id_Reply.
  - intros e. split; [done|]. left. eexists. split; [done|]. done.
Qed.

Lemma waitForTaskStatus_follows fuel videoId taskId targetStatuses language : ∀ p q n,
  (∀ seen, protocol_step R seen p (GetTask videoId taskId) = Some q) →
  (∀ seen, protocol_step R seen q (GetTask videoId taskId) = Some q) →
  (∀ seen ms, protocol_step R seen q (Sleep ms) = Some q) →
  (∀ seen line, protocol_step R seen q (ConsoleLog line) = Some q) →
  follows R (p, n) (waitForTaskStatus R fuel videoId taskId targetStatuses language)
    (moved p q n).
Proof.
  induction fuel as [|fuel IH]; intros p q n Hp Hq Hsleep Hlog; simpl.
  { apply follows_pending. split; [done|]. right. done. }
  apply follows_call_then with (q, n).
  { intros seen. unfold observe_step. change ((p, n).1) with p. by rewrite Hp. }
  intros i. apply follows_of_reply_then.
  2:{ intros e. split; [done|]. by left. }
  intros st. apply follows_emit_then with (q, n).
  { intros seen. unfold observe_step. change ((q, n).1) with q. by rewrite Hlog. }
  destruct (decide (status st ∈ targetStatuses)).
  { apply follows_ret. split; [done|]. by left. }
  destruct (decide _).
  { apply follows_throw. split; [done|]. by left. }
  unfold sleep at 1. apply follows_emit_then with (q, n).
  { intros seen. unfold observe_step. change ((q, n).1) with q. by rewrite Hsleep. }
  eapply follows_conseq; [apply (IH q q n Hq Hq Hsleep Hlog)|].
  intros r s1 [Hn [Hq'|[Hq' _]]]; (split; [done|]; by left).
Qed.

Lemma same_ids (v t : string) : v = v ∧ t = t.
Proof. done. Qed.

Lemma waitForTranscription_follows fuel videoId taskId language n :
  follows R (TaskCreated videoId (Some taskId), n)
    (waitForTranscription R fuel videoId taskId language)
    (moved (TaskCreated videoId (Some taskId)) (Transcribing videoId taskId) n).
Proof.
  unfold waitForTranscription.
  eapply follows_bind.
  - apply (waitForTaskStatus_follows fuel videoId taskId ["transcriptionCompleted"] language
             (TaskCreated videoId (Some taskId)) (Transcribing videoId taskId) n); try done.
    + intros seen. simpl. by rewrite decide_True by apply same_ids.
    + intros seen. simpl. by rewrite decide_True by apply same_ids.
  - intros st s1 [Hn [Hq|[_ Hno]]]; [|by destruct (Hno st)].
    destruct s1 as [p1 n1]. simpl in *. subst.
    destruct (missing _).
    + apply follows_throw. split; [done|]. by left.
    + apply follows_ret. split; [done|]. by left.
  - intros e s1 [Hn Hp]. split; [done|]. destruct Hp as [?|[? _]]; [by left|].
    right. done.
  - intros s1 [Hn Hp]. split; [done|]. destruct Hp as [?|[? _]]; [by left|].
    right. done.
Qed.

Lemma waitForCompletedVideo_follows fuel videoId taskId language n :
  follows R (Approved videoId taskId, n) (waitForCompletedVideo R fuel videoId taskId language)
    (moved (Approved videoId taskId) (Rendering videoId taskId) n).
Proof.
  unfold waitForCompletedVideo.
  eapply follows_bind.
  - apply (waitForTaskStatus_follows fuel videoId taskId ["completed"] language
             (Approved videoId taskId) (Rendering videoId taskId) n); try done.
    + intros seen. simpl. by rewrite decide_True by apply same_ids.
    + intros seen. simpl. by rewrite decide_True by apply same_ids.
  - intros st s1 [Hn [Hq|[_ Hno]]]; [|by destruct (Hno st)].
    destruct s1 as [p1 n1]. simpl in *. subst.
    destruct (missing _).
    + apply follows_throw. split; [done|]. by left.
    + apply follows_ret. split; [done|]. by left.
  - intros e s1 [Hn Hp]. split; [done|]. destruct Hp as [?|[? _]]; [by left|].
    right. done.
  - intros s1 [Hn Hp]. split; [done|]. destruct Hp as [?|[? _]]; [by left|].
    right. done.
Qed.

Lemma loadTranscript_follows videoId taskId transcriptUrl n :
  follows R (Transcribing videoId taskId, n) (loadTranscript R transcriptUrl)
    (moved (Transcribing videoId taskId) (TranscriptLoaded videoId taskId) n).
Proof.
  unfold loadTranscript.
  apply follows_call_then with (TranscriptLoaded videoId taskId, n); [done|]. intros i.
  apply follows_of_reply_then.
  - intros [e|chunks|].
    + apply follows_throw. split; [done|]. by left.
    + apply follows_ret. split; [done|]. by left.
    + apply follows_throw. split; [done|]. by left.
  - intros e. split; [done|]. by left.
Qed.

Lemma correctTranscript_follows videoId taskId originalText transcript n :
  follows R (TranscriptLoaded videoId taskId, n) (correctTranscript R originalText transcript)
    (moved (TranscriptLoaded videoId taskId) (Reviewed videoId taskId) n).
Proof.
  unfold correctTranscript, correctTranscriptChunks.
  eapply follows_bind with (Q1 := λ r s1, s1 = (Reviewed videoId taskId, n)).
  - apply follows_call_then with (Reviewed videoId taskId, n); [done|]. intros i.
    apply follows_of_reply_then; [|done].
    intros [| | |]; (by apply follows_throw) || (by apply follows_ret).
  - intros cs s1 ->. destruct (decide _).
    + apply follows_throw. split; [done|]. by left.
    + apply follows_ret. split; [done|]. by left.
  - intros e s1 ->. split; [done|]. by left.
  - intros s1 ->. split; [done|]. by left.
Qed.

Lemma applyTranscript_follows videoId taskId transcript n :
  follows R (Reviewed videoId taskId, n) (applyTranscript R videoId taskId transcript)
    (moved (Reviewed videoId taskId) (TranscriptApplied videoId taskId) n).
Proof.
  unfold applyTranscript.
  apply follows_call_then with (TranscriptApplied videoId taskId, n).
  { intros seen. unfold observe_step. simpl. by rewrite decide_True by apply same_ids. }
  intros i. apply follows_of_reply; intros; (split; [done|]; by left).
Qed.

Lemma approveTranscript_follows videoId taskId n :
  follows R (TranscriptApplied videoId taskId, n) (approveTranscript R videoId taskId)
    (moved (TranscriptApplied videoId taskId) (Approved videoId taskId) n).
Proof.
  unfold approveTranscript.
  apply follows_call_then with (Approved videoId taskId, n).
  { intros seen. unfold observe_step. simpl. by rewrite decide_True by apply same_ids. }
  intros i. apply follows_of_reply; intros; (split; [done|]; by left).
Qed.

Lemma downloadFile_follows videoId taskId url outputPath n :
  follows R (Rendering videoId taskId, n) (downloadFile R url outputPath)
    (moved (Rendering videoId taskId) (Downloaded videoId taskId) n).
Proof.
  unfold downloadFile.
  apply follows_call_then with (Downloaded videoId taskId, n); [done|]. intros i.
  apply follows_get_fs_then. intros f.
  destruct (get_download R i).
  - apply follows_set_fs_then. apply follows_ret. split; [done|]. by left.
  - apply follows_set_fs_then. apply follows_throw. split; [done|]. by left.
  - apply follows_throw. split; [done|]. by left.
Qed.

(** The normaliser makes no remote call; its tools run in the phase
    [Downloaded] and leave it there. *)
Lemma resampleAudioIfNeeded_follows videoId taskId filePath targetRate n :
  follows R (Downloaded videoId taskId, n)
    (resampleAudioIfNeeded R path_parse path_resolve filePath targetRate)
    (λ r s', s' = (Downloaded videoId taskId, n)).
Proof.
  unfold resampleAudioIfNeeded, getAudioSampleRate, ffmpeg, unlink, rename.
  eapply follows_bind with (Q1 := λ r s1, s1 = (Downloaded videoId taskId, n)).
  - apply follows_call_then with (Downloaded videoId taskId, n); [done|]. intros i.
    apply follows_of_reply_then; [|done].
    intros [e| |[rate|]]; (by apply follows_throw) || (by apply follows_ret).
  - intros rate s1 ->. destruct (decide _); [by apply follows_ret|].
    eapply follows_bind with (Q1 := λ r s1, s1 = (Downloaded videoId taskId, n)).
    + apply follows_call_then with (Downloaded videoId taskId, n); [done|]. intros i.
      apply follows_get_fs_then. intros f.
      destruct (run_ffmpeg R i) as [out|e [part|]].
      * by apply follows_set_fs.
      * apply follows_set_fs_then. by apply follows_throw.
      * by apply follows_throw.
    + intros _ s1 ->.
      eapply follows_bind with (Q1 := λ r s1, s1 = (Downloaded videoId taskId, n)).
      * apply follows_call_then with (Downloaded videoId taskId, n); [done|]. intros i.
        apply follows_of_reply_then; [|done]. intros _.
        apply follows_get_fs_then. intros f.
        destruct (f !! filePath); [by apply follows_set_fs | by apply follows_throw].
      * intros _ s1 ->.
        eapply follows_bind with (Q1 := λ r s1, s1 = (Downloaded videoId taskId, n)).
        -- apply follows_call_then with (Downloaded videoId taskId, n); [done|]. intros i.
           apply follows_of_reply_then; [|done]. intros _.
           apply follows_get_fs_then. intros f.
           destruct (f !! _); [by apply follows_set_fs | by apply follows_throw].
        -- intros _ s1 ->. by apply follows_ret.
        -- by intros e s1 ->.
        -- by intros s1 ->.
      * by intros e s1 ->.
      * by intros s1 ->.
    + by intros e s1 ->.
    + by intros s1 ->.
  - by intros e s1 ->.
  - by intros s1 ->.
Qed.

End Follows.

Lemma moved_Ok {A} p q n (a : A) s' : moved p q n (Ok a) s' → s' = (q, n).
Proof.
  destruct s' as [p' n']. intros [Hn [Hq|[_ Hno]]]; simpl in *; [by subst|].
  by destruct (Hno a).
Qed.

Lemma moved_attempted {A B} p q n (r : result A) (r' : result B) s' :
  moved p q (S n) r s' → p ≠ Idle → q ≠ Idle → (∀ b, r' ≠ Ok b) →
  attempted n r' s'.
Proof.
  intros [Hn Hp] Hpi Hqi Hno. split; [done|]. split.
  - destruct Hp as [->|[-> _]]; done.
  - intros b ->. by destruct (Hno b).
Qed.

Lemma uploaded_Ok n videoId s' :
  uploaded n (Ok videoId) s' → s' = (Uploaded (Some videoId), S n).
Proof.
  destruct s' as [p' n']. intros (Hn & i & Hp & Hid). simpl in *. subst.
  by rewrite (Hid videoId eq_refl).
Qed.

Lemma uploaded_attempted {B} n r (r' : result B) s' :
  uploaded n r s' → (∀ b, r' ≠ Ok b) → attempted n r' s'.
Proof.
  intros (Hn & i & Hp & _) Hno. split; [done|]. split.
  - by rewrite Hp.
  - intros b ->. by destruct (Hno b).
Qed.

Lemma task_created_Ok videoId n taskId s' :
  task_created videoId n (Ok taskId) s' → s' = (TaskCreated videoId (Some taskId), n).
Proof.
  destruct s' as [p' n']. intros [Hn [(i & Hp & Hid)|[_ Hno]]]; simpl in *.
  - subst. by rewrite (Hid taskId eq_refl).
  - by destruct (Hno taskId).
Qed.

Lemma task_created_attempted {B} videoId n r (r' : result B) s' :
  task_created videoId (S n) r s' → (∀ b, r' ≠ Ok b) → attempted n r' s'.
Proof.
  intros [Hn Hp] Hno. split; [done|]. split.
  - destruct Hp as [(i & -> & _)|[-> _]]; done.
  - intros b ->. by destruct (Hno b).
Qed.

Section FollowsRun.
Context (R : Remote).
Context (toUpperCase : string → string).
Context (path_parse : string → string * string * string).
Context (path_resolve : string → string → string).
Context (maxRetryAttempts : Z).

Lemma attempt_body_follows fuel params p n :
  follows R (p, n) (attempt_body R toUpperCase path_parse path_resolve fuel params)
    (attempted n).
Proof.
  unfold attempt_body.
  eapply follows_bind; [apply uploadVideo_follows| | |];
    [|intros; by eapply uploaded_attempted..].
  intros videoId s1 ->%uploaded_Ok.
  eapply follows_bind; [apply createCaptionTask_follows| | |];
    [|intros; by eapply task_created_attempted..].
  intros taskId s1 ->%task_created_Ok.
  eapply follows_bind; [apply waitForTranscription_follows| | |];
    [|intros; by eapply moved_attempted..].
  intros transcriptUrl s1 ->%moved_Ok.
  eapply follows_bind; [apply loadTranscript_follows| | |];
    [|intros; by eapply moved_attempted..].
  intros originalTranscript s1 ->%moved_Ok.
  eapply follows_bind; [apply correctTranscript_follows| | |];
    [|intros; by eapply moved_attempted..].
  intros correctedTranscript s1 ->%moved_Ok.
  eapply follows_bind; [apply applyTranscript_follows| | |];
    [|intros; by eapply moved_attempted..].
  intros _ s1 ->%moved_Ok.
  eapply follows_bind; [apply approveTranscript_follows| | |];
    [|intros; by eapply moved_attempted..].
  intros _ s1 ->%moved_Ok.
  eapply follows_bind; [apply waitForCompletedVideo_follows| | |];
    [|intros; by eapply moved_attempted..].
  intros downloadUrl s1 ->%moved_Ok.
  eapply follows_bind; [apply downloadFile_follows| | |];
    [|intros; by eapply moved_attempted..].
  intros _ s1 ->%moved_Ok.
  eapply follows_bind; [apply resampleAudioIfNeeded_follows| | |].
  - intros _ s1 ->. apply follows_ret. split; [done|]. split; [done|]. eauto.
  - intros e s1 ->. split; [done|]. split; done.
  - intros s1 ->. split; [done|]. split; done.
Qed.

Lemma attempt_loop_follows fuel params attempts : ∀ lastError p n,
  follows R (p, n)
    (attempt_loop R toUpperCase path_parse path_resolve maxRetryAttempts fuel params attempts lastError)
    (looped n (length attempts)).
Proof.
  induction attempts as [|attempt later IH]; intros lastError p n; simpl.
  { apply follows_throw. unfold looped. simpl. lia. }
  eapply follows_try_catch; [apply attempt_body_follows| | |].
  - intros e [p1 n1] (Hn & _ & _). simpl in Hn. subst n1.
    apply follows_emit_then with (p1, S n); [done|].
    eapply follows_bind with (Q1 := λ r s1, s1 = (p1, S n) ∧ r = Ok ()).
    + destruct (decide _); [unfold sleep; by apply follows_emit with (p1, S n)|].
      by apply follows_ret.
    + intros _ s1 [-> _]. eapply follows_conseq; [apply IH|].
      intros r [p2 n2] [Hb Hr]. unfold looped. simpl in *. split; [lia|].
      destruct r; simpl in *; [split; [lia|apply Hr] | lia | lia].
    + by intros e' s1 [_ ?].
    + by intros s1 [_ ?].
  - intros a [p1 n1] (Hn & _ & Hok). unfold looped. simpl in *. subst n1.
    split; [lia|]. split; [lia|]. by apply (Hok a).
  - intros [p1 n1] (Hn & _ & _). unfold looped. simpl in *. subst n1. split; lia.
Qed.

Lemma observe_uploads es : ∀ seen s s',
  observe R seen s es = Some s' → s'.2 = (s.2 + calls KUpload es)%nat.
Proof.
  induction es as [|e es IH]; intros seen s s' Hobs; simpl in Hobs.
  - simplify_eq. unfold calls. simpl. lia.
  - destruct (observe_step R seen s e) as [s1|] eqn:Hstep; [|done]. simpl in Hobs.
    rewrite (IH _ _ _ Hobs). unfold observe_step in Hstep.
    destruct (protocol_step R seen s.1 e) as [p1|]; [|done]. simpl in Hstep. simplify_eq.
    simpl. unfold calls. rewrite filter_cons.
    destruct (decide (kind_of e = KUpload)); simpl; lia.
Qed.

End FollowsRun.

Lemma bind_Ok {A B} (m : M A) (k : A → M B) w b w' :
  bind m k w = (Ok b, w') → ∃ a w1, m w = (Ok a, w1) ∧ k a w1 = (Ok b, w').
Proof.
  unfold bind. destruct (m w) as [[a|e|] w1]; [eauto|done|done].
Qed.

Ltac bind_inv H :=
  let a := fresh "a" in let w := fresh "w" in let Hm := fresh "Hm" in let Hk := fresh "Hk" in
  destruct (bind_Ok _ _ _ _ _ H) as (a & w & Hm & Hk); clear H; rename Hk into H.

Section Runs.
Context (R : Remote).
Context (toUpperCase : string → string).
Context (path_parse : string → string * string * string).
Context (path_resolve : string → string → string).
Context (maxRetryAttempts : Z).

Abbreviation createCaptionedVideo' :=
  (createCaptionedVideo R toUpperCase path_parse path_resolve maxRetryAttempts).

Lemma createCaptionedVideo_observed fuel params w :
  ∃ es s',
    trace (createCaptionedVideo' fuel params w).2 = (trace w ++ es)%list ∧
    observe R (trace w) (Idle, 0%nat) es = Some s' ∧
    if decide (is_Some (fs w !! outputPath params))
    then s' = (Idle, 0%nat) ∧ (createCaptionedVideo' fuel params w).1 = Ok (outputPath params)
    else looped 0 (Z.to_nat maxRetryAttempts) (createCaptionedVideo' fuel params w).1 s'.
Proof.
  unfold createCaptionedVideo. unfold bind at 1. unfold fileExists, bind, get_fs, ret. simpl.
  destruct (decide (is_Some (fs w !! outputPath params))) as [Hex|Hno].
  - rewrite bool_decide_eq_true_2 by done. unfold emit. simpl.
    eexists [_], (Idle, 0%nat). done.
  - rewrite bool_decide_eq_false_2 by done.
    destruct (attempt_loop_follows R toUpperCase path_parse path_resolve maxRetryAttempts
                fuel params (seqZ 1 maxRetryAttempts) None Idle 0%nat w)
      as (es & s' & Htr & Hobs & HQ).
    rewrite length_seqZ in HQ. exists es, s'. done.
Qed.


(** X9. In every environment a run of [createCaptionedVideo] uploads at most
    [maxRetryAttempts] times (not at all when that number is below one), one
    upload per attempt. When the run throws, whatever made the attempts fail,
    it has used all of them; when it returns it has found the file at the
    start and uploaded nothing, or has uploaded at least once. *)
Theorem createCaptionedVideo_attempt_bound fuel params w :
  let run := createCaptionedVideo' fuel params w in
  let uploads := (calls KUpload (trace run.2) - calls KUpload (trace w))%nat in
  (uploads ≤ Z.to_nat maxRetryAttempts)%nat ∧
  match run.1 with
  | Throw _ => uploads = Z.to_nat maxRetryAttempts
  | Pending => (1 ≤ uploads)%nat
  | Ok _ => if decide (is_Some (fs w !! outputPath params))
            then uploads = 0%nat else (1 ≤ uploads)%nat
  end.
Proof.
  intros run uploads. subst run uploads.
  destruct (createCaptionedVideo_observed fuel params w) as (es & s' & Htr & Hobs & HQ).
  rewrite Htr, calls_app. apply observe_uploads in Hobs. simpl in Hobs.
  replace (calls KUpload (trace w) + calls KUpload es - calls KUpload (trace w))%nat
    with (calls KUpload es) by lia.
  rewrite <- Hobs.
  destruct (decide (is_Some (fs w !! outputPath params))).
  - destruct HQ as [-> ->]. simpl. lia.
  - destruct HQ as [Hb Hr].
    destruct ((createCaptionedVideo' fuel params w).1); simpl in *; lia.
Qed.

(** A download that succeeds leaves a file at the output path. *)
Lemma downloadFile_Ok url out w p w' :
  downloadFile R url out w = (Ok p, w') → p = out ∧ is_Some (fs w' !! out).
Proof.
  unfold downloadFile. unfold_M. simpl.
  destruct (get_download R _); simpl; intros Hrun; simplify_eq.
  split; [done|]. simpl. rewrite lookup_insert_eq. eauto.
Qed.

(** A normalisation that succeeds returns the path it was given, with a file
    at it when there was one. *)
Lemma resampleAudioIfNeeded_Ok filePath targetRate w p w' :
  resampleAudioIfNeeded R path_parse path_resolve filePath targetRate w = (Ok p, w') →
  is_Some (fs w !! filePath) →
  p = filePath ∧ is_Some (fs w' !! filePath).
Proof.
  unfold resampleAudioIfNeeded. intros Hrun Hfile.
  apply bind_Ok in Hrun as (rate & w1 & Hprobe & Hrun).
  assert (Hfs1 : fs w1 = fs w).
  { unfold getAudioSampleRate in Hprobe. unfold_M. simpl in Hprobe.
    destruct (run_ffprobe R _) as [[| |[]]|]; simpl in Hprobe; by simplify_eq. }
  destruct (decide (rate = targetRate)).
  { unfold ret in Hrun. simplify_eq. by rewrite Hfs1. }
  apply bind_Ok in Hrun as (? & w2 & _ & Hrun).
  apply bind_Ok in Hrun as (? & w3 & _ & Hrun).
  apply bind_Ok in Hrun as (? & w4 & Hren & Hrun).
  unfold ret in Hrun. injection Hrun as Hp Hw. subst p w'. split; [done|].
  unfold rename in Hren. unfold_M. simpl in Hren.
  destruct (fs_rename R _); simpl in Hren; [|done].
  destruct (fs w3 !! _); simpl in Hren; [|done].
  simplify_eq. simpl. rewrite lookup_insert_eq. eauto.
Qed.

Lemma attempt_body_Ok fuel params w p w' :
  attempt_body R toUpperCase path_parse path_resolve fuel params w = (Ok p, w') →
  p = outputPath params ∧ is_Some (fs w' !! outputPath params).
Proof.
  unfold attempt_body. intros Hrun.
  do 8 (bind_inv Hrun).
  destruct (bind_Ok _ _ _ _ _ Hrun) as (? & w9 & Hdl & Hrun1).
  destruct (bind_Ok _ _ _ _ _ Hrun1) as (? & w10 & Hres & Hrun2).
  unfold ret in Hrun2. injection Hrun2 as Hp Hw. subst p w'. split; [done|].
  apply downloadFile_Ok in Hdl as [_ Hfile].
  by destruct (resampleAudioIfNeeded_Ok _ _ _ _ _ Hres Hfile).
Qed.

Lemma attempt_loop_Ok fuel params attempts : ∀ lastError w p w',
  attempt_loop R toUpperCase path_parse path_resolve maxRetryAttempts fuel params
    attempts lastError w = (Ok p, w') →
  p = outputPath params ∧ is_Some (fs w' !! outputPath params).
Proof.
  induction attempts as [|attempt later IH]; intros lastError w p w' Hrun; simpl in Hrun.
  { by unfold throw in Hrun. }
  unfold try_catch in Hrun.
  destruct (attempt_body _ _ _ _ _ _ w) as [[a|e|] w1] eqn:Hbody.
  - simplify_eq. by apply attempt_body_Ok in Hbody.
  - apply bind_Ok in Hrun as (? & w2 & _ & Hrun).
    apply bind_Ok in Hrun as (? & w3 & _ & Hrun).
    by apply IH in Hrun.
  - done.
Qed.

(** X10. What [createCaptionedVideo] returns is [outputPath], and a file is
    then at that path: a second call in the world it left, in any environment,
    returns at once with the console line and nothing else. *)
Theorem createCaptionedVideo_returns_output fuel params w path w' :
  createCaptionedVideo' fuel params w = (Ok path, w') →
  path = outputPath params ∧
  is_Some (fs w' !! outputPath params) ∧
  ∀ R' fuel',
    createCaptionedVideo R' toUpperCase path_parse path_resolve maxRetryAttempts
      fuel' params w' =
      (Ok (outputPath params),
       log w' [ConsoleLog ("[captions] File already exists: " ++ outputPath params)]).
Proof.
  intros Hrun.
  assert (Hpost : path = outputPath params ∧ is_Some (fs w' !! outputPath params)).
  { unfold createCaptionedVideo in Hrun.
    apply bind_Ok in Hrun as (present & w1 & Hex & Hrun).
    unfold fileExists in Hex. unfold_M. simpl in Hex. simplify_eq.
    destruct (bool_decide (is_Some (fs w1 !! outputPath params))) eqn:Hb.
    - apply bool_decide_eq_true_1 in Hb. unfold bind, emit, ret in Hrun. simpl in Hrun.
      by simplify_eq.
    - by apply attempt_loop_Ok in Hrun. }
  destruct Hpost as [-> Hfile]. split; [done|]. split; [done|].
  intros R' fuel'. unfold createCaptionedVideo. unfold_M. simpl.
  by rewrite bool_decide_eq_true_2.
Qed.

(** X11. With [maxRetryAttempts] below one and no file at [outputPath], the
    loop body never runs: [createCaptionedVideo] throws the aggregated error
    with the text of [undefined] as its cause, and the world is as it was (no
    upload, no sleep, no console line). *)
Theorem createCaptionedVideo_no_attempt fuel params w :
  (maxRetryAttempts ≤ 0)%Z →
  fs w !! outputPath params = None →
  createCaptionedVideo' fuel params w =
    (Throw (Error "Failed to create captioned video after retries: undefined"), w).
Proof.
  intros Hmax Hnone. unfold createCaptionedVideo. unfold_M. simpl.
  rewrite bool_decide_eq_false_2 by (rewrite Hnone; by intros [? ?]).
  assert (seqZ 1 maxRetryAttempts = []) as ->.
  { apply length_zero_iff_nil. rewrite length_seqZ. lia. }
  destruct w. reflexivity.
Qed.

End Runs.

(** ** Identifiers that the provider sends *)

Lemma missing_false value : missing value = false → ∃ s, value = Some s ∧ s ≠ "".
Proof. destruct value as [[|c s]|]; try done. intros _. eauto. Qed.

Section ClientProperties.
Context (R : Remote).
Context (toUpperCase : string → string).

(** X12. [uploadVideo] makes one upload request whatever comes of it. The
    identifier it returns is not empty and is the [id] of the response to that
    request; a response without an [id], or with an empty one, makes it throw
    ["Zapcap upload response does not contain video id"]. *)
Theorem uploadVideo_sound videoPath w :
  (uploadVideo R videoPath w).2 = log w [UploadVideo videoPath] ∧
  match (uploadVideo R videoPath w).1 with
  | Ok videoId =>
      videoId ≠ "" ∧ post_videos R (calls KUpload (trace w)) = Reply (Some videoId)
  | Throw e =>
      post_videos R (calls KUpload (trace w)) = Fails e ∨
      (e = Error "Zapcap upload response does not contain video id" ∧
       (post_videos R (calls KUpload (trace w)) = Reply None ∨
        post_videos R (calls KUpload (trace w)) = Reply (Some "")))
  | Pending => False
  end.
Proof.
  unfold uploadVideo. unfold_M. simpl.
  destruct (post_videos R _) as [id|e]; simpl; [|by split; [|left]].
  destruct (missing id) eqn:Hm; simpl.
  - split; [done|]. right. split; [done|].
    destruct id as [[|c s]|]; try done; eauto.
  - split; [done|]. apply missing_false in Hm as (s & -> & Hs). done.
Qed.

(** X13. A task identifier that [createCaptionTask] returns is not empty and
    is the [taskId] of the response to the one request it made, and that
    request carried the video identifier and the entry of
    [languageToZapcapCode] for the upper-cased language. *)
Theorem createCaptionTask_sound videoId language w taskId w' :
  createCaptionTask R toUpperCase videoId language w = (Ok taskId, w') →
  taskId ≠ "" ∧
  post_task R (calls KTask (trace w)) = Reply (Some taskId) ∧
  ∃ languageCode,
    languageCodeOf (toUpperCase language) = Some languageCode ∧
    w' = log w [CreateTask videoId languageCode].
Proof.
  unfold createCaptionTask. intros Hrun.
  destruct (languageCodeOf (toUpperCase language)) as [code|] eqn:Hcode; [|done].
  destruct (falsy (Some code)); [done|].
  unfold_M. simpl in Hrun.
  destruct (post_task R _) as [id|e]; simpl in Hrun; [|done].
  destruct (missing id) eqn:Hm; simpl in Hrun; [done|].
  apply missing_false in Hm as (s & -> & Hs). simpl in Hrun.
  injection Hrun as <- <-. split; [done|]. split; [done|]. eauto.
Qed.

End ClientProperties.

(** * Waiting for a URL *)

Lemma heads_app a b : Http.heads (a ++ b) = (Http.heads a + Http.heads b)%nat.
Proof. unfold Http.heads. by rewrite filter_app, length_app. Qed.

Lemma rounds_S url intervalMs n :
  Http.rounds url intervalMs (S n) =
    ([Http.Head url; Http.Wait intervalMs] ++ Http.rounds url intervalMs n)%list.
Proof. done. Qed.

Lemma heads_rounds url intervalMs n : Http.heads (Http.rounds url intervalMs n) = n.
Proof.
  induction n as [|n IH]; [done|].
  rewrite rounds_S, heads_app, IH. done.
Qed.

(** The loop goes past the attempts whose request fails, as long as they are
    not the last one allowed. *)
Lemma waitForUrlAvailability_loop_skip head url maxAttempts intervalMs before :
  ∀ rest sofar,
  Forall (λ attempt, attempt ≠ maxAttempts) before →
  (∀ j, (j < length before)%nat → ∃ e, head (Http.heads sofar + j)%nat = Fails e) →
  Http.waitForUrlAvailability_loop head url maxAttempts intervalMs (before ++ rest) sofar =
  Http.waitForUrlAvailability_loop head url maxAttempts intervalMs rest
    (sofar ++ Http.rounds url intervalMs (length before)).
Proof.
  induction before as [|attempt before IH]; intros rest sofar Hne Hfail; simpl.
  { by rewrite app_nil_r. }
  apply Forall_cons in Hne as [Hne Hrest].
  destruct (Hfail 0%nat ltac:(simpl; lia)) as [e He]. rewrite Nat.add_0_r in He.
  rewrite He. rewrite decide_False by done.
  rewrite IH; [|done|].
  - rewrite rounds_S. by rewrite <- app_assoc.
  - intros j Hj. rewrite heads_app. unfold Http.heads at 2. simpl.
    replace (Http.heads sofar + 1 + j)%nat with (Http.heads sofar + S j)%nat by lia.
    apply Hfail. simpl. lia.
Qed.

Lemma seqZ_split (n : nat) (m : Z) :
  (Z.of_nat n < m)%Z →
  seqZ 1 m =
    (seqZ 1 (Z.of_nat n) ++
     (Z.of_nat n + 1) :: seqZ (Z.of_nat n + 2) (m - Z.of_nat n - 1))%list.
Proof.
  intros Hn. replace m with (Z.of_nat n + (1 + (m - Z.of_nat n - 1))) at 1 by lia.
  rewrite seqZ_app by lia. f_equal.
  rewrite seqZ_app by lia. replace (1 + Z.of_nat n) with (Z.of_nat n + 1) by lia.
  replace (Z.of_nat n + 1 + 1) with (Z.of_nat n + 2) by lia.
  f_equal.
Qed.

(** X14. When the first [n] requests fail and the next one succeeds, with
    [n] below the integer [maxAttempts], [waitForUrlAvailability] returns
    after exactly [n + 1] HEAD requests with a sleep of [intervalMs] after
    each of the failed ones, and no sleep after the one that succeeded. *)
Theorem waitForUrlAvailability_available head url maxAttempts intervalMs sofar n u :
  (∀ j, (j < n)%nat → ∃ e, head (Http.heads sofar + j)%nat = Fails e) →
  head (Http.heads sofar + n)%nat = Reply u →
  (Z.of_nat n < maxAttempts)%Z →
  Http.waitForUrlAvailability head url maxAttempts intervalMs sofar =
    (Ok (), (sofar ++ Http.rounds url intervalMs n ++ [Http.Head url])%list).
Proof.
  intros Hfail Hok Hn. unfold Http.waitForUrlAvailability.
  rewrite (seqZ_split n) by done.
  rewrite waitForUrlAvailability_loop_skip.
  - rewrite length_seqZ, Nat2Z.id. simpl.
    rewrite heads_app, heads_rounds, Hok. by rewrite <- app_assoc.
  - apply Forall_forall. intros a Ha. apply elem_of_seqZ in Ha. lia.
  - rewrite length_seqZ, Nat2Z.id. done.
Qed.

(** X15. When all of the [maxAttempts] requests fail, for an integer
    [maxAttempts] of at least one, [waitForUrlAvailability] throws
    ["URL is not available after <maxAttempts> attempts: <url>"] (the cause
    of the last failure is dropped) after exactly [maxAttempts] HEAD
    requests; it has slept [intervalMs] after each of them but the last. *)
Theorem waitForUrlAvailability_exhausted head url maxAttempts intervalMs sofar :
  (1 ≤ maxAttempts)%Z →
  (∀ j, (j < Z.to_nat maxAttempts)%nat → ∃ e, head (Http.heads sofar + j)%nat = Fails e) →
  Http.waitForUrlAvailability head url maxAttempts intervalMs sofar =
    (Throw (Error ("URL is not available after " ++ pretty maxAttempts ++ " attempts: " ++ url)),
     (sofar ++ Http.rounds url intervalMs (Z.to_nat maxAttempts - 1) ++ [Http.Head url])%list).
Proof.
  intros Hmax Hfail. unfold Http.waitForUrlAvailability.
  rewrite (seqZ_split (Z.to_nat maxAttempts - 1)) by lia.
  rewrite waitForUrlAvailability_loop_skip.
  - rewrite length_seqZ, Nat2Z.id. simpl.
    rewrite heads_app, heads_rounds.
    destruct (Hfail (Z.to_nat maxAttempts - 1)%nat ltac:(lia)) as [e He]. rewrite He.
    rewrite decide_True by lia. by rewrite <- app_assoc.
  - apply Forall_forall. intros a Ha. apply elem_of_seqZ in Ha. lia.
  - rewrite length_seqZ, Nat2Z.id. intros j Hj. apply Hfail. lia.
Qed.

(** X16. With [maxAttempts] below one, [waitForUrlAvailability] returns as
    if the URL were available, without a single request. *)
Theorem waitForUrlAvailability_no_request head url maxAttempts intervalMs sofar :
  (maxAttempts ≤ 0)%Z →
  Http.waitForUrlAvailability head url maxAttempts intervalMs sofar = (Ok (), sofar).
Proof.
  intros Hmax. unfold Http.waitForUrlAvailability.
  assert (seqZ 1 maxAttempts = []) as ->; [|done].
  apply length_zero_iff_nil. rewrite length_seqZ. lia.
Qed.

(** * The videos and languages of a run *)

Lemma split_pieces_whole separator value :
  includes separator value = false → split_pieces separator value = (value, []).
Proof.
  induction value as [|c rest IH]; [done|]. simpl.
  destruct (decide (c = separator)); [done|]. intros H. by rewrite IH.
Qed.

Lemma split_pieces_app separator value rest :
  includes separator value = false →
  split_pieces separator (value ++ String separator rest) = (value, split separator rest).
Proof.
  induction value as [|c value IH]; simpl.
  - intros _. unfold split. destruct (split_pieces separator rest).
    by rewrite decide_True.
  - destruct (decide (c = separator)); [done|]. intros H. by rewrite IH.
Qed.

(** Splitting what [join] made gives the pieces back. *)
Lemma split_join items :
  items ≠ [] → Forall (λ item, includes "," item = false) items →
  split "," (join_comma items) = items.
Proof.
  intros Hne Hall. induction Hall as [|item items Hitem Hitems IH]; [done|].
  destruct items as [|item' items].
  - unfold split, join_comma. simpl. by rewrite split_pieces_whole.
  - unfold split, join_comma in *. simpl String.concat.
    change ("," ++ ?s) with (String "," s).
    rewrite split_pieces_app by done. f_equal. unfold split. by apply IH.
Qed.

Lemma filter_all {A} (P : A → Prop) `{!∀ x, Decision (P x)} (l : list A) :
  Forall P l → filter P l = l.
Proof.
  induction 1 as [|x l Hx Hl IH]; [done|]. rewrite filter_cons_True by done. by rewrite IH.
Qed.

Lemma join_comma_nonempty items :
  items ≠ [] → Forall (λ item, item ≠ "") items → join_comma items ≠ "".
Proof.
  intros Hne Hall. destruct Hall as [|x l Hx _]; [done|].
  unfold join_comma. destruct x as [|c x]; [done|]. simpl. by destruct l.
Qed.

Lemma startsWith_slice value :
  startsWith "--" value = true → value = "--" ++ slice 2 value.
Proof.
  unfold startsWith. destruct value as [|c1 [|c2 rest]]; [done| |]; cbn [String.prefix].
  - by destruct (Ascii.ascii_dec "-" c1).
  - destruct (Ascii.ascii_dec "-" c1) as [<-|]; [|done].
    destruct (Ascii.ascii_dec "-" c2) as [<-|]; [|done]. done.
Qed.

Lemma given_cons flag rawArguments key value :
  given rawArguments key value → given (flag :: rawArguments) key value.
Proof. intros (i & ? & ?). by exists (S i). Qed.

Lemma parseCliArguments_from_sound (n : nat) : ∀ rawArguments argumentsMap key value,
  (length rawArguments ≤ n)%nat →
  parseCliArguments_from rawArguments argumentsMap !! key = Some value →
  argumentsMap !! key = Some value ∨
  (given rawArguments key value ∧ value ≠ "" ∧ startsWith "--" value = false ∧
   key ≠ "__proto__").
Proof.
  induction n as [|n IH]; intros rawArguments argumentsMap key value Hn.
  { destruct rawArguments; [by left|simpl in Hn; lia]. }
  destruct rawArguments as [|flag rest]; [by left|]. simpl in Hn.
  assert (Hrest : parseCliArguments_from rest argumentsMap !! key = Some value →
    argumentsMap !! key = Some value ∨
    (given (flag :: rest) key value ∧ value ≠ "" ∧ startsWith "--" value = false ∧
     key ≠ "__proto__")).
  { intros H. apply IH in H as [H|(H & ?)]; [by left| |lia]. right. split; [|done].
    by apply given_cons. }
  simpl. destruct (decide (flag = "")); [done|].
  destruct (startsWith "--" flag) eqn:Hflag; simpl; [|done].
  destruct rest as [|nextValue after]; [by left|].
  destruct (decide (nextValue = "")); [done|].
  destruct (startsWith "--" nextValue) eqn:Hnext; [done|].
  clear Hrest. intros H. simpl in Hn.
  apply IH in H as [H|(H & ?)]; [| |lia].
  - revert H. unfold assign_string. case_decide as Hkey; [by left|].
    intros H. apply lookup_insert_Some in H as [[<- <-]|[_ H]]; [|by left].
    right. split_and!; try done. exists 0%nat. split; [|done].
    change ((flag :: nextValue :: after) !! 0%nat) with (Some flag). f_equal.
    by apply startsWith_slice.
  - right. split; [|done]. by do 2 apply given_cons.
Qed.

(** X17. A value that [parseCliArguments] stores under [key] was given on the
    command line: the flag [--key] is among the arguments and the value is
    the argument right after it; the value is not empty and is not a flag
    itself. The key is never ["__proto__"]. *)
Theorem parseCliArguments_sound rawArguments key value :
  parseCliArguments rawArguments !! key = Some value →
  given rawArguments key value ∧ value ≠ "" ∧ startsWith "--" value = false ∧
  key ≠ "__proto__".
Proof.
  intros H. apply (parseCliArguments_from_sound (length rawArguments)) in H as [H|H]; done.
Qed.

Section OptionsProperties.
Context (trim : string → string).
Context (toUpperCase : string → string).
Context (env : gmap string string).

Lemma csvEntries_join items :
  items ≠ [] → Forall (plain trim) items → csvEntries trim (join_comma items) = items.
Proof.
  intros Hne Hall. unfold csvEntries. rewrite split_join; [|done|].
  - assert (trim <$> items = items) as ->.
    { clear Hne. induction Hall as [|x l (_ & Hx & _) _ IH]; [done|].
      by rewrite fmap_cons, Hx, IH. }
    apply filter_all. eapply Forall_impl; [exact Hall|]. by intros x (? & _).
  - eapply Forall_impl; [exact Hall|]. by intros x (_ & _ & ?).
Qed.

Lemma plain_nonempty items : Forall (plain trim) items → Forall (λ item, item ≠ "") items.
Proof. intros Hall. eapply Forall_impl; [exact Hall|]. by intros x (? & _). Qed.

Lemma parseCsvList_join_plain items :
  Forall (plain trim) items → parseCsvList trim (Some (join_comma items)) = items.
Proof.
  intros Hall. destruct items as [|item items]; [done|].
  unfold parseCsvList.
  destruct (join_comma (item :: items)) eqn:E.
  - exfalso. eapply (join_comma_nonempty (item :: items)); [done| |exact E].
    by apply plain_nonempty.
  - rewrite <- E. by apply csvEntries_join.
Qed.

(** X18. [parseCsvList] undoes [join(",")]: entries that are not empty, hold
    no comma and have nothing for [trim] to remove come back as they were,
    in order and with their repetitions. *)
Theorem parseCsvList_join items :
  Forall (plain trim) items → parseCsvList trim (Some (join_comma items)) = items.
Proof. apply parseCsvList_join_plain. Qed.

Lemma csvEntries_nonempty value : Forall (λ item, item ≠ "") (csvEntries trim value).
Proof.
  unfold csvEntries. apply Forall_forall. intros x Hx.
  by apply list_elem_of_filter in Hx as [? _].
Qed.

Lemma parseCsvList_nonempty value : Forall (λ item, item ≠ "") (parseCsvList trim value).
Proof.
  destruct value as [[|c s]|]; simpl; try by constructor.
  apply csvEntries_nonempty.
Qed.

Lemma readCsvEnv_nonempty name : Forall (λ item, item ≠ "") (readCsvEnv trim env name).
Proof.
  unfold readCsvEnv. destruct (decide _); [by constructor|]. apply csvEntries_nonempty.
Qed.

(** X19. The options that [buildPipelineOptions] returns have at least one
    video, no empty video identifier and at least one language; videos given
    on the command line win over [DEFAULT_VIDEOS], which is used when the
    command line gives none. It throws only
    ["No videos specified. ..."], and only when neither the command line nor
    [DEFAULT_VIDEOS] gives an entry; languages never make it throw. *)
Theorem buildPipelineOptions_outcome cliArguments :
  let videos := parseCsvList trim (cliArguments !! "videos") in
  match buildPipelineOptions trim toUpperCase env cliArguments with
  | Ok options =>
      videoIds options ≠ [] ∧ Forall (λ video, video ≠ "") (videoIds options) ∧
      languages options ≠ [] ∧
      (videos ≠ [] → videoIds options = videos) ∧
      (videos = [] → videoIds options = readCsvEnv trim env "DEFAULT_VIDEOS")
  | Throw e =>
      e = Error "No videos specified. Pass --videos video_1,video_2 or set DEFAULT_VIDEOS in .env" ∧
      videos = [] ∧ readCsvEnv trim env "DEFAULT_VIDEOS" = []
  | Pending => False
  end.
Proof.
  intros videos. unfold buildPipelineOptions. fold videos.
  pose proof (parseCsvList_nonempty (cliArguments !! "videos")) as Hv. fold videos in Hv.
  pose proof (readCsvEnv_nonempty "DEFAULT_VIDEOS") as Hd.
  assert (Hlanguages : ∀ cli defaults : list string,
    (if decide (0 < length cli)%nat then cli
     else if decide (0 < length defaults)%nat then defaults else ["RUSSIAN"]) ≠ []).
  { intros cli defaults. repeat case_decide; try done; intros E; rewrite E in *; simpl in *; lia. }
  destruct (decide (0 < length videos)%nat) as [Hlen|Hlen].
  - assert (videos ≠ []) as Hsome by (intros E; rewrite E in Hlen; simpl in Hlen; lia).
    rewrite decide_False by lia. simpl.
    split_and!; [done|done|apply Hlanguages|done|done].
  - assert (videos = []) as Hnil by (destruct videos; [done|simpl in Hlen; lia]).
    simpl. case_decide as Hdef.
    + split_and!; [done|done|]. by apply length_zero_iff_nil.
    + simpl. split_and!; [|done|apply Hlanguages|by rewrite Hnil|done].
      intros E. by rewrite E in Hdef.
Qed.

(** X20. From the command line to the options: for
    [--videos v1,v2,... --languages l1,l2,...] with at least one video and one
    language, each of them plain (not empty, without a comma, nothing to
    trim), and neither list starting with ["--"], the options are these
    videos and these languages in upper case, whatever the environment
    holds. *)
Theorem buildPipelineOptions_of_command_line videos languages :
  videos ≠ [] → languages ≠ [] →
  Forall (plain trim) videos → Forall (plain trim) languages →
  startsWith "--" (join_comma videos) = false →
  startsWith "--" (join_comma languages) = false →
  buildPipelineOptions trim toUpperCase env
    (parseCliArguments ["--videos"; join_comma videos; "--languages"; join_comma languages]) =
  Ok (Build_PipelineOptions videos (toUpperCase <$> languages)).
Proof.
  intros Hv Hl Hvs Hls Hvflag Hlflag.
  assert (Hvne : join_comma videos ≠ "").
  { apply join_comma_nonempty; [done|]. by apply plain_nonempty. }
  assert (Hlne : join_comma languages ≠ "").
  { apply join_comma_nonempty; [done|]. by apply plain_nonempty. }
  unfold parseCliArguments. simpl.
  rewrite (decide_False (P := join_comma videos = "")) by done. rewrite Hvflag.
  rewrite (decide_False (P := join_comma languages = "")) by done. rewrite Hlflag.
  unfold buildPipelineOptions, assign_string. simpl.
  rewrite lookup_insert_ne by done. rewrite !lookup_insert_eq.
  rewrite !parseCsvList_join_plain by done.
  assert (0 < length videos)%nat by (destruct videos; [done|simpl; lia]).
  assert (0 < length (toUpperCase <$> languages))%nat
    by (destruct languages; [done|simpl; lia]).
  rewrite (decide_True (P := (0 < length videos)%nat)) by done.
  rewrite (decide_True (P := (0 < length (toUpperCase <$> languages))%nat)) by done.
  rewrite decide_False by lia.
  done.
Qed.

End OptionsProperties.

(** * The schema of the generated texts *)

Set Warnings "-clear-no-such-hyp".

Lemma String_length_app (a b : string) :
  String.length (a ++ b) = (String.length a + String.length b)%nat.
Proof. induction a as [|c a IH]; simpl; [done|]. by rewrite IH. Qed.

Lemma titleProperty_own language : titleProperty language ≠ "__proto__".
Proof.
  intros E. apply (f_equal String.length) in E. unfold titleProperty in E.
  rewrite String_length_app in E. simpl in E. lia.
Qed.

Lemma descriptionProperty_own language : descriptionProperty language ≠ "__proto__".
Proof.
  intros E. apply (f_equal String.length) in E. unfold descriptionProperty in E.
  rewrite String_length_app in E. simpl in E. lia.
Qed.

Lemma dom_assign_object {V} key (value : V) object :
  key ≠ "__proto__" → dom (assign_object key value object) = {[ key ]} ∪ dom object.
Proof.
  intros Hkey. unfold assign_object. rewrite decide_False by done. by rewrite dom_insert_L.
Qed.

Lemma dom_addLanguageProperties properties language :
  language ≠ "__proto__" →
  dom (addLanguageProperties properties language) =
    {[ language; titleProperty language; descriptionProperty language ]} ∪ dom properties.
Proof.
  intros Hl. unfold addLanguageProperties.
  rewrite !dom_assign_object by (done || apply titleProperty_own || apply descriptionProperty_own).
  set_solver.
Qed.

Lemma dom_foldl_addLanguageProperties languages : ∀ properties,
  ("__proto__" ∉ languages) →
  dom (foldl addLanguageProperties properties languages) =
    dom properties ∪ list_to_set (requiredProperties languages).
Proof.
  unfold requiredProperties.
  induction languages as [|language languages IH]; intros properties Hproto; simpl.
  { set_solver. }
  apply not_elem_of_cons in Hproto as [Hne Hrest].
  rewrite IH by done. rewrite dom_addLanguageProperties by done.
  rewrite !list_to_set_app_L. simpl. set_solver.
Qed.

(** X21. The schema sent to the model is consistent: the properties it
    declares are exactly the ones it lists as required (a text, a title and a
    description for each language), provided no language is ["__proto__"],
    a key that an assignment does not turn into a property. *)
Theorem schemaProperties_required languages :
  ("__proto__" ∉ languages) →
  dom (schemaProperties languages) = list_to_set (requiredProperties languages).
Proof.
  intros Hproto. unfold schemaProperties.
  rewrite dom_foldl_addLanguageProperties by done. set_solver.
Qed.

(** * Rendering and captioning the languages of a video *)

Section PipelineProperties.
Context (R : Remote).
Context (toUpperCase : string → string).
Context (path_parse : string → string * string * string).
Context (path_resolve : string → string → string).
Context (maxRetryAttempts : Z).
Context (renderLanguageVideo : string → M string).
Context (renderedVideoPath captionedVideoPath : string → string).
Context (generatedTexts : string → option string).

Abbreviation captionLanguages' :=
  (captionLanguages R toUpperCase path_parse path_resolve maxRetryAttempts
     renderLanguageVideo renderedVideoPath captionedVideoPath generatedTexts).

(** The loop over a list is the loop over its first languages and then, when
    that returned, the loop over the others. *)
Lemma captionLanguages_app fuel before after w :
  captionLanguages' fuel (before ++ after)%list w =
    match captionLanguages' fuel before w with
    | (Ok _, w') => captionLanguages' fuel after w'
    | (Throw e, w') => (Throw e, w')
    | (Pending, w') => (Pending, w')
    end.
Proof.
  revert w. induction before as [|language before IH]; intros w; [done|].
  cbn [captionLanguages app]. unfold bind.
  destruct (renderLanguageVideo language w) as [[video| |] w1]; [|done|done].
  destruct (missing (generatedTexts language)); [done|].
  destruct (createCaptionedVideo _ _ _ _ _ _ _ w1) as [[out| |] w2]; [|done|done].
  apply IH.
Qed.

(** X22. One language whose captions fail ends the video: when the languages
    before it went through, its render succeeded, its text is there and
    [createCaptionedVideo] throws, the loop throws that error in the world
    that call left, and nothing is rendered or captioned for the languages
    after it. *)
Theorem captionLanguages_stops_at_failure fuel before language after w w1 w2 w3 video e :
  captionLanguages' fuel before w = (Ok (), w1) →
  renderLanguageVideo language w1 = (Ok video, w2) →
  missing (generatedTexts language) = false →
  createCaptionedVideo R toUpperCase path_parse path_resolve maxRetryAttempts fuel
    {| sourceVideoPath := renderedVideoPath language;
       outputPath := captionedVideoPath language;
       language := language;
       originalText := default "" (generatedTexts language) |} w2 = (Throw e, w3) →
  captionLanguages' fuel (before ++ language :: after)%list w = (Throw e, w3).
Proof.
  intros Hbefore Hrender Htext Hcaption.
  rewrite captionLanguages_app, Hbefore. cbn [captionLanguages].
  unfold bind. by rewrite Hrender, Htext, Hcaption.
Qed.

(** X24. When the loop returns, every language had a generated text. *)
Theorem captionLanguages_texts_present fuel languages w w' :
  captionLanguages' fuel languages w = (Ok (), w') →
  Forall (λ language, missing (generatedTexts language) = false) languages.
Proof.
  revert w. induction languages as [|language languages IH]; intros w Hrun; [constructor|].
  cbn [captionLanguages] in Hrun. unfold bind in Hrun.
  destruct (renderLanguageVideo language w) as [[video| |] w1]; [|done|done].
  destruct (missing (generatedTexts language)) eqn:Htext; [done|].
  destruct (createCaptionedVideo _ _ _ _ _ _ _ w1) as [[out| |] w2]; [|done|done].
  constructor; [done|]. by eapply IH.
Qed.

End PipelineProperties.

Section ProcessVideoProperties.
Context (R : Remote).
Context (toUpperCase : string → string).
Context (path_parse : string → string * string * string).
Context (path_resolve : string → string → string).
Context (maxRetryAttempts : Z).
Context (generateVoiceover : string → string → string → M string).
Context (voiceoverPath : string → string).
Context (uploadVideoAssets : list string → M string).
Context (renderLanguageVideo : string → string → M string).
Context (renderedVideoPath captionedVideoPath : string → string).
Context (generatedTexts : string → option string).

Abbreviation generateVoiceovers' :=
  (generateVoiceovers generateVoiceover voiceoverPath generatedTexts).

(** The voiceovers of a list are those of its first languages and then, when
    they were generated, those of the others. *)
Lemma generateVoiceovers_app before after w :
  generateVoiceovers' (before ++ after)%list w =
    match generateVoiceovers' before w with
    | (Ok _, w') => generateVoiceovers' after w'
    | (Throw e, w') => (Throw e, w')
    | (Pending, w') => (Pending, w')
    end.
Proof.
  revert w. induction before as [|language before IH]; intros w; [done|].
  cbn [generateVoiceovers app].
  destruct (missing (generatedTexts language)); [done|]. unfold bind.
  destruct (generateVoiceover _ _ _ w) as [[out| |] w1]; [|done|done].
  apply IH.
Qed.

(** X23. A language without a generated text stops [processVideo] before
    anything is uploaded or rendered: [generateVoiceovers], which runs before
    the loop that renders and captions and makes the same test on the same
    texts, throws ["No generated text found for language: <language>"] once
    the voiceovers of the languages before it are generated, in the world
    that the last of them left. The test in the loop comes too late to be the
    one that finds it. *)
Theorem processVideo_missing_text fuel before language after w w1 :
  generateVoiceovers' before w = (Ok (), w1) →
  missing (generatedTexts language) = true →
  processVideo_outputs R toUpperCase path_parse path_resolve maxRetryAttempts
    generateVoiceover voiceoverPath uploadVideoAssets renderLanguageVideo
    renderedVideoPath captionedVideoPath generatedTexts
    fuel (before ++ language :: after)%list w =
    (Throw (Error ("No generated text found for language: " ++ language)), w1).
Proof.
  intros Hbefore Htext. unfold processVideo_outputs. unfold bind at 1.
  rewrite generateVoiceovers_app, Hbefore. cbn [generateVoiceovers].
  by rewrite Htext.
Qed.

End ProcessVideoProperties.

(** * The added properties on concrete runs *)

(** The second probe reports ["completed"]: the loop returns that payload
    after two probes and one sleep. *)
Lemma waitForTaskStatus_returns_target_witness :
  ∃ w',
    waitForTaskStatus (provider [processing_status; completed_status]) 5
        "video-1" "task-1" ["completed"] "RUSSIAN" empty_world =
      (Ok completed_status, w') ∧
    remote_calls (trace w') = [GetTask "video-1" "task-1"; GetTask "video-1" "task-1"] ∧
    sleeps (trace w') = [2000] ∧
    last (trace w') = Some (ConsoleLog "[captions] RUSSIAN: completed").
Proof.
  destruct (waitForTaskStatus_returns_target (provider [processing_status; completed_status])
              1 5 "video-1" "task-1" ["completed"] "RUSSIAN" empty_world completed_status)
    as (w' & Hrun & _ & Hrem & Hsl & Hlast).
  - intros j Hj. assert (j = 0%nat) as -> by lia.
    exists processing_status. split; [reflexivity|]. split; [|discriminate].
    intros Hin. apply list_elem_of_singleton in Hin. discriminate.
  - reflexivity.
  - apply list_elem_of_singleton. reflexivity.
  - lia.
  - exists w'. split; [exact Hrun|]. split; [exact Hrem|]. split; [exact Hsl | exact Hlast].
Defined.

(** The provider is offline: the first probe fails and the loop throws its
    error, without a sleep. *)
Lemma waitForTaskStatus_request_error_witness :
  ∃ w',
    waitForTaskStatus offline 5 "video-1" "task-1" ["completed"] "RUSSIAN" empty_world =
      (Throw network_error, w') ∧
    remote_calls (trace w') = [GetTask "video-1" "task-1"] ∧
    sleeps (trace w') = [].
Proof.
  destruct (waitForTaskStatus_request_error offline 0 5 "video-1" "task-1" ["completed"]
              "RUSSIAN" empty_world network_error)
    as (w' & Hrun & _ & Hrem & Hsl & _).
  - intros j Hj. lia.
  - reflexivity.
  - lia.
  - exists w'. split; [exact Hrun|]. split; [exact Hrem | exact Hsl].
Defined.

(** The cooperative provider: the URL that [waitForTranscription] returns is
    the one of its second status payload. *)
Lemma waitForTranscription_sound_witness :
  (waitForTranscription
     (cooperative example_transcript example_corrections original_file resampled_file)
     5 "video-1" "task-1" "RUSSIAN" empty_world).1 = Ok "https://cdn/transcript.json" ∧
  ∃ k st,
    get_task (cooperative example_transcript example_corrections original_file resampled_file) k =
      Reply st ∧
    status st = "transcriptionCompleted" ∧ transcript st = Some "https://cdn/transcript.json".
Proof.
  assert (Hrun :
    waitForTranscription
      (cooperative example_transcript example_corrections original_file resampled_file)
      5 "video-1" "task-1" "RUSSIAN" empty_world =
    (Ok "https://cdn/transcript.json",
     (waitForTranscription
        (cooperative example_transcript example_corrections original_file resampled_file)
        5 "video-1" "task-1" "RUSSIAN" empty_world).2)).
  { vm_compute. reflexivity. }
  split; [vm_compute; reflexivity|].
  exact (proj2 (waitForTranscription_sound _ _ _ _ _ _ _ _ Hrun)).
Defined.

(** A provider whose second payload is ["completed"]: the URL that
    [waitForCompletedVideo] returns is the one of that payload. *)
Lemma waitForCompletedVideo_sound_witness :
  (waitForCompletedVideo (provider [processing_status; completed_status])
     5 "video-1" "task-1" "RUSSIAN" empty_world).1 = Ok "https://cdn/captioned.mp4" ∧
  ∃ k st,
    get_task (provider [processing_status; completed_status]) k = Reply st ∧
    status st = "completed" ∧ downloadUrl st = Some "https://cdn/captioned.mp4".
Proof.
  assert (Hrun :
    waitForCompletedVideo (provider [processing_status; completed_status])
      5 "video-1" "task-1" "RUSSIAN" empty_world =
    (Ok "https://cdn/captioned.mp4",
     (waitForCompletedVideo (provider [processing_status; completed_status])
        5 "video-1" "task-1" "RUSSIAN" empty_world).2)).
  { vm_compute. reflexivity. }
  split; [vm_compute; reflexivity|].
  exact (proj2 (waitForCompletedVideo_sound _ _ _ _ _ _ _ _ Hrun)).
Defined.

(** The review model echoes the two texts of [example_transcript]. *)
Lemma correctTranscript_echo_witness :
  correctTranscript (review_model (compactTranscript (chunksWithText example_transcript)))
    "helo wrold" example_transcript empty_world =
  (Ok example_transcript,
   log empty_world
     [ReviewRequest "helo wrold" (compactTranscript (chunksWithText example_transcript))]).
Proof.
  exact (correctTranscript_echo
           (review_model (compactTranscript (chunksWithText example_transcript)))
           "helo wrold" example_transcript empty_world eq_refl).
Defined.

(** The review model answers ["hello"] and ["world"]: they are the texts of
    the merged transcript. *)
Lemma correctTranscript_texts_read_back_witness :
  ∃ merged w',
    correctTranscript (review_model example_corrections) "hello world" example_transcript
      empty_world = (Ok merged, w') ∧
    compactTranscript (chunksWithText merged) = example_corrections.
Proof.
  apply (correctTranscript_texts_read_back (review_model example_corrections)
           "hello world" example_transcript example_corrections empty_world).
  - reflexivity.
  - vm_compute. reflexivity.
  - repeat constructor; discriminate.
Defined.

(** After the cooperative run the file is at [outputPath], and a second call
    returns at once, also when the provider is gone. *)
Lemma createCaptionedVideo_returns_output_witness :
  is_Some (fs captioned_world !! "captioned_RUSSIAN.mp4") ∧
  createCaptionedVideo offline upper parse_mp4 resolve_flat 3 0 example_params captioned_world =
    (Ok "captioned_RUSSIAN.mp4",
     log captioned_world [ConsoleLog "[captions] File already exists: captioned_RUSSIAN.mp4"]).
Proof.
  assert (Hrun :
    createCaptionedVideo
      (cooperative example_transcript example_corrections original_file resampled_file)
      upper parse_mp4 resolve_flat 3 10 example_params empty_world =
    (Ok "captioned_RUSSIAN.mp4", captioned_world)).
  { vm_compute. reflexivity. }
  destruct (createCaptionedVideo_returns_output _ _ _ _ _ _ _ _ _ _ Hrun)
    as (_ & Hfile & Hagain).
  split; [exact Hfile|]. exact (Hagain offline 0%nat).
Defined.

(** No attempt is allowed: the call throws at once and the world is as it was. *)
Lemma createCaptionedVideo_no_attempt_witness :
  createCaptionedVideo offline upper parse_mp4 resolve_flat 0 0 example_params empty_world =
    (Throw (Error "Failed to create captioned video after retries: undefined"), empty_world).
Proof.
  apply (createCaptionedVideo_no_attempt offline upper parse_mp4 resolve_flat 0 0%nat
           example_params empty_world).
  - lia.
  - reflexivity.
Defined.

(** The task for RUSSIAN: the request carries the code ["ru"]. *)
Lemma createCaptionTask_sound_witness :
  "task-1" ≠ "" ∧
  post_task (provider []) (calls KTask (trace empty_world)) = Reply (Some "task-1") ∧
  ∃ languageCode,
    languageCodeOf (upper "RUSSIAN") = Some languageCode ∧
    (createCaptionTask (provider []) upper "video-1" "RUSSIAN" empty_world).2 =
      log empty_world [CreateTask "video-1" languageCode].
Proof.
  assert (Hrun :
    createCaptionTask (provider []) upper "video-1" "RUSSIAN" empty_world =
    (Ok "task-1", (createCaptionTask (provider []) upper "video-1" "RUSSIAN" empty_world).2)).
  { vm_compute. reflexivity. }
  exact (createCaptionTask_sound _ _ _ _ _ _ _ Hrun).
Defined.

(** A URL that answers from the third request on: three requests and two
    sleeps. *)
Lemma waitForUrlAvailability_available_witness :
  Http.waitForUrlAvailability (available_after 2) "https://cdn/a.mp4" 60 10000 [] =
    (Ok (),
     [Http.Head "https://cdn/a.mp4"; Http.Wait 10000;
      Http.Head "https://cdn/a.mp4"; Http.Wait 10000;
      Http.Head "https://cdn/a.mp4"]).
Proof.
  apply (waitForUrlAvailability_available (available_after 2) "https://cdn/a.mp4" 60 10000
           [] 2 ()).
  - intros j Hj. exists network_error.
    destruct j as [|[|j]]; [reflexivity|reflexivity|lia].
  - reflexivity.
  - lia.
Defined.

(** A URL that never answers, with three attempts: three requests, two
    sleeps and the error. *)
Lemma waitForUrlAvailability_exhausted_witness :
  Http.waitForUrlAvailability (λ _, Fails network_error) "https://cdn/a.mp4" 3 10000 [] =
    (Throw (Error "URL is not available after 3 attempts: https://cdn/a.mp4"),
     [Http.Head "https://cdn/a.mp4"; Http.Wait 10000;
      Http.Head "https://cdn/a.mp4"; Http.Wait 10000;
      Http.Head "https://cdn/a.mp4"]).
Proof.
  apply (waitForUrlAvailability_exhausted (λ _, Fails network_error) "https://cdn/a.mp4"
           3 10000 []).
  - lia.
  - intros j _. exists network_error. reflexivity.
Defined.

(** No attempt is allowed: no request. *)
Lemma waitForUrlAvailability_no_request_witness :
  Http.waitForUrlAvailability (λ _, Fails network_error) "https://cdn/a.mp4" 0 10000 [] =
    (Ok (), []).
Proof.
  apply (waitForUrlAvailability_no_request (λ _, Fails network_error) "https://cdn/a.mp4"
           0 10000 []).
  lia.
Defined.

(** [--videos video_1,video_2 --languages]: the videos are stored, and they
    came right after their flag. *)
Lemma parseCliArguments_sound_witness :
  parseCliArguments ["--videos"; "video_1,video_2"; "--languages"] !! "videos" =
    Some "video_1,video_2" ∧
  given ["--videos"; "video_1,video_2"; "--languages"] "videos" "video_1,video_2".
Proof.
  assert (H : parseCliArguments ["--videos"; "video_1,video_2"; "--languages"] !! "videos" =
              Some "video_1,video_2").
  { vm_compute. reflexivity. }
  split; [exact H|].
  exact (proj1 (parseCliArguments_sound _ _ _ H)).
Defined.

Lemma plain_examples :
  Forall (plain trim_spaces) ["video_1"; "video_2"] ∧
  Forall (plain trim_spaces) ["english"; "russian"].
Proof. split; repeat constructor; (discriminate || (vm_compute; reflexivity)). Defined.

(** Two videos, joined and parsed again. *)
Lemma parseCsvList_join_witness :
  parseCsvList trim_spaces (Some "video_1,video_2") = ["video_1"; "video_2"].
Proof.
  exact (parseCsvList_join trim_spaces ["video_1"; "video_2"] (proj1 plain_examples)).
Defined.

(** [--videos video_1,video_2 --languages english,russian], with an empty
    environment. *)
Lemma buildPipelineOptions_of_command_line_witness :
  buildPipelineOptions trim_spaces upper ∅
    (parseCliArguments ["--videos"; "video_1,video_2"; "--languages"; "english,russian"]) =
  Ok (Build_PipelineOptions ["video_1"; "video_2"] ["ENGLISH"; "RUSSIAN"]).
Proof.
  exact (buildPipelineOptions_of_command_line trim_spaces upper ∅
           ["video_1"; "video_2"] ["english"; "russian"]
           ltac:(discriminate) ltac:(discriminate)
           (proj1 plain_examples) (proj2 plain_examples) eq_refl eq_refl).
Defined.

(** The schema for ENGLISH and RUSSIAN declares the six required properties. *)
Lemma schemaProperties_required_witness :
  dom (schemaProperties ["ENGLISH"; "RUSSIAN"]) =
    list_to_set (requiredProperties ["ENGLISH"; "RUSSIAN"]).
Proof.
  apply schemaProperties_required.
  intros H. apply elem_of_cons in H as [H|H]; [discriminate|].
  apply elem_of_cons in H as [H|H]; [discriminate|].
  inversion H.
Defined.

(** The provider is offline and one attempt is allowed: the captions of
    RUSSIAN fail after one upload, and nothing is done for ENGLISH. *)
Lemma captionLanguages_stops_at_failure_witness :
  ∃ w',
    captionLanguages offline upper parse_mp4 resolve_flat 1 render_quietly
      rendered_path captioned_path (λ _, Some "hello world") 0 ["RUSSIAN"; "ENGLISH"]
      empty_world =
      (Throw (Error "Failed to create captioned video after retries: AxiosError: Network Error"),
       w') ∧
    remote_calls (trace w') = [UploadVideo "rendered_RUSSIAN.mp4"].
Proof.
  set (run := createCaptionedVideo offline upper parse_mp4 resolve_flat 1 0
                {| sourceVideoPath := rendered_path "RUSSIAN";
                   outputPath := captioned_path "RUSSIAN";
                   language := "RUSSIAN";
                   originalText := default "" (Some "hello world") |} empty_world).
  assert (Hrun : run =
    (Throw (Error "Failed to create captioned video after retries: AxiosError: Network Error"),
     run.2)).
  { vm_compute. reflexivity. }
  exists run.2. split.
  - exact (captionLanguages_stops_at_failure offline upper parse_mp4 resolve_flat 1
             render_quietly rendered_path captioned_path (λ _, Some "hello world")
             0%nat [] "RUSSIAN" ["ENGLISH"] empty_world empty_world empty_world run.2
             (rendered_path "RUSSIAN") _ eq_refl eq_refl eq_refl Hrun).
  - vm_compute. reflexivity.
Defined.

(** There is a text for RUSSIAN only: its voiceover is generated, and
    [processVideo] throws at ENGLISH before the assets are uploaded and before
    RUSSIAN is rendered. *)
Lemma processVideo_missing_text_witness :
  processVideo_outputs offline upper parse_mp4 resolve_flat 1
    voiceover_logged voiceover_path assets_logged render_logged
    rendered_path captioned_path russian_text 0 ["RUSSIAN"; "ENGLISH"] empty_world =
    (Throw (Error "No generated text found for language: ENGLISH"),
     log empty_world [ConsoleLog "[voiceover] voiceover_RUSSIAN.mp3"]).
Proof.
  exact (processVideo_missing_text offline upper parse_mp4 resolve_flat 1
           voiceover_logged voiceover_path assets_logged render_logged
           rendered_path captioned_path russian_text
           0%nat ["RUSSIAN"] "ENGLISH" [] empty_world
           (log empty_world [ConsoleLog "[voiceover] voiceover_RUSSIAN.mp3"])
           eq_refl eq_refl).
Defined.

(** The captioned video of RUSSIAN is there already: the loop returns, and
    RUSSIAN has a text. *)
Lemma captionLanguages_texts_present_witness :
  (captionLanguages offline upper parse_mp4 resolve_flat 1 render_quietly
     rendered_path captioned_path russian_text 0 ["RUSSIAN"] downloaded_world).1 = Ok () ∧
  Forall (λ language, missing (russian_text language) = false) ["RUSSIAN"].
Proof.
  assert (Hrun :
    captionLanguages offline upper parse_mp4 resolve_flat 1 render_quietly
      rendered_path captioned_path russian_text 0 ["RUSSIAN"] downloaded_world =
    (Ok (),
     (captionLanguages offline upper parse_mp4 resolve_flat 1 render_quietly
        rendered_path captioned_path russian_text 0 ["RUSSIAN"] downloaded_world).2)).
  { vm_compute. reflexivity. }
  split; [vm_compute; reflexivity|].
  exact (captionLanguages_texts_present _ _ _ _ _ _ _ _ _ _ _ _ _ Hrun).
Defined.
